(** * Canvas animation gallery: engine, registry, hover-play manager, canvas pool

    A shallow embedding of the core of the gallery:
    - [Registry]   : src/lib/animations/registry.ts (lazy loading, single flight, sort)
    - [Catalogue]  : the listing of the registry and the queries on it
    - [HoverPlay]  : src/lib/utils/hover-play-manager.ts
    - [Number]     : the numbers callers pass in, and how a canvas stores a size
    - [Pool]       : the [CanvasPool] of src/lib/canvas/engine.ts
    - [Engine]     : the [CanvasEngine] of src/lib/canvas/engine.ts, and
                     [generateThumbnail] of src/lib/canvas/thumbnail-generator.ts
    - [Monitor]    : the [PerformanceMonitor] of src/lib/utils/performance-monitor.ts

    JavaScript runs these classes on one thread: a method body, and a promise
    reaction, runs to completion before anything else does.  Each of them is
    therefore one atomic transition of the state of its object, and concurrency
    is the interleaving of such transitions. *)

From stdpp Require Import gmap strings list sorting.
From Stdlib Require Import ZArith QArith Qround Qminmax Lia Lqa.
From Stdlib Require OrdersEx.

#[local] Close Scope Q_scope.

(* ===================================================================== *)
(** * Animation metadata (src/types/animation.ts)                         *)
(* ===================================================================== *)

Inductive AnimationCategory := particles | waves | geometric | text | glitch.
Inductive AnimationDifficulty := easy | medium | hard.

Record AnimationMetadata := mkMetadata {
  id : string;
  name : string;
  description : string;
  category : AnimationCategory;
  difficulty : AnimationDifficulty;
  tags : list string;
  createdAt : option string;   (* [createdAt?: string] *)
  updatedAt : option string    (* [updatedAt?: string] *)
}.

(* ===================================================================== *)
(** * The registry: lazy loading with a cache and an in-flight map         *)
(* ===================================================================== *)

Module Registry.

(** An [Animation] is a JavaScript object: what callers share is its reference. *)
Definition Animation := nat.
(** A loader is a closure [() => Promise<Animation>], known by its reference. *)
Definition Loader := nat.

Record entry := mkEntry { metadata : AnimationMetadata; loader : Loader }.

(** The promise [entry.loader().then(..).catch(..)] built on the slow path of
    [getById].  It is pending until a reaction of the loader's promise runs,
    and then fulfilled with the module (then-branch) or with [null]
    (catch-branch). *)
Inductive promise_state :=
| Pending
| Fulfilled (v : option Animation).   (* [None] is [null] *)

(** One loader invocation, with the id captured by the closures and the
    promise chained on it. *)
Record invocation := mkInvocation {
  inv_id : string;
  inv_loader : Loader;
  inv_state : promise_state
}.

Inductive console_line :=
| Warn_overwriting (i : string)
| Error_failed_to_load (i : string).

Record registry := mkRegistry {
  entries : gmap string entry;
  loadedCache : gmap string Animation;
  loadingPromises : gmap string nat;   (* id -> the promise, by its index *)
  invocations : list invocation;       (* every [entry.loader()] call, in order *)
  console : list console_line
}.

Definition empty : registry := mkRegistry ∅ ∅ ∅ [] [].

(** What the promise returned by the async [getById] settles with: a value
    known at the call, or the outcome of a loading promise it is resolved with. *)
Inductive getById_result :=
| Immediate (v : option Animation)
| Chained (p : nat).

Definition register (m : AnimationMetadata) (l : Loader) (r : registry) : registry :=
  let console' :=
    if decide (is_Some (entries r !! id m))
    then console r ++ [Warn_overwriting (id m)]
    else console r in
  mkRegistry (<[id m := mkEntry m l]> (entries r)) (loadedCache r)
             (loadingPromises r) (invocations r) console'.

Definition getById (i : string) (r : registry) : getById_result * registry :=
  match entries r !! i with
  | None => (Immediate None, r)
  | Some e =>
    match loadedCache r !! i with
    | Some cached => (Immediate (Some cached), r)
    | None =>
      match loadingPromises r !! i with
      | Some loading => (Chained loading, r)
      | None =>
        let p := length (invocations r) in
        (Chained p,
         mkRegistry (entries r) (loadedCache r)
                    (<[i := p]> (loadingPromises r))
                    (invocations r ++ [mkInvocation i (loader e) Pending])
                    (console r))
      end
    end
  end.

(** The then-reaction of invocation [p]: the loader's promise fulfilled with
    [animation]. A promise settles once: nothing happens unless [p] is pending. *)
Definition loader_fulfils (p : nat) (animation : Animation) (r : registry) : registry :=
  match invocations r !! p with
  | Some (mkInvocation i l Pending) =>
    mkRegistry (entries r)
               (<[i := animation]> (loadedCache r))
               (delete i (loadingPromises r))
               (<[p := mkInvocation i l (Fulfilled (Some animation))]> (invocations r))
               (console r)
  | _ => r
  end.

(** The catch-reaction of invocation [p]: the loader's promise rejected. *)
Definition loader_rejects (p : nat) (r : registry) : registry :=
  match invocations r !! p with
  | Some (mkInvocation i l Pending) =>
    mkRegistry (entries r)
               (loadedCache r)
               (delete i (loadingPromises r))
               (<[p := mkInvocation i l (Fulfilled None)]> (invocations r))
               (console r ++ [Error_failed_to_load i])
  | _ => r
  end.

Definition clearCache (r : registry) : registry :=
  mkRegistry (entries r) ∅ ∅ (invocations r) (console r).

Definition has (i : string) (r : registry) : bool := bool_decide (is_Some (entries r !! i)).
Definition isCached (i : string) (r : registry) : bool :=
  bool_decide (is_Some (loadedCache r !! i)).

(** The value a caller of [getById] ends up with, once it is known. *)
Definition received (r : registry) (res : getById_result) : option (option Animation) :=
  match res with
  | Immediate v => Some v
  | Chained p =>
    match invocations r !! p with
    | Some (mkInvocation _ _ (Fulfilled v)) => Some v
    | _ => None
    end
  end.

(** ** Executions *)

Inductive event :=
| Register (m : AnimationMetadata) (l : Loader)
| GetById (i : string)
| LoaderFulfils (p : nat) (animation : Animation)
| LoaderRejects (p : nat)
| ClearCache.

(** One transition; a [GetById] also yields what its caller was handed. *)
Definition step (r : registry) (e : event) : registry * list (string * getById_result) :=
  match e with
  | Register m l => (register m l r, [])
  | GetById i => ((getById i r).2, [(i, (getById i r).1)])
  | LoaderFulfils p a => (loader_fulfils p a r, [])
  | LoaderRejects p => (loader_rejects p r, [])
  | ClearCache => (clearCache r, [])
  end.

Fixpoint run (r : registry) (tr : list event) : registry * list (string * getById_result) :=
  match tr with
  | [] => (r, [])
  | e :: tr' =>
    let '(r1, out1) := step r e in
    let '(r2, out2) := run r1 tr' in
    (r2, out1 ++ out2)
  end.

Definition is_pending_for (i : string) (v : invocation) : bool :=
  bool_decide (inv_id v = i) &&
  match inv_state v with Pending => true | Fulfilled _ => false end.

(** Loader invocations of id [i] that have started and not settled. *)
Definition in_flight (r : registry) (i : string) : nat :=
  length (filter (λ v, is_pending_for i v = true) (invocations r)).

(** How many times a loader was invoked for id [i]. *)
Definition loader_calls (r : registry) (i : string) : nat :=
  length (filter (λ v, inv_id v = i) (invocations r)).

Definition is_clear (e : event) : bool :=
  match e with ClearCache => true | _ => false end.

Definition settles (p : nat) (e : event) : bool :=
  match e with
  | LoaderFulfils q _ | LoaderRejects q => bool_decide (q = p)
  | _ => false
  end.

Definition registers (i : string) (e : event) : bool :=
  match e with Register m _ => bool_decide (id m = i) | _ => false end.

Definition no_clear (tr : list event) : bool := forallb (λ e, negb (is_clear e)) tr.
Definition no_settle (p : nat) (tr : list event) : bool :=
  forallb (λ e, negb (settles p e)) tr.
Definition never_registers (i : string) (tr : list event) : bool :=
  forallb (λ e, negb (registers i e)) tr.

(** No load is in flight. *)
Definition idle (r : registry) : bool :=
  forallb (λ v, match inv_state v with Pending => false | Fulfilled _ => true end)
          (invocations r).

(** In the execution of [tr] from [r], [clearCache] is only called while no
    load is in flight. *)
Fixpoint clears_when_idle (r : registry) (tr : list event) : bool :=
  match tr with
  | [] => true
  | e :: tr' =>
    (if is_clear e then idle r else true) && clears_when_idle (step r e).1 tr'
  end.

(** Sample data for the concrete executions below. *)
Definition sample_metadata (i : string) : AnimationMetadata :=
  mkMetadata i "Sample" "A sample animation" particles easy [] None None.

(** A load of "x" is in flight, the cache is cleared, "x" is requested again. *)
Definition trace_clear_in_flight : list event :=
  [Register (sample_metadata "x") 7; GetById "x"; ClearCache; GetById "x"].

(** ** Invariants of every execution *)

(** The in-flight map only names pending invocations of the same id, of an id
    that is registered and not cached. *)
Record coherent (r : registry) : Prop := mkCoherent {
  coh_marker : ∀ i p, loadingPromises r !! i = Some p →
    ∃ l, invocations r !! p = Some (mkInvocation i l Pending);
  coh_uncached : ∀ i p, loadingPromises r !! i = Some p → loadedCache r !! i = None;
  coh_registered : ∀ i p, loadingPromises r !! i = Some p → is_Some (entries r !! i)
}.

(** A loader is only ever invoked for a registered id. *)
Definition invoked_registered (r : registry) : Prop :=
  ∀ p v, invocations r !! p = Some v → is_Some (entries r !! inv_id v).

(** Every pending invocation is the one the in-flight map names for its id. *)
Definition tracked (r : registry) : Prop :=
  ∀ p i l, invocations r !! p = Some (mkInvocation i l Pending) →
    loadingPromises r !! i = Some p.

End Registry.

(* ===================================================================== *)
(** * [AnimationRegistry.sort] and the host functions it calls            *)
(* ===================================================================== *)

Module RegistrySort.

#[local] Open Scope Z_scope.

Inductive RegistrySortBy := by_name | by_category | by_difficulty | by_createdAt | by_updatedAt.
Inductive RegistrySortOrder := asc | desc.
Record RegistrySortOptions := mkOptions { by_ : RegistrySortBy; order : RegistrySortOrder }.

(** ** What ECMAScript promises about [Array.prototype.sort]

    A comparator is consistent on a set of values when it splits them into
    totally ordered equivalence classes. For a comparator that is consistent
    on the elements sorted, the result is sorted and the sort is stable; for
    any other, "the sort order is implementation-defined". *)
Record consistent {A} (cmp : A → A → Z) (S : A → Prop) : Prop := mkConsistent {
  cmp_refl a : S a → cmp a a = 0;
  cmp_sym a b : S a → S b → cmp a b = 0 → cmp b a = 0;
  cmp_trans_eq a b c : S a → S b → S c → cmp a b = 0 → cmp b c = 0 → cmp a c = 0;
  cmp_trans_lt a b c : S a → S b → S c → cmp a b < 0 → cmp b c < 0 → cmp a c < 0;
  cmp_trans_gt a b c : S a → S b → S c → cmp a b > 0 → cmp b c > 0 → cmp a c > 0
}.

(** Earlier elements compare at or below later ones. *)
Definition sorted_by {A} (cmp : A → A → Z) (l : list A) : Prop :=
  StronglySorted (λ a b, cmp a b ≤ 0) l.

(** The elements that compare equal to [x] come out in the order they went in. *)
Definition keeps_order_of_equals {A} (cmp : A → A → Z) (l l' : list A) : Prop :=
  ∀ x, x ∈ l → filter (λ y, cmp x y = 0) l' = filter (λ y, cmp x y = 0) l.

(** The host: string collation, date parsing and the array sort. *)
Class Host := mkHost {
  (** [a.localeCompare(b)]: negative, zero or positive *)
  localeCompare : string → string → Z;
  localeCompare_consistent : consistent localeCompare (λ _, True);
  (** [new Date(s).getTime()]; [None] is [NaN], the time of an invalid date *)
  Date_getTime : string → option Z;
  (** [array.sort(cmp)], as a function of the elements *)
  Array_sort : ∀ {A : Type}, (A → A → Z) → list A → list A;
  Array_sort_permutation : ∀ A (cmp : A → A → Z) l, Array_sort cmp l ≡ₚ l;
  Array_sort_sorted : ∀ A (cmp : A → A → Z) l,
    consistent cmp (λ a, a ∈ l) → sorted_by cmp (Array_sort cmp l);
  Array_sort_stable : ∀ A (cmp : A → A → Z) l,
    consistent cmp (λ a, a ∈ l) → keeps_order_of_equals cmp l (Array_sort cmp l)
}.

(** ** The comparator of [sort] *)

Definition category_string (c : AnimationCategory) : string :=
  match c with
  | particles => "particles" | waves => "waves" | geometric => "geometric"
  | text => "text" | glitch => "glitch"
  end.

(** [const difficultyOrder = { easy: 0, medium: 1, hard: 2 }] *)
Definition difficultyOrder (d : AnimationDifficulty) : Z :=
  match d with easy => 0 | medium => 1 | hard => 2 end.

(** An optional string field is truthy when present and not empty. *)
Definition truthy_field (f : option string) : option string :=
  match f with
  | Some s => if decide (s = ""%string) then None else Some s
  | None => None
  end.

(** [if (x && y) comparison = new Date(x).getTime() - new Date(y).getTime()].
    With an invalid date the difference is [NaN], which the sort reads as 0. *)
Definition date_comparison `{Host} (x y : option string) : Z :=
  match truthy_field x, truthy_field y with
  | Some sx, Some sy =>
    match Date_getTime sx, Date_getTime sy with
    | Some tx, Some ty => tx - ty
    | _, _ => 0
    end
  | _, _ => 0
  end.

Definition compareFn `{Host} (options : RegistrySortOptions) (a b : AnimationMetadata) : Z :=
  let comparison :=
    match by_ options with
    | by_name => localeCompare (name a) (name b)
    | by_category =>
      localeCompare (category_string (category a)) (category_string (category b))
    | by_difficulty => difficultyOrder (difficulty a) - difficultyOrder (difficulty b)
    | by_createdAt => date_comparison (createdAt a) (createdAt b)
    | by_updatedAt => date_comparison (updatedAt a) (updatedAt b)
    end in
  match order options with
  | asc => comparison
  | desc => - comparison
  end.

(** [sort]: a copy of [animations], sorted in place, is returned. *)
Definition sort `{Host} (animations : list AnimationMetadata)
    (options : RegistrySortOptions) : list AnimationMetadata :=
  Array_sort (compareFn options) animations.

(** The time [sort] reads from an optional date field: none when the field
    is missing or empty, or holds no valid date. *)
Definition date_value `{Host} (x : option string) : option Z :=
  s ← truthy_field x; Date_getTime s.

(** The date field a sort key reads, for the two date keys. *)
Definition date_field (key : RegistrySortBy) : option (AnimationMetadata → option string) :=
  match key with
  | by_createdAt => Some createdAt
  | by_updatedAt => Some updatedAt
  | _ => None
  end.

(** ** A sort that meets the promise: binary insertion

    The strategy V8 applies to short arrays: each element in turn is
    inserted into the sorted prefix at the position a binary search finds. *)

Fixpoint binary_search {A} (cmp : A → A → Z) (pivot : A) (prefix : list A)
    (left right : nat) (fuel : nat) : nat :=
  match fuel with
  | O => left
  | S fuel' =>
    if decide (left < right)%nat then
      let mid := (left + (right - left) / 2)%nat in
      match prefix !! mid with
      | Some y =>
        if decide (cmp pivot y < 0)
        then binary_search cmp pivot prefix left mid fuel'
        else binary_search cmp pivot prefix (mid + 1)%nat right fuel'
      | None => left
      end
    else left
  end.

Definition binary_insert {A} (cmp : A → A → Z) (prefix : list A) (pivot : A) : list A :=
  let position := binary_search cmp pivot prefix 0 (length prefix) (length prefix) in
  take position prefix ++ pivot :: drop position prefix.

Definition binary_insertion_sort {A} (cmp : A → A → Z) (l : list A) : list A :=
  foldl (binary_insert cmp) [] l.

(** ** Sample hosts and entries *)

(** Collation by the code units of the strings. *)
Definition code_unit_compare (a b : string) : Z :=
  match OrdersEx.String_as_OT.compare a b with
  | Lt => -1
  | Eq => 0
  | Gt => 1
  end.

(** Date parsing for the samples: the date-only form YYYY-MM-DD, read as
    midnight UTC; anything else is taken as an invalid date. *)
Definition digit (c : Ascii.ascii) : option Z :=
  let n := Z.of_nat (Ascii.nat_of_ascii c) in
  if (48 <=? n) && (n <=? 57) then Some (n - 48) else None.

Fixpoint number (cs : list Ascii.ascii) (acc : Z) : option Z :=
  match cs with
  | [] => Some acc
  | c :: cs' => d ← digit c; number cs' (10 * acc + d)
  end.

Definition leap (y : Z) : bool :=
  ((y mod 4 =? 0) && negb (y mod 100 =? 0)) || (y mod 400 =? 0).

Definition days_in_month (y m : Z) : Z :=
  if m =? 2 then (if leap y then 29 else 28)
  else if (m =? 4) || (m =? 6) || (m =? 9) || (m =? 11) then 30 else 31.

(** Days since 1970-01-01 of a civil date. *)
Definition days_from_civil (y m d : Z) : Z :=
  let y' := if m <=? 2 then y - 1 else y in
  let era := y' / 400 in
  let yoe := y' - era * 400 in
  let doy := (153 * (if 2 <? m then m - 3 else m + 9) + 2) / 5 + d - 1 in
  let doe := yoe * 365 + yoe / 4 - yoe / 100 + doy in
  era * 146097 + doe - 719468.

Definition hyphen : Ascii.ascii := Ascii.ascii_of_nat 45.

Definition sample_getTime (s : string) : option Z :=
  match String.list_ascii_of_string s with
  | [y1; y2; y3; y4; dash1; m1; m2; dash2; d1; d2] =>
    if bool_decide (dash1 = hyphen ∧ dash2 = hyphen) then
      y ← number [y1; y2; y3; y4] 0;
      m ← number [m1; m2] 0;
      d ← number [d1; d2] 0;
      if (1 <=? m) && (m <=? 12) && (1 <=? d) && (d <=? days_in_month y m)
      then Some (days_from_civil y m d * 86400000)
      else None
    else None
  | _ => None
  end.

Definition sample_entry (i : string) (d : AnimationDifficulty) (created : option string)
  : AnimationMetadata :=
  mkMetadata i i "" particles d [] created None.

(** Four entries, the third without [createdAt]. *)
Definition jan5 := sample_entry "jan5" easy (Some "2024-01-05"%string).
Definition jan1 := sample_entry "jan1" easy (Some "2024-01-01"%string).
Definition undated := sample_entry "undated" easy None.
Definition jan3 := sample_entry "jan3" easy (Some "2024-01-03"%string).

End RegistrySort.

(* ===================================================================== *)
(** * The registry's listing and its queries (registry.ts)                 *)
(* ===================================================================== *)

Module Catalogue.

#[global] Instance AnimationCategory_eq_dec : EqDecision AnimationCategory.
Proof. solve_decision. Defined.
#[global] Instance AnimationDifficulty_eq_dec : EqDecision AnimationDifficulty.
Proof. solve_decision. Defined.

(** [RegistryFilter] (src/types/registry.ts): every field is optional. *)
Record RegistryFilter := mkFilter {
  f_category : option AnimationCategory;
  f_tags : option (list string);
  f_search : option string;
  f_difficulty : option AnimationDifficulty
}.

Definition no_filter : RegistryFilter := mkFilter None None None None.

(** [String.prototype.toLowerCase] is the host's. *)
Class StringHost := mkStringHost { toLowerCase : string → string }.

(** [String.prototype.includes]: [sub] occurs in [s]. *)
Fixpoint includes (sub s : string) : bool :=
  String.prefix sub s ||
  match s with
  | EmptyString => false
  | String _ s' => includes sub s'
  end.

(** [Set.prototype.add]: insertion order, no duplicates. *)
Definition Set_add {A} `{EqDecision A} (x : A) (s : list A) : list A :=
  if decide (x ∈ s) then s else s ++ [x].

(** The registry with the insertion order of the keys of its [entries] Map:
    [Map.prototype.set] appends a new key and leaves an existing key at its
    place. *)
Record catalogue := mkCatalogue {
  registry_of : Registry.registry;
  order : list string
}.

Definition empty : catalogue := mkCatalogue Registry.empty [].

Definition register (m : AnimationMetadata) (l : Registry.Loader) (s : catalogue)
  : catalogue :=
  mkCatalogue (Registry.register m l (registry_of s)) (Set_add (id m) (order s)).

(** [Array.from(this.entries.values()).map((entry) => entry.metadata)] *)
Definition getAll (s : catalogue) : list AnimationMetadata :=
  omap (λ i, Registry.metadata <$> Registry.entries (registry_of s) !! i) (order s).

Definition getMetadataById (i : string) (s : catalogue) : option AnimationMetadata :=
  Registry.metadata <$> Registry.entries (registry_of s) !! i.

Definition has (i : string) (s : catalogue) : bool := Registry.has i (registry_of s).

Definition count (s : catalogue) : nat := size (Registry.entries (registry_of s)).

(** [tags.some((tag) => m.tags.includes(tag))] *)
Definition shares_a_tag (wanted : list string) (m : AnimationMetadata) : bool :=
  existsb (λ tag, bool_decide (tag ∈ tags m)) wanted.

(** The test of the search filter, on the lower-cased query. *)
Definition mentions `{StringHost} (searchLower : string) (m : AnimationMetadata) : bool :=
  includes searchLower (toLowerCase (name m))
  || includes searchLower (toLowerCase (description m))
  || existsb (λ tag, includes searchLower (toLowerCase tag)) (tags m).

Definition filter `{StringHost} (f : RegistryFilter) (s : catalogue)
  : list AnimationMetadata :=
  let results := getAll s in
  let results :=
    match f_category f with
    | Some c => List.filter (λ m, bool_decide (category m = c)) results
    | None => results
    end in
  let results :=
    match f_difficulty f with
    | Some d => List.filter (λ m, bool_decide (difficulty m = d)) results
    | None => results
    end in
  let results :=
    match f_tags f with
    | Some (tag :: more) => List.filter (shares_a_tag (tag :: more)) results
    | _ => results                 (* [filter.tags && filter.tags.length > 0] *)
    end in
  let results :=
    match RegistrySort.truthy_field (f_search f) with
    | Some query => List.filter (mentions (toLowerCase query)) results
    | None => results
    end in
  results.

Definition getByCategory (c : AnimationCategory) (s : catalogue) : list AnimationMetadata :=
  List.filter (λ m, bool_decide (category m = c)) (getAll s).

Definition getByTags (wanted : list string) (s : catalogue) : list AnimationMetadata :=
  List.filter (shares_a_tag wanted) (getAll s).

Definition search `{StringHost} (query : string) (s : catalogue) : list AnimationMetadata :=
  filter (mkFilter None None (Some query) None) s.

(** [Array.prototype.sort()] without a comparator orders the elements by
    the code units of their string forms. *)
Definition default_compare {A} (toString : A → string) (a b : A) : Z :=
  RegistrySort.code_unit_compare (toString a) (toString b).

Definition getCategories `{RegistrySort.Host} (s : catalogue) : list AnimationCategory :=
  let categories := foldl (λ set m, Set_add (category m) set) [] (getAll s) in
  RegistrySort.Array_sort (default_compare RegistrySort.category_string) categories.

Definition getAllTags `{RegistrySort.Host} (s : catalogue) : list string :=
  let all := foldl (λ set m, foldl (λ set tag, Set_add tag set) set (tags m)) [] (getAll s) in
  RegistrySort.Array_sort (default_compare (λ tag, tag)) all.

(** [getAnimationsByIds], on the registry it is given. *)
Definition getAnimationsByIds (ids : list string) (s : catalogue) : list AnimationMetadata :=
  omap (λ i, getMetadataById i s) ids.

Definition getById (i : string) (s : catalogue) : Registry.getById_result * catalogue :=
  ((Registry.getById i (registry_of s)).1,
   mkCatalogue (Registry.getById i (registry_of s)).2 (order s)).

(** [preloadCategory]: [getById] is called for each entry of the category,
    in order; the promises it returns are awaited together. *)
Definition preloadCategory (c : AnimationCategory) (s : catalogue)
  : list Registry.getById_result * catalogue :=
  foldl (λ acc m, (acc.1 ++ [(getById (id m) acc.2).1], (getById (id m) acc.2).2))
        ([], s) (getByCategory c s).

(** Executions: the events of the registry, on the catalogue. *)
Definition step (s : catalogue) (e : Registry.event) : catalogue :=
  match e with
  | Registry.Register m l => register m l s
  | _ => mkCatalogue (Registry.step (registry_of s) e).1 (order s)
  end.

Definition run (s : catalogue) (tr : list Registry.event) : catalogue := foldl step s tr.

(** The keys listed are the keys of [entries], each once, and every entry
    is stored under the id of its metadata. *)
Record listed (s : catalogue) : Prop := mkListed {
  listed_NoDup : NoDup (order s);
  listed_keys : ∀ i, i ∈ order s ↔ is_Some (Registry.entries (registry_of s) !! i);
  listed_ids : ∀ i e, Registry.entries (registry_of s) !! i = Some e →
                      id (Registry.metadata e) = i
}.

(** The registry after [getById] was called for each of [ids]. *)
Definition requested (ids : list string) (s : catalogue) : catalogue :=
  foldl (λ s i, (getById i s).2) s ids.

(** Whether a load of [i] is settled or under way. *)
Definition loaded_or_loading (i : string) (s : catalogue) : Prop :=
  is_Some (Registry.loadedCache (registry_of s) !! i)
  ∨ is_Some (Registry.loadingPromises (registry_of s) !! i).

(** ASCII and Latin-1 letters: [toLowerCase] on strings of code units below 256. *)
Definition lower_unit (c : Ascii.ascii) : Ascii.ascii :=
  let n := Ascii.nat_of_ascii c in
  if ((65 <=? n) && (n <=? 90)) || ((192 <=? n) && (n <=? 222) && negb (n =? 215))
  then Ascii.ascii_of_nat (n + 32) else c.

Fixpoint lower_string (s : string) : string :=
  match s with
  | EmptyString => EmptyString
  | String c s' => String (lower_unit c) (lower_string s')
  end.

Definition latin1 : StringHost := mkStringHost lower_string.

End Catalogue.

(* ===================================================================== *)
(** * The hover-play manager (src/lib/utils/hover-play-manager.ts)         *)
(* ===================================================================== *)

Module HoverPlay.

(** A cleanup callback [() => void] is a closure, known by its reference;
    calling it is recorded in [called]. The callbacks the gallery passes stop
    an engine and set component state: they do not call back into the manager. *)
Definition CleanupFunction := nat.

(** A JavaScript [Set<string>] iterates in insertion order and holds no
    duplicates; a [Map] likewise keeps the insertion order of its keys. *)
Definition set_has (x : string) (s : list string) : bool := bool_decide (x ∈ s).
Definition set_add (x : string) (s : list string) : list string :=
  if set_has x s then s else s ++ [x].
Definition set_delete (x : string) (s : list string) : list string :=
  filter (λ y, y ≠ x) s.

Fixpoint map_get {V} (k : string) (m : list (string * V)) : option V :=
  match m with
  | [] => None
  | (k', v) :: m' => if decide (k' = k) then Some v else map_get k m'
  end.
Fixpoint map_set {V} (k : string) (v : V) (m : list (string * V)) : list (string * V) :=
  match m with
  | [] => [(k, v)]
  | (k', v') :: m' => if decide (k' = k) then (k, v) :: m' else (k', v') :: map_set k v m'
  end.
Definition map_delete {V} (k : string) (m : list (string * V)) : list (string * V) :=
  filter (λ kv, kv.1 ≠ k) m.

Record manager := mkManager {
  activeAnimations : list string;
  cleanupFunctions : list (string * CleanupFunction);
  maxConcurrent : nat;
  called : list CleanupFunction      (* the cleanup callbacks invoked so far, in order *)
}.

(** [new HoverPlayManager()]: the field initialisers. *)
Definition new : manager := mkManager [] [] 3 [].

(** JavaScript truthiness of a string: every string but the empty one. *)
Definition truthy (s : string) : bool := negb (bool_decide (s = ""%string)).

Definition unregister (animationId : string) (m : manager) : manager :=
  match map_get animationId (cleanupFunctions m) with
  | Some cleanup =>
    mkManager (set_delete animationId (activeAnimations m))
              (map_delete animationId (cleanupFunctions m))
              (maxConcurrent m)
              (called m ++ [cleanup])
  | None =>
    mkManager (set_delete animationId (activeAnimations m))
              (cleanupFunctions m) (maxConcurrent m) (called m)
  end.

Definition register (animationId : string) (cleanup : CleanupFunction) (m : manager)
  : bool * manager :=
  if set_has animationId (activeAnimations m) then (false, m)
  else
    let m1 :=
      if decide (maxConcurrent m ≤ length (activeAnimations m)) then
        match activeAnimations m with       (* [values().next().value] *)
        | oldestId :: _ => if truthy oldestId then unregister oldestId m else m
        | [] => m
        end
      else m in
    (true,
     mkManager (set_add animationId (activeAnimations m1))
               (map_set animationId cleanup (cleanupFunctions m1))
               (maxConcurrent m1) (called m1)).

Definition isActive (animationId : string) (m : manager) : bool :=
  set_has animationId (activeAnimations m).

Definition getActiveCount (m : manager) : nat := length (activeAnimations m).

Definition stopAll (m : manager) : manager :=
  mkManager [] [] (maxConcurrent m) (called m ++ map snd (cleanupFunctions m)).

(** A sequence of [register] calls, with the booleans they return. *)
Fixpoint register_all (calls : list (string * CleanupFunction)) (m : manager)
  : list bool * manager :=
  match calls with
  | [] => ([], m)
  | (i, c) :: calls' =>
    let r := register i c m in
    let rest := register_all calls' r.2 in
    (r.1 :: rest.1, rest.2)
  end.


(** ** [setMaxConcurrent], and sequences of calls *)

(** The loop of [setMaxConcurrent]: while the active set is larger than the
    limit, the oldest id is unregistered if it is truthy. At most [fuel]
    iterations are run; [None] when they do not end the loop. *)
Fixpoint evict_excess (fuel : nat) (m : manager) : option manager :=
  if decide (maxConcurrent m < length (activeAnimations m)) then
    match fuel with
    | O => None
    | S fuel' =>
      match activeAnimations m with
      | oldestId :: _ =>
        evict_excess fuel' (if truthy oldestId then unregister oldestId m else m)
      | [] => evict_excess fuel' m
      end
    end
  else Some m.

(** [setMaxConcurrent(max)] for an integer [max]: the limit becomes
    [Math.max(1, max)]. A limit that is not an integer (2.5, NaN) is not
    covered: the comparisons of [register] and of the loop then differ. *)
Definition setMaxConcurrent (max : Z) (fuel : nat) (m : manager) : option manager :=
  evict_excess fuel
    (mkManager (activeAnimations m) (cleanupFunctions m) (Z.to_nat (Z.max 1 max))
               (called m)).

Inductive op :=
| Register (animationId : string) (cleanup : CleanupFunction)
| Unregister (animationId : string)
| StopAll
| SetMaxConcurrent (max : Z).

Definition step (fuel : nat) (m : manager) (o : op) : option manager :=
  match o with
  | Register i c => Some (register i c m).2
  | Unregister i => Some (unregister i m)
  | StopAll => Some (stopAll m)
  | SetMaxConcurrent max => setMaxConcurrent max fuel m
  end.

(** A sequence of calls on the manager; each loop of [setMaxConcurrent] is
    given [fuel] iterations. *)
Fixpoint run (fuel : nat) (m : manager) (ops : list op) : option manager :=
  match ops with
  | [] => Some m
  | o :: ops' => m' ← step fuel m o; run fuel m' ops'
  end.



(** Every active id has its cleanup stored, under the same insertion order,
    and no id is active twice. *)
Definition paired (m : manager) : Prop :=
  activeAnimations m = (cleanupFunctions m).*1 ∧ NoDup (activeAnimations m).

(** What [register] does before it adds the new id. *)
Definition evicted (m : manager) : manager :=
  if decide (maxConcurrent m ≤ length (activeAnimations m)) then
    match activeAnimations m with
    | oldestId :: _ => if truthy oldestId then unregister oldestId m else m
    | [] => m
    end
  else m.



End HoverPlay.

(* ===================================================================== *)
(** * JavaScript numbers and the size attributes of a canvas               *)
(* ===================================================================== *)

Module Number.

#[local] Open Scope Q_scope.

(** A JavaScript number is a finite double, one of the two infinities or
    NaN. The finite ones are modelled as rationals, and arithmetic on them is
    exact (rounding to the nearest double and the sign of zero are left
    out), except that a result beyond the range of doubles is infinite. *)
Inductive number :=
| Finite (q : Q)
| Infinity
| NegInfinity
| NaN.
Arguments Finite q%_Q.

(** Results from [2^1024 - 2^970] on are rounded to infinity. *)
Definition overflow : Q := inject_Z (2 ^ 1024 - 2 ^ 970).

Definition fit (q : Q) : number :=
  if Qle_bool overflow q then Infinity
  else if Qle_bool q (- overflow) then NegInfinity
  else Finite q.

(** An infinity with the sign of [q], NaN for 0. *)
Definition signed (positive negative : number) (q : Q) : number :=
  match 0 ?= q with
  | Lt => positive
  | Eq => NaN
  | Gt => negative
  end.

Definition add (x y : number) : number :=
  match x, y with
  | NaN, _ | _, NaN => NaN
  | Finite p, Finite q => fit (p + q)
  | Infinity, NegInfinity | NegInfinity, Infinity => NaN
  | Infinity, _ | _, Infinity => Infinity
  | NegInfinity, _ | _, NegInfinity => NegInfinity
  end.

Definition mul (x y : number) : number :=
  match x, y with
  | NaN, _ | _, NaN => NaN
  | Finite p, Finite q => fit (p * q)
  | Finite p, Infinity | Infinity, Finite p => signed Infinity NegInfinity p
  | Finite p, NegInfinity | NegInfinity, Finite p => signed NegInfinity Infinity p
  | Infinity, Infinity | NegInfinity, NegInfinity => Infinity
  | Infinity, NegInfinity | NegInfinity, Infinity => NegInfinity
  end.

(** The divisor 0 is taken as [+0]. *)
Definition div (x y : number) : number :=
  match x, y with
  | NaN, _ | _, NaN => NaN
  | Finite p, Finite q =>
    if Qeq_bool q 0 then signed Infinity NegInfinity p else fit (p / q)
  | Finite _, Infinity | Finite _, NegInfinity => Finite 0
  | Infinity, Finite q => if Qle_bool 0 q then Infinity else NegInfinity
  | NegInfinity, Finite q => if Qle_bool 0 q then NegInfinity else Infinity
  | _, _ => NaN
  end.

(** [Math.min] and [Math.max]: NaN if an argument is NaN. *)
Definition Math_min (x y : number) : number :=
  match x, y with
  | NaN, _ | _, NaN => NaN
  | NegInfinity, _ | _, NegInfinity => NegInfinity
  | Infinity, z | z, Infinity => z
  | Finite p, Finite q => Finite (Qmin p q)
  end.

Definition Math_max (x y : number) : number :=
  match x, y with
  | NaN, _ | _, NaN => NaN
  | Infinity, _ | _, Infinity => Infinity
  | NegInfinity, z | z, NegInfinity => z
  | Finite p, Finite q => Finite (Qmax p q)
  end.

(** [Math.round]: the nearest integer, halves rounded up; the infinities and
    NaN are returned as they are. *)
Definition Math_round (x : number) : number :=
  match x with
  | Finite q => Finite (inject_Z (Qfloor (q + (1 # 2))))
  | _ => x
  end.

(** An integer as a number. *)
Definition of_Z (z : Z) : number := Finite (inject_Z z).

(** A speed that [setSpeed] has clamped: a number from 0.25 to 2. *)
Definition clamped (x : number) : Prop :=
  match x with
  | Finite q => 1 # 4 <= q ∧ q <= 2
  | _ => False
  end.

(** ** Numbers assigned to [canvas.width] and [canvas.height]

    The two attributes are [unsigned long] in the DOM. A number assigned to
    one is converted first: NaN and the infinities become 0, any other number
    is truncated toward zero and taken modulo [2^32]. *)
Definition unsigned_long (x : number) : Z :=
  match x with
  | Finite q => (Z.quot (Qnum q) (Z.pos (Qden q)) mod 2 ^ 32)%Z
  | _ => 0%Z
  end.

(** The attribute then stores the converted value if it is at most
    [2^31 - 1], and its default (300 for the width, 150 for the height)
    otherwise; reading the attribute gives the stored integer back. *)
Definition dimension (default : Z) (x : number) : Z :=
  if decide (unsigned_long x ≤ 2147483647)%Z then unsigned_long x else default.

End Number.

(* ===================================================================== *)
(** * The canvas pool ([CanvasPool] in src/lib/canvas/engine.ts)           *)
(* ===================================================================== *)

Module Pool.
Import Number.

(** The context mode of a canvas element. [canvas.getContext('2d')] returns
    the 2D context when the canvas has none yet (and binds it) or already has
    a 2D one, and [null] when the canvas is bound to another kind of context
    (the engine itself opens 'webgl' contexts). *)
Inductive context_mode := NoContext | Context2d | OtherContext.

Record HTMLCanvasElement := mkCanvas {
  cref : nat;               (* the identity of the element *)
  width : Z;
  height : Z;
  mode : context_mode
}.

(** The calls the pool makes on the document and on drawing contexts. *)
Inductive dom_call :=
| CreateElement (c : nat)
| ClearRect (c : nat) (x y w h : Z).

Record CanvasPool := mkPool {
  pool : list HTMLCanvasElement;
  maxSize : nat;
  created : nat;            (* elements created so far: the next fresh identity *)
  dom : list dom_call
}.

(** [new CanvasPool()]. *)
Definition new : CanvasPool := mkPool [] 10 0 [].

(** [document.createElement('canvas')]: 300 x 150, no context. *)
Definition createElement (n : nat) : HTMLCanvasElement := mkCanvas n 300 150 NoContext.

(** [canvas.getContext('2d')]: the context (here: whether there is one) and
    the canvas, bound to a 2D context if it had none. *)
Definition getContext2d (canvas : HTMLCanvasElement) : bool * HTMLCanvasElement :=
  match mode canvas with
  | NoContext => (true, mkCanvas (cref canvas) (width canvas) (height canvas) Context2d)
  | Context2d => (true, canvas)
  | OtherContext => (false, canvas)
  end.

(** [Array.prototype.pop]: the last element, if any. *)
Definition pop {A} (l : list A) : option A * list A :=
  match reverse l with
  | [] => (None, l)
  | x :: rest => (Some x, reverse rest)
  end.

(** [canvas.width = width; canvas.height = height], as the element stores
    them. *)
Definition resized (w h : number) (canvas : HTMLCanvasElement) : HTMLCanvasElement :=
  mkCanvas (cref canvas) (dimension 300 w) (dimension 150 h) (mode canvas).

Definition acquire (w h : number) (s : CanvasPool) : HTMLCanvasElement * CanvasPool :=
  match pop (pool s) with
  | (Some canvas, rest) =>
    (resized w h canvas, mkPool rest (maxSize s) (created s) (dom s))
  | (None, rest) =>
    let canvas := createElement (created s) in
    (resized w h canvas,
     mkPool rest (maxSize s) (S (created s)) (dom s ++ [CreateElement (created s)]))
  end.

Definition release (canvas : HTMLCanvasElement) (s : CanvasPool) : CanvasPool :=
  if decide (length (pool s) < maxSize s) then
    let '(ctx, canvas') := getContext2d canvas in
    let dom' :=
      if ctx then dom s ++ [ClearRect (cref canvas) 0 0 (width canvas) (height canvas)]
      else dom s in
    mkPool (pool s ++ [canvas']) (maxSize s) (created s) dom'
  else s.

Definition clear (s : CanvasPool) : CanvasPool :=
  mkPool [] (maxSize s) (created s) (dom s).

Inductive op :=
| Acquire (w h : number)
| Release (canvas : HTMLCanvasElement)
| Clear.

Definition step (s : CanvasPool) (o : op) : CanvasPool :=
  match o with
  | Acquire w h => (acquire w h s).2
  | Release canvas => release canvas s
  | Clear => clear s
  end.

Definition run (s : CanvasPool) (ops : list op) : CanvasPool := foldl step s ops.

Definition is_ClearRect (d : dom_call) : bool :=
  match d with ClearRect _ _ _ _ _ => true | _ => false end.

(** The [clearRect] calls made so far. *)
Definition clears (s : CanvasPool) : list dom_call :=
  filter (λ d, is_ClearRect d = true) (dom s).

End Pool.

(* ===================================================================== *)
(** * The canvas engine ([CanvasEngine] in src/lib/canvas/engine.ts)       *)
(* ===================================================================== *)

Module Engine.
Import Number.

(** The numbers the host hands to the engine (timestamps and clock readings
    in milliseconds, the layout box, the device pixel ratio) are finite and
    modelled as rationals, with exact arithmetic. The numbers a caller passes
    in (the speed multiplier, parameter values, sizes) are any [number]. *)
#[local] Open Scope Q_scope.

Definition Qlt_bool (a b : Q) : bool := negb (Qle_bool b a).

(** [Math.round]: the nearest integer, halves rounded up. *)
Definition Math_round (x : Q) : Z := Qfloor (x + (1 # 2)).

Inductive contextType := ctx2d | webgl.

#[global] Instance contextType_eq_dec : EqDecision contextType.
Proof. solve_decision. Defined.

Inductive pvalue := PNumber (x : number) | PString (s : string) | PBoolean (b : bool).

(** ** The host: navigator, window, canvas element *)

Record Navigator := mkNavigator {
  hardwareConcurrency : option Z;    (* [undefined] where unsupported *)
  userAgent : string;
  deviceMemory : option Q            (* Device Memory API, where available *)
}.

Record HTMLCanvasElement := mkCanvas {
  width : Z;                         (* the [unsigned long] attributes *)
  height : Z;
  rect_width : Q;                    (* [getBoundingClientRect()] *)
  rect_height : Q;
  provides_2d : bool;                (* [getContext('2d', ..)] is not [null] *)
  provides_webgl : bool              (* 'webgl' or 'experimental-webgl' is not [null] *)
}.

(** ** Case-insensitive search, for the user-agent test *)

Definition lower (c : Ascii.ascii) : Ascii.ascii :=
  let n := Ascii.nat_of_ascii c in
  if (65 <=? n)%nat && (n <=? 90)%nat then Ascii.ascii_of_nat (n + 32) else c.

Fixpoint prefix_ci (p s : string) : bool :=
  match p, s with
  | EmptyString, _ => true
  | String a p', String b s' => bool_decide (lower a = lower b) && prefix_ci p' s'
  | String _ _, EmptyString => false
  end.

Fixpoint contains_ci (p s : string) : bool :=
  prefix_ci p s ||
  match s with
  | EmptyString => false
  | String _ s' => contains_ci p s'
  end.

(** [/Android|webOS|iPhone|iPad|iPod|BlackBerry|IEMobile|Opera Mini/i.test(ua)] *)
Definition isMobile (ua : string) : bool :=
  existsb (λ p, contains_ci p ua)
    ["Android"; "webOS"; "iPhone"; "iPad"; "iPod"; "BlackBerry"; "IEMobile";
     "Opera Mini"]%string.

Definition detectLowEndDevice (nav : Navigator) : bool :=
  let cores :=
    match hardwareConcurrency nav with
    | Some n => if (n =? 0)%Z then 4%Z else n      (* [|| 4] *)
    | None => 4%Z
    end in
  if (cores <? 4)%Z then true
  else if isMobile (userAgent nav) then true
  else
    match deviceMemory nav with
    | Some memory => negb (Qeq_bool memory 0) && Qlt_bool memory 4
    | None => false
    end.

(** ** Animation modules and the context they are handed *)

Record AnimationContext := mkContext {
  ac_ctx : contextType;
  ac_width : Z;
  ac_height : Z;
  ac_time : number;
  ac_deltaTime : number;
  ac_fps : Z;
  ac_isPlaying : bool;
  ac_speed : number;
  ac_params : gmap string pvalue
}.

Inductive hook := Init | Update | Render | Cleanup.

#[global] Instance hook_eq_dec : EqDecision hook.
Proof. solve_decision. Defined.

(** An animation module, as far as the engine can tell: its name, whether it
    has the optional [cleanup], and which of its hooks throw. The hooks do not
    call back into the engine. *)
Record Animation := mkAnimation {
  name : string;
  has_cleanup : bool;
  raises : hook → bool
}.

Inductive error :=
| Failed_to_get_context (t : contextType)
| Canvas_context_not_initialized
| Module_error (h : hook).

(** What the engine does to the world around it. *)
Inductive effect :=
| Call (module : string) (h : hook) (context : AnimationContext)
| RequestAnimationFrame (frame : nat)
| CancelAnimationFrame (frame : nat)
| Scale (x y : Q)
| Observe
| Disconnect.

Record CanvasEngine := mkEngine {
  canvas : HTMLCanvasElement;
  ctx : option contextType;   (* [null] once destroyed *)
  animation : option Animation;
  animationFrameId : option nat;
  isPlaying : bool;
  startTime : Q;
  lastTime : Q;
  deltaTime : Q;
  fps : Z;
  frameCount : Z;
  fpsUpdateTime : Q;
  speed : number;
  params : gmap string pvalue;
  resizeObserver : option bool;   (* [Some true]: observing; [Some false]: disconnected *)
  isLowEndDevice : bool;
  targetFPS : Z;
  fpsThrottle : Q;
  lastFrameTime : Q
}.

(** Field assignments [this.f = v]. *)
Definition set_canvas (v : HTMLCanvasElement) (e : CanvasEngine) : CanvasEngine :=
  mkEngine v (ctx e) (animation e) (animationFrameId e) (isPlaying e) (startTime e)
    (lastTime e) (deltaTime e) (fps e) (frameCount e) (fpsUpdateTime e) (speed e)
    (params e) (resizeObserver e) (isLowEndDevice e) (targetFPS e) (fpsThrottle e)
    (lastFrameTime e).
Definition set_ctx (v : option contextType) (e : CanvasEngine) : CanvasEngine :=
  mkEngine (canvas e) v (animation e) (animationFrameId e) (isPlaying e) (startTime e)
    (lastTime e) (deltaTime e) (fps e) (frameCount e) (fpsUpdateTime e) (speed e)
    (params e) (resizeObserver e) (isLowEndDevice e) (targetFPS e) (fpsThrottle e)
    (lastFrameTime e).
Definition set_animation (v : option Animation) (e : CanvasEngine) : CanvasEngine :=
  mkEngine (canvas e) (ctx e) v (animationFrameId e) (isPlaying e) (startTime e)
    (lastTime e) (deltaTime e) (fps e) (frameCount e) (fpsUpdateTime e) (speed e)
    (params e) (resizeObserver e) (isLowEndDevice e) (targetFPS e) (fpsThrottle e)
    (lastFrameTime e).
Definition set_animationFrameId (v : option nat) (e : CanvasEngine) : CanvasEngine :=
  mkEngine (canvas e) (ctx e) (animation e) v (isPlaying e) (startTime e) (lastTime e)
    (deltaTime e) (fps e) (frameCount e) (fpsUpdateTime e) (speed e) (params e)
    (resizeObserver e) (isLowEndDevice e) (targetFPS e) (fpsThrottle e)
    (lastFrameTime e).
Definition set_isPlaying (v : bool) (e : CanvasEngine) : CanvasEngine :=
  mkEngine (canvas e) (ctx e) (animation e) (animationFrameId e) v (startTime e)
    (lastTime e) (deltaTime e) (fps e) (frameCount e) (fpsUpdateTime e) (speed e)
    (params e) (resizeObserver e) (isLowEndDevice e) (targetFPS e) (fpsThrottle e)
    (lastFrameTime e).
Definition set_startTime (v : Q) (e : CanvasEngine) : CanvasEngine :=
  mkEngine (canvas e) (ctx e) (animation e) (animationFrameId e) (isPlaying e) v
    (lastTime e) (deltaTime e) (fps e) (frameCount e) (fpsUpdateTime e) (speed e)
    (params e) (resizeObserver e) (isLowEndDevice e) (targetFPS e) (fpsThrottle e)
    (lastFrameTime e).
Definition set_lastTime (v : Q) (e : CanvasEngine) : CanvasEngine :=
  mkEngine (canvas e) (ctx e) (animation e) (animationFrameId e) (isPlaying e)
    (startTime e) v (deltaTime e) (fps e) (frameCount e) (fpsUpdateTime e) (speed e)
    (params e) (resizeObserver e) (isLowEndDevice e) (targetFPS e) (fpsThrottle e)
    (lastFrameTime e).
Definition set_deltaTime (v : Q) (e : CanvasEngine) : CanvasEngine :=
  mkEngine (canvas e) (ctx e) (animation e) (animationFrameId e) (isPlaying e)
    (startTime e) (lastTime e) v (fps e) (frameCount e) (fpsUpdateTime e) (speed e)
    (params e) (resizeObserver e) (isLowEndDevice e) (targetFPS e) (fpsThrottle e)
    (lastFrameTime e).
Definition set_fps (v : Z) (e : CanvasEngine) : CanvasEngine :=
  mkEngine (canvas e) (ctx e) (animation e) (animationFrameId e) (isPlaying e)
    (startTime e) (lastTime e) (deltaTime e) v (frameCount e) (fpsUpdateTime e)
    (speed e) (params e) (resizeObserver e) (isLowEndDevice e) (targetFPS e)
    (fpsThrottle e) (lastFrameTime e).
Definition set_frameCount (v : Z) (e : CanvasEngine) : CanvasEngine :=
  mkEngine (canvas e) (ctx e) (animation e) (animationFrameId e) (isPlaying e)
    (startTime e) (lastTime e) (deltaTime e) (fps e) v (fpsUpdateTime e) (speed e)
    (params e) (resizeObserver e) (isLowEndDevice e) (targetFPS e) (fpsThrottle e)
    (lastFrameTime e).
Definition set_fpsUpdateTime (v : Q) (e : CanvasEngine) : CanvasEngine :=
  mkEngine (canvas e) (ctx e) (animation e) (animationFrameId e) (isPlaying e)
    (startTime e) (lastTime e) (deltaTime e) (fps e) (frameCount e) v (speed e)
    (params e) (resizeObserver e) (isLowEndDevice e) (targetFPS e) (fpsThrottle e)
    (lastFrameTime e).
Definition set_speed (v : number) (e : CanvasEngine) : CanvasEngine :=
  mkEngine (canvas e) (ctx e) (animation e) (animationFrameId e) (isPlaying e)
    (startTime e) (lastTime e) (deltaTime e) (fps e) (frameCount e) (fpsUpdateTime e) v
    (params e) (resizeObserver e) (isLowEndDevice e) (targetFPS e) (fpsThrottle e)
    (lastFrameTime e).
Definition set_params (v : gmap string pvalue) (e : CanvasEngine) : CanvasEngine :=
  mkEngine (canvas e) (ctx e) (animation e) (animationFrameId e) (isPlaying e)
    (startTime e) (lastTime e) (deltaTime e) (fps e) (frameCount e) (fpsUpdateTime e)
    (speed e) v (resizeObserver e) (isLowEndDevice e) (targetFPS e) (fpsThrottle e)
    (lastFrameTime e).
Definition set_resizeObserver (v : option bool) (e : CanvasEngine) : CanvasEngine :=
  mkEngine (canvas e) (ctx e) (animation e) (animationFrameId e) (isPlaying e)
    (startTime e) (lastTime e) (deltaTime e) (fps e) (frameCount e) (fpsUpdateTime e)
    (speed e) (params e) v (isLowEndDevice e) (targetFPS e) (fpsThrottle e)
    (lastFrameTime e).
Definition set_targetFPS (v : Z) (e : CanvasEngine) : CanvasEngine :=
  mkEngine (canvas e) (ctx e) (animation e) (animationFrameId e) (isPlaying e)
    (startTime e) (lastTime e) (deltaTime e) (fps e) (frameCount e) (fpsUpdateTime e)
    (speed e) (params e) (resizeObserver e) (isLowEndDevice e) v (fpsThrottle e)
    (lastFrameTime e).
Definition set_fpsThrottle (v : Q) (e : CanvasEngine) : CanvasEngine :=
  mkEngine (canvas e) (ctx e) (animation e) (animationFrameId e) (isPlaying e)
    (startTime e) (lastTime e) (deltaTime e) (fps e) (frameCount e) (fpsUpdateTime e)
    (speed e) (params e) (resizeObserver e) (isLowEndDevice e) (targetFPS e) v
    (lastFrameTime e).
Definition set_lastFrameTime (v : Q) (e : CanvasEngine) : CanvasEngine :=
  mkEngine (canvas e) (ctx e) (animation e) (animationFrameId e) (isPlaying e)
    (startTime e) (lastTime e) (deltaTime e) (fps e) (frameCount e) (fpsUpdateTime e)
    (speed e) (params e) (resizeObserver e) (isLowEndDevice e) (targetFPS e)
    (fpsThrottle e) v.

Record host := mkHost {
  effects : list effect;     (* in the order they happened *)
  nextFrame : nat            (* the id the next [requestAnimationFrame] returns *)
}.

(** ** A state-and-exception monad for the methods *)

Inductive result (A : Type) :=
| Returned (a : A)
| Threw (err : error).
Arguments Returned {A} a.
Arguments Threw {A} err.

Definition M (A : Type) : Type := CanvasEngine * host → result A * (CanvasEngine * host).

#[global] Instance M_ret : MRet M := λ A a w, (Returned a, w).
#[global] Instance M_bind : MBind M := λ A B k m w,
  match m w with
  | (Returned a, w') => k a w'
  | (Threw err, w') => (Threw err, w')
  end.

Definition throw {A} (err : error) : M A := λ w, (Threw err, w).
Definition this : M CanvasEngine := λ w, (Returned w.1, w).
Definition assign (f : CanvasEngine → CanvasEngine) : M unit :=
  λ w, (Returned tt, (f w.1, w.2)).
Definition emit (x : effect) : M unit :=
  λ w, (Returned tt, (w.1, mkHost (effects w.2 ++ [x]) (nextFrame w.2))).
Definition requestAnimationFrame : M nat :=
  λ w, (Returned (nextFrame w.2),
        (w.1, mkHost (effects w.2 ++ [RequestAnimationFrame (nextFrame w.2)])
                     (S (nextFrame w.2)))).
Definition when (b : bool) (m : M unit) : M unit := if b then m else mret tt.

(** Calling a hook of a module. *)
Definition call (a : Animation) (h : hook) (context : AnimationContext) : M unit :=
  emit (Call (name a) h context);;
  if raises a h then throw (Module_error h) else mret tt.

(** ** The methods

    [performance.now()] is read from the host: a method that reads the clock
    is given the reading [now] it sees, and [animationLoop] also the
    [timestamp] the host passes to the frame callback. *)

Definition getContext (now : Q) : M AnimationContext :=
  e ← this;
  match ctx e with
  | None => throw Canvas_context_not_initialized
  | Some c =>
    mret (mkContext c (width (canvas e)) (height (canvas e))
            (mul (Finite (now - startTime e)) (speed e))
            (mul (Finite (deltaTime e)) (speed e))
            (fps e) (isPlaying e) (speed e) (params e))
  end.

(** [devicePixelRatio] is [window.devicePixelRatio]; [|| 1] replaces 0. The
    products are assigned to [canvas.width] and [canvas.height], which store
    them as [dimension] says. *)
Definition setupCanvas (devicePixelRatio : Q) : M unit :=
  e ← this;
  let dpr := if Qeq_bool devicePixelRatio 0 then 1 else devicePixelRatio in
  assign (set_canvas
            (mkCanvas (dimension 300 (mul (Finite (rect_width (canvas e))) (Finite dpr)))
                      (dimension 150 (mul (Finite (rect_height (canvas e))) (Finite dpr)))
                      (rect_width (canvas e)) (rect_height (canvas e))
                      (provides_2d (canvas e)) (provides_webgl (canvas e))));;
  when (bool_decide (ctx e = Some ctx2d)) (emit (Scale dpr dpr)).

Definition setupResizeObserver : M unit :=
  assign (set_resizeObserver (Some true));;
  emit Observe.

(** The callback of the resize observer, after the layout box became
    [rw] x [rh]. *)
Definition onResize (rw rh devicePixelRatio now : Q) : M unit :=
  e ← this;
  assign (set_canvas
            (mkCanvas (width (canvas e)) (height (canvas e)) rw rh
                      (provides_2d (canvas e)) (provides_webgl (canvas e))));;
  setupCanvas devicePixelRatio;;
  e ← this;
  match animation e with
  | Some a => context ← getContext now; call a Init context
  | None => mret tt
  end.

Definition rearm : M unit :=
  frame ← requestAnimationFrame;
  assign (set_animationFrameId (Some frame)).

Definition animationLoop (timestamp now : Q) : M unit :=
  e ← this;
  match isPlaying e, animation e with
  | true, Some a =>
    (* FPS throttling for low-end devices *)
    tooSoon ←
      (if Qlt_bool 0 (fpsThrottle e) then
         let elapsed := timestamp - lastFrameTime e in
         if Qlt_bool elapsed (fpsThrottle e) then mret true
         else assign (set_lastFrameTime timestamp);; mret false
       else mret false);
    if tooSoon : bool then rearm
    else
      (* Calculate delta time *)
      e ← this;
      when (Qeq_bool (lastTime e) 0) (assign (set_lastTime timestamp));;
      e ← this;
      assign (set_deltaTime (timestamp - lastTime e));;
      assign (set_lastTime timestamp);;
      (* Calculate FPS *)
      e ← this;
      assign (set_frameCount (frameCount e + 1)%Z);;
      e ← this;
      when (Qle_bool 1000 (timestamp - fpsUpdateTime e))
        (assign (set_fps (Math_round (inject_Z (frameCount e) * 1000
                                      / (timestamp - fpsUpdateTime e))));;
         assign (set_frameCount 0%Z);;
         assign (set_fpsUpdateTime timestamp));;
      context ← getContext now;
      (* Update and render *)
      call a Update context;;
      call a Render context;;
      rearm
  | _, _ => mret tt
  end.

Definition pause : M unit :=
  assign (set_isPlaying false);;
  e ← this;
  match animationFrameId e with
  | Some frame => emit (CancelAnimationFrame frame);; assign (set_animationFrameId None)
  | None => mret tt
  end.

Definition stop : M unit :=
  pause;;
  assign (set_startTime 0);;
  assign (set_lastTime 0);;
  assign (set_deltaTime 0).

Definition play (now : Q) : M unit :=
  e ← this;
  if isPlaying e then mret tt
  else
    assign (set_isPlaying true);;
    assign (set_startTime now);;
    assign (set_lastTime 0);;
    assign (set_frameCount 0%Z);;
    assign (set_fpsUpdateTime now);;
    rearm.

(** [if (this.animation?.cleanup) this.animation.cleanup(this.getContext())] *)
Definition cleanupPrevious (now : Q) : M unit :=
  e ← this;
  match animation e with
  | Some previous =>
    if has_cleanup previous
    then context ← getContext now; call previous Cleanup context
    else mret tt
  | None => mret tt
  end.

Definition loadAnimation (a : Animation) (now : Q) : M unit :=
  stop;;
  cleanupPrevious now;;
  assign (set_animation (Some a));;
  context ← getContext now;
  call a Init context.

Definition restart (now : Q) : M unit :=
  stop;;
  e ← this;
  match animation e with
  | Some a => context ← getContext now; call a Init context;; play now
  | None => mret tt
  end.

Definition setSpeed (s : number) : M unit :=
  assign (set_speed (Math_max (Finite (1 # 4)) (Math_min (Finite 2) s))).

Definition getSpeed : M number := e ← this; mret (speed e).

(** [{ ...this.params, ...params }]: the new values win. *)
Definition setParameters (ps : gmap string pvalue) : M unit :=
  e ← this;
  assign (set_params (ps ∪ params e)).

Definition getParameters : M (gmap string pvalue) := e ← this; mret (params e).
Definition getFPS : M Z := e ← this; mret (fps e).
Definition getTargetFPS : M Z := e ← this; mret (targetFPS e).
Definition isLowEndDeviceDetected : M bool := e ← this; mret (isLowEndDevice e).
Definition isAnimationPlaying : M bool := e ← this; mret (isPlaying e).

Definition destroy (now : Q) : M unit :=
  stop;;
  cleanupPrevious now;;
  e ← this;
  match resizeObserver e with
  | Some _ => emit Disconnect;; assign (set_resizeObserver (Some false))
  | None => mret tt
  end;;
  assign (set_animation None);;
  assign (set_ctx None).

(** The field initialisers of the class. *)
Definition initial (nav : Navigator) (element : HTMLCanvasElement) : CanvasEngine :=
  mkEngine element None None None false 0 0 0 0%Z 0%Z 0 (Finite 1) ∅ None
           (detectLowEndDevice nav) 60%Z 0 0.

Definition constructor (t : contextType) (devicePixelRatio : Q) : M unit :=
  e ← this;
  let got := match t with
             | ctx2d => provides_2d (canvas e)
             | webgl => provides_webgl (canvas e)
             end in
  assign (set_ctx (if got then Some t else None));;
  (if got then mret tt else throw (Failed_to_get_context t));;
  (* Set target FPS based on device capability *)
  (if isLowEndDevice e
   then assign (set_targetFPS 30%Z);; assign (set_fpsThrottle (1000 / 30))
   else assign (set_targetFPS 60%Z);; assign (set_fpsThrottle 0));;
  setupCanvas devicePixelRatio;;
  setupResizeObserver.

(** [new CanvasEngine(canvas, contextType)] *)
Definition new (nav : Navigator) (devicePixelRatio : Q) (element : HTMLCanvasElement)
    (t : contextType) : result unit * (CanvasEngine * host) :=
  constructor t devicePixelRatio (initial nav element, mkHost [] 0).

(** ** Observing a run *)

(** A sequence of frame callbacks, each with the timestamp the host passes
    to it and the reading of [performance.now()] inside it. A callback that
    throws ends the loop: the next one was not requested. *)
Fixpoint callbacks (cbs : list (Q * Q)) : M unit :=
  match cbs with
  | [] => mret tt
  | (timestamp, now) :: cbs' => animationLoop timestamp now;; callbacks cbs'
  end.

(** The callbacks in which the clock reads what the timestamp says: enough
    where the clock reading plays no part. *)
Definition frames (stamps : list Q) : M unit :=
  callbacks ((λ t, (t, t)) <$> stamps).

(** [n] timestamps from [t0] on, [step] apart. *)
Fixpoint spaced (t0 step : Q) (n : nat) : list Q :=
  match n with
  | O => []
  | S n' => t0 :: spaced (t0 + step) step n'
  end.

Definition is_call (h : hook) (x : effect) : bool :=
  match x with
  | Call _ h' _ => bool_decide (h' = h)
  | _ => false
  end.

Definition is_request (x : effect) : bool :=
  match x with RequestAnimationFrame _ => true | _ => false end.

(** How many times a hook was called, and how many frames were requested. *)
Definition calls (h : hook) (w : CanvasEngine * host) : nat :=
  length (filter (λ x, is_call h x = true) (effects w.2)).
Definition requests (w : CanvasEngine * host) : nat :=
  length (filter (λ x, is_request x = true) (effects w.2)).

(** The contexts handed to [update], oldest first. *)
Definition update_contexts (w : CanvasEngine * host) : list AnimationContext :=
  omap (λ x, match x with Call _ Update c => Some c | _ => None end) (effects w.2).

(** ** Notions used to state the properties *)

(** The throttle test of [animationLoop]: throttling is on and the frame
    comes less than [fpsThrottle] after the last accepted one. *)
Definition tooSoon (e : CanvasEngine) (timestamp : Q) : bool :=
  Qlt_bool 0 (fpsThrottle e) && Qlt_bool (timestamp - lastFrameTime e) (fpsThrottle e).

(** The timing fields after an accepted frame, in the order [animationLoop]
    assigns them. *)
Definition timed (timestamp : Q) (e : CanvasEngine) : CanvasEngine :=
  let e1 := if Qlt_bool 0 (fpsThrottle e) then set_lastFrameTime timestamp e else e in
  let e2 := if Qeq_bool (lastTime e1) 0 then set_lastTime timestamp e1 else e1 in
  let e3 := set_lastTime timestamp (set_deltaTime (timestamp - lastTime e2) e2) in
  let e4 := set_frameCount (frameCount e3 + 1)%Z e3 in
  if Qle_bool 1000 (timestamp - fpsUpdateTime e4)
  then set_fpsUpdateTime timestamp
         (set_frameCount 0%Z
            (set_fps (Math_round (inject_Z (frameCount e4) * 1000
                                  / (timestamp - fpsUpdateTime e4))) e4))
  else e4.

(** The context [getContext] builds when the engine holds the context [c]. *)
Definition context_of (now : Q) (e : CanvasEngine) (c : contextType) : AnimationContext :=
  mkContext c (width (canvas e)) (height (canvas e))
            (mul (Finite (now - startTime e)) (speed e))
            (mul (Finite (deltaTime e)) (speed e))
            (fps e) (isPlaying e) (speed e) (params e).

(** The world after [this.animationFrameId = requestAnimationFrame(..)]. *)
Definition rearmed (w : CanvasEngine * host) : CanvasEngine * host :=
  (set_animationFrameId (Some (nextFrame w.2)) w.1,
   mkHost (effects w.2 ++ [RequestAnimationFrame (nextFrame w.2)]) (S (nextFrame w.2))).

Definition logged (x : effect) (w : CanvasEngine * host) : CanvasEngine * host :=
  (w.1, mkHost (effects w.2 ++ [x]) (nextFrame w.2)).

(** The effects of one frame callback. *)
Definition frame_effects (w : CanvasEngine * host) (timestamp now : Q) : list effect :=
  match isPlaying w.1, animation w.1 with
  | true, Some a =>
    if tooSoon w.1 timestamp then [RequestAnimationFrame (nextFrame w.2)]
    else
      match ctx w.1 with
      | None => []
      | Some c =>
        let context := context_of now (timed timestamp w.1) c in
        Call (name a) Update context ::
        (if raises a Update then []
         else Call (name a) Render context ::
              (if raises a Render then [] else [RequestAnimationFrame (nextFrame w.2)]))
      end
  | _, _ => []
  end.

(** A frame is executed (not idle, not dropped by the throttle). *)
Definition executes (e : CanvasEngine) (timestamp : Q) : bool :=
  isPlaying e && match animation e with Some _ => true | None => false end
  && negb (tooSoon e timestamp).

(** A playing engine with a loaded module whose hooks return, holding its
    drawing context. *)
Definition running (a : Animation) (w : CanvasEngine * host) : Prop :=
  isPlaying w.1 = true ∧ animation w.1 = Some a ∧ is_Some (ctx w.1)
  ∧ ∀ h, raises a h = false.

(** ** Sample hosts and modules, for the concrete runs *)

Definition desktop : Navigator :=
  mkNavigator (Some 8%Z) "Mozilla/5.0 (X11; Linux x86_64)" (Some 8).
Definition phone : Navigator :=
  mkNavigator (Some 8%Z) "Mozilla/5.0 (iPhone; CPU iPhone OS 17_0 like Mac OS X)" None.
Definition element : HTMLCanvasElement := mkCanvas 300 150 400 300 true true.
Definition demo : Animation := mkAnimation "demo" true (λ _, false).

(** A new engine on [nav] with [demo] loaded at time 0. *)
Definition loaded (nav : Navigator) : CanvasEngine * host :=
  (loadAnimation demo 0 (new nav 1 element ctx2d).2).2.


(** ** Sessions: the calls an owner and the host make on an engine *)

Inductive method :=
| LoadAnimation (a : Animation) (now : Q)
| Play (now : Q)
| Pause
| Stop
| Restart (now : Q)
| SetSpeed (s : number)
| SetParameters (ps : gmap string pvalue)
| Destroy (now : Q)
| Frame (timestamp now : Q)           (* the host runs the frame callback *)
| Resize (rw rh devicePixelRatio now : Q).   (* ... the resize observer's callback *)

Definition invoke (c : method) : M unit :=
  match c with
  | LoadAnimation a now => loadAnimation a now
  | Play now => play now
  | Pause => pause
  | Stop => stop
  | Restart now => restart now
  | SetSpeed s => setSpeed s
  | SetParameters ps => setParameters ps
  | Destroy now => destroy now
  | Frame timestamp now => animationLoop timestamp now
  | Resize rw rh devicePixelRatio now => onResize rw rh devicePixelRatio now
  end.

(** The calls are made one after the other. A call that throws leaves the
    engine as it was when the exception left it, and the session goes on. *)
Definition session (cs : list method) (w : CanvasEngine * host) : CanvasEngine * host :=
  foldl (λ w c, (invoke c w).2) w cs.

Definition is_hook_call (x : effect) : bool :=
  match x with Call _ _ _ => true | _ => false end.

(** The calls made into animation modules so far. *)
Definition hook_calls (w : CanvasEngine * host) : list effect :=
  filter (λ x, is_hook_call x = true) (effects w.2).

(** The cleanup hook of the loaded module, if it has one, throws. *)
Definition cleanup_raises (e : CanvasEngine) : bool :=
  match animation e with
  | Some previous => has_cleanup previous && raises previous Cleanup
  | None => false
  end.

(** ** [generateThumbnail] (src/lib/canvas/thumbnail-generator.ts)

    A canvas is created and given the size asked for, the engine is built on
    it, the module is loaded, and then, in a [try] block with
    [engine.destroy()] as its [finally]: the engine plays while the capture
    delay runs, is paused, and the canvas is converted to a data URL. *)

(** [quality] and [captureDelay] are handed to the host ([toBlob] and
    [setTimeout]). *)
Record ThumbnailOptions := mkOptions {
  opt_width : option number;
  opt_height : option number;
  opt_quality : option number;
  opt_captureDelay : option number
}.

Definition DEFAULT_WIDTH : number := Finite 400.
Definition DEFAULT_HEIGHT : number := Finite 300.

Inductive rejection :=
| Engine_error (err : error)
| Capture_error.                  (* [canvasToWebP] rejects *)

Inductive thumbnail :=
| Resolved (dataUrl : string)
| Rejected (reason : rejection).

(** [el] is the element [document.createElement('canvas')] returns; [now],
    [started] and [later] are the clock as [loadAnimation], [play] and
    [destroy] read it, [stamps] are the frame callbacks the host runs during
    the capture delay (timestamp and clock reading of each), and [capture]
    is what [canvasToWebP] settles with. *)
Definition generateThumbnail (nav : Navigator) (devicePixelRatio : Q)
    (el : HTMLCanvasElement) (animation : Animation) (options : ThumbnailOptions)
    (now started : Q) (stamps : list (Q * Q)) (later : Q) (capture : thumbnail)
  : thumbnail * (CanvasEngine * host) :=
  let canvas := mkCanvas (dimension 300 (default DEFAULT_WIDTH (opt_width options)))
                         (dimension 150 (default DEFAULT_HEIGHT (opt_height options)))
                         (rect_width el) (rect_height el)
                         (provides_2d el) (provides_webgl el) in
  match new nav devicePixelRatio canvas ctx2d with
  | (Threw err, w) => (Rejected (Engine_error err), w)
  | (Returned _, w) =>
    match loadAnimation animation now w with
    | (Threw err, w1) => (Rejected (Engine_error err), w1)
    | (Returned _, w1) =>
      let w2 := (play started w1).2 in
      let w3 := (callbacks stamps w2).2 in
      let w4 := (pause w3).2 in
      match destroy later w4 with               (* finally *)
      | (Threw err, w5) => (Rejected (Engine_error err), w5)
      | (Returned _, w5) => (capture, w5)
      end
    end
  end.

(** How many times the resize observer was disconnected. *)
Definition is_disconnect (x : effect) : bool :=
  match x with Disconnect => true | _ => false end.
Definition disconnects (w : CanvasEngine * host) : nat :=
  length (filter (λ x, is_disconnect x = true) (effects w.2)).

(** The engine holds a frame request exactly when it is playing. *)
Definition armed (e : CanvasEngine) : Prop :=
  isPlaying e = true ↔ is_Some (animationFrameId e).

(** What a frame callback leaves as it is. *)
Definition kept (w w' : CanvasEngine * host) : Prop :=
  canvas w'.1 = canvas w.1
  ∧ animation w'.1 = animation w.1 ∧ ctx w'.1 = ctx w.1
  ∧ resizeObserver w'.1 = resizeObserver w.1
  ∧ calls Init w' = calls Init w ∧ calls Cleanup w' = calls Cleanup w
  ∧ disconnects w' = disconnects w.

End Engine.

(* ===================================================================== *)
(** * The performance monitor (src/lib/utils/performance-monitor.ts) *)
(* ===================================================================== *)

Module Monitor.
Import Number.

(** FPS readings are what the callers pass: any [number]. *)
Record PerformanceMonitor := mkMonitor {
  fpsHistory : list number;
  maxHistoryLength : nat
}.

(** [new PerformanceMonitor()]: the last 60 readings are stored. *)
Definition new : PerformanceMonitor := mkMonitor [] 60.

(** [push], then [shift] when the history is longer than the maximum. *)
Definition recordFPS (fps : number) (m : PerformanceMonitor) : PerformanceMonitor :=
  let pushed := fpsHistory m ++ [fps] in
  mkMonitor (if decide (maxHistoryLength m < length pushed) then tail pushed else pushed)
            (maxHistoryLength m).

(** [reduce((acc, fps) => acc + fps, 0)] *)
Definition sum (l : list number) : number := foldl add (Finite 0) l.

Definition getAverageFPS (m : PerformanceMonitor) : number :=
  match fpsHistory m with
  | [] => Finite 0
  | _ => Math_round (div (sum (fpsHistory m))
                         (of_Z (Z.of_nat (length (fpsHistory m)))))
  end.

Definition reset (m : PerformanceMonitor) : PerformanceMonitor :=
  mkMonitor [] (maxHistoryLength m).

(** The readings recorded one after the other. *)
Definition record_all (readings : list number) (m : PerformanceMonitor)
  : PerformanceMonitor :=
  foldl (λ m fps, recordFPS fps m) m readings.

End Monitor.

(* ===================================================================== *)
(** * Properties                                                           *)
(* ===================================================================== *)

(** ** Lists *)

Module ListFacts.

Lemma filter_none {A} (P : A → Prop) `{∀ x, Decision (P x)} (l : list A) :
  (∀ q y, l !! q = Some y → ¬ P y) → filter P l = [].
Proof.
  induction l as [|x l IH]; intros Hno; [done|].
  rewrite filter_cons_False; [|by apply (Hno 0)].
  apply IH. intros q y. apply (Hno (S q)).
Qed.

(** A list in which at most one position satisfies [P] has at most one
    element left by [filter P]. *)
Lemma filter_at_most_one {A} (P : A → Prop) `{∀ x, Decision (P x)} (l : list A) :
  (∀ p q x y, l !! p = Some x → l !! q = Some y → P x → P y → p = q) →
  length (filter P l) ≤ 1.
Proof.
  induction l as [|x l IH]; intros Huniq; [cbn; lia|].
  rewrite filter_cons. case_decide as Hx.
  - assert (filter P l = []) as ->; [|cbn; lia].
    apply filter_none. intros q y Hq Hy.
    by specialize (Huniq 0 (S q) x y eq_refl Hq Hx Hy).
  - apply IH. intros p q x' y' Hp Hq Hx' Hy'.
    by specialize (Huniq (S p) (S q) x' y' Hp Hq Hx' Hy') as [= ->].
Qed.

Lemma filter_some {A} (P : A → Prop) `{∀ x, Decision (P x)} (l : list A) p x :
  l !! p = Some x → P x → 1 ≤ length (filter P l).
Proof.
  intros Hp Hx. assert (x ∈ filter P l) as Hin.
  { apply list_elem_of_filter. split; [done|]. by eapply list_elem_of_lookup_2. }
  destruct (filter P l); [by apply elem_of_nil in Hin|cbn; lia].
Qed.

Lemma filter_insert_same {A} (P : A → Prop) `{∀ x, Decision (P x)} (l : list A) p x y :
  l !! p = Some x → (P x ↔ P y) →
  length (filter P (<[p := y]> l)) = length (filter P l).
Proof.
  revert p. induction l as [|z l IH]; intros [|p] Hp Hxy; try done.
  - injection Hp as ->. change (<[0:=y]> (x :: l)) with (y :: l).
    rewrite !filter_cons.
    destruct (decide (P x)), (decide (P y)); cbn; tauto.
  - change (<[S p:=y]> (z :: l)) with (z :: <[p:=y]> l).
    rewrite !filter_cons. specialize (IH p Hp Hxy).
    destruct (decide (P z)); cbn; by rewrite IH.
Qed.

Lemma not_longer_than_itself {A} (l : list A) x rest : l ≠ l ++ x :: rest.
Proof.
  intros H. apply (f_equal length) in H. rewrite length_app in H.
  cbn [length] in H. lia.
Qed.

End ListFacts.

(** ** The registry *)

Module RegistryFacts.
Import ListFacts Registry.

Lemma coherent_empty : coherent empty.
Proof. split; intros i p; cbn; rewrite lookup_empty; discriminate. Qed.

Lemma tracked_empty : tracked empty.
Proof. intros p i l; cbn; discriminate. Qed.

Lemma register_coherent m l r : coherent r → coherent (register m l r).
Proof.
  intros [H1 H2 H3]; split; cbn; eauto.
  intros i p Hp. destruct (decide (id m = i)) as [->|Hne].
  - rewrite lookup_insert_eq; eauto.
  - rewrite lookup_insert_ne; eauto.
Qed.

Lemma getById_coherent i r : coherent r → coherent (getById i r).2.
Proof.
  intros [H1 H2 H3]. unfold getById.
  destruct (entries r !! i) as [e|] eqn:He; [|by split].
  destruct (loadedCache r !! i) as [c|] eqn:Hc; [by split|].
  destruct (loadingPromises r !! i) as [q|] eqn:Hq; [by split|].
  split; cbn; intros j p; rewrite lookup_insert; case_decide as Hij.
  - intros [= <-]. subst j. exists (loader e).
    by rewrite lookup_app_r, Nat.sub_diag.
  - intros Hp. destruct (H1 _ _ Hp) as [l Hl]. exists l.
    rewrite lookup_app_l; [done|]. by eapply lookup_lt_Some.
  - by subst j.
  - eauto.
  - subst j. by rewrite He.
  - eauto.
Qed.

Lemma settle_coherent p v r :
  coherent r →
  coherent (match v with Some a => loader_fulfils p a r | None => loader_rejects p r end).
Proof.
  intros [H1 H2 H3].
  assert (∀ i l st c con,
    invocations r !! p = Some (mkInvocation i l Pending) →
    (∀ j, j ≠ i → c !! j = loadedCache r !! j) →
    coherent (mkRegistry (entries r) c (delete i (loadingPromises r))
                (<[p := mkInvocation i l (Fulfilled st)]> (invocations r)) con)) as Hgen.
  { intros i l st c con Hp Hc. split; cbn; intros j q; rewrite lookup_delete;
      case_decide as Hij; try discriminate; intros Hq.
    - destruct (H1 _ _ Hq) as [l' Hl']. exists l'.
      rewrite list_lookup_insert_ne; [done|]. intros <-. congruence.
    - rewrite Hc; eauto.
    - eauto. }
  destruct v as [a|]; unfold loader_fulfils, loader_rejects;
    destruct (invocations r !! p) as [[i l [|st]]|] eqn:Hp; try by split.
  - apply Hgen; [done|]. intros j Hj. by rewrite lookup_insert_ne.
  - by apply Hgen.
Qed.

Lemma clearCache_coherent r : coherent (clearCache r).
Proof. split; cbn; intros i p; rewrite lookup_empty; discriminate. Qed.

Lemma step_coherent r e : coherent r → coherent (step r e).1.
Proof.
  intros H. destruct e as [m l|i|p a|p|]; cbn.
  - by apply register_coherent.
  - by apply getById_coherent.
  - by apply (settle_coherent p (Some a)).
  - by apply (settle_coherent p None).
  - apply clearCache_coherent.
Qed.

Lemma run_cons r e tr :
  run r (e :: tr) = ((run (step r e).1 tr).1, (step r e).2 ++ (run (step r e).1 tr).2).
Proof. cbn. destruct (step r e) as [r1 o1]. cbn. by destruct (run r1 tr). Qed.

Lemma run_app r tr1 tr2 :
  run r (tr1 ++ tr2) =
  ((run (run r tr1).1 tr2).1, (run r tr1).2 ++ (run (run r tr1).1 tr2).2).
Proof.
  revert r. induction tr1 as [|e tr1 IH]; intros r.
  - cbn. by destruct (run r tr2).
  - rewrite <- app_comm_cons, !run_cons, IH. cbn. by rewrite app_assoc.
Qed.

Lemma run_coherent tr r : coherent r → coherent (run r tr).1.
Proof.
  revert r. induction tr as [|e tr IH]; intros r H; [done|].
  rewrite run_cons. cbn. by apply IH, step_coherent.
Qed.

Lemma step_invoked_registered r e :
  invoked_registered r → invoked_registered (step r e).1.
Proof.
  intros H. destruct e as [m l|i|p a|p|]; cbn.
  - intros q v Hq. cbn in *. destruct (decide (id m = inv_id v)) as [Heq|Hne].
    + rewrite <- Heq, lookup_insert_eq. by eexists.
    + rewrite lookup_insert_ne by done. by eapply H.
  - unfold getById. destruct (entries r !! i) as [e|] eqn:He; [|done].
    destruct (loadedCache r !! i); [done|]. destruct (loadingPromises r !! i); [done|].
    intros q v Hq. cbn in *.
    destruct (decide (q < length (invocations r))) as [Hlt|Hge].
    + rewrite lookup_app_l in Hq by done. by eapply H.
    + rewrite lookup_app_r in Hq by lia.
      destruct (q - length (invocations r)) as [|k]; [|by destruct k].
      injection Hq as <-. cbn. by rewrite He.
  - unfold loader_fulfils.
    destruct (invocations r !! p) as [[i l [|st]]|] eqn:Hp; try done.
    intros q v Hq. cbn in *. destruct (decide (q = p)) as [->|Hne].
    + rewrite list_lookup_insert_eq in Hq by by eapply lookup_lt_Some.
      injection Hq as <-. apply (H p _ Hp).
    + rewrite list_lookup_insert_ne in Hq by done. by eapply H.
  - unfold loader_rejects.
    destruct (invocations r !! p) as [[i l [|st]]|] eqn:Hp; try done.
    intros q v Hq. cbn in *. destruct (decide (q = p)) as [->|Hne].
    + rewrite list_lookup_insert_eq in Hq by by eapply lookup_lt_Some.
      injection Hq as <-. apply (H p _ Hp).
    + rewrite list_lookup_insert_ne in Hq by done. by eapply H.
  - done.
Qed.

Lemma run_invoked_registered tr r :
  invoked_registered r → invoked_registered (run r tr).1.
Proof.
  revert r. induction tr as [|e tr IH]; intros r H; [done|].
  rewrite run_cons. cbn. by apply IH, step_invoked_registered.
Qed.

Lemma register_tracked m l r : tracked r → tracked (register m l r).
Proof. intros H p i l'; cbn; apply H. Qed.

Lemma getById_tracked i r : tracked r → tracked (getById i r).2.
Proof.
  intros H. unfold getById.
  destruct (entries r !! i) as [e|] eqn:He; [|done].
  destruct (loadedCache r !! i) as [c|] eqn:Hc; [done|].
  destruct (loadingPromises r !! i) as [q|] eqn:Hq; [done|].
  intros p j l; cbn. intros Hp.
  destruct (decide (p < length (invocations r))) as [Hlt|Hge].
  - rewrite lookup_app_l in Hp by done. pose proof (H _ _ _ Hp) as Hj.
    rewrite lookup_insert_ne; [done|]. intros <-. congruence.
  - rewrite lookup_app_r in Hp by lia.
    destruct (p - length (invocations r)) as [|k] eqn:Hk; [|by destruct k].
    injection Hp as <- <-. replace p with (length (invocations r)) by lia.
    by rewrite lookup_insert_eq.
Qed.

Lemma settle_tracked p v r :
  tracked r →
  tracked (match v with Some a => loader_fulfils p a r | None => loader_rejects p r end).
Proof.
  intros H.
  assert (∀ i l st c con,
    invocations r !! p = Some (mkInvocation i l Pending) →
    tracked (mkRegistry (entries r) c (delete i (loadingPromises r))
               (<[p := mkInvocation i l (Fulfilled st)]> (invocations r)) con)) as Hgen.
  { intros i l st c con Hp q j l'; cbn. intros Hq.
    destruct (decide (q = p)) as [->|Hne].
    - rewrite list_lookup_insert_eq in Hq; [discriminate|]. by eapply lookup_lt_Some.
    - rewrite list_lookup_insert_ne in Hq by done.
      pose proof (H _ _ _ Hq) as Hj. pose proof (H _ _ _ Hp) as Hi.
      rewrite lookup_delete_ne; [done|]. intros <-. congruence. }
  destruct v as [a|]; unfold loader_fulfils, loader_rejects;
    destruct (invocations r !! p) as [[i l [|st]]|] eqn:Hp; try done; by apply Hgen.
Qed.

Lemma step_tracked r e : is_clear e = false → tracked r → tracked (step r e).1.
Proof.
  intros Hc H. destruct e as [m l|i|p a|p|]; cbn; try done.
  - by apply getById_tracked.
  - by apply (settle_tracked p (Some a)).
  - by apply (settle_tracked p None).
Qed.

Lemma clearCache_tracked r : idle r = true → tracked (clearCache r).
Proof.
  intros Hidle p i l Hp. cbn in Hp. unfold idle in Hidle.
  rewrite forallb_forall in Hidle.
  specialize (Hidle _ (proj1 (list_elem_of_In _ _) (list_elem_of_lookup_2 _ _ _ Hp))).
  discriminate Hidle.
Qed.

Lemma run_tracked_idle_clears tr r :
  clears_when_idle r tr = true → tracked r → tracked (run r tr).1.
Proof.
  revert r. induction tr as [|e tr IH]; intros r Hc H; [done|].
  cbn [clears_when_idle] in Hc. apply andb_true_iff in Hc as [Hc1 Hc2].
  rewrite run_cons. cbn. apply IH; [done|].
  destruct (is_clear e) eqn:He.
  - destruct e; try discriminate He. by apply clearCache_tracked.
  - by apply step_tracked.
Qed.

Lemma run_tracked tr r :
  no_clear tr = true → tracked r → tracked (run r tr).1.
Proof.
  revert r. induction tr as [|e tr IH]; intros r Hc H; [done|].
  cbn in Hc. apply andb_true_iff in Hc as [Hc1 Hc2]. rewrite run_cons. cbn.
  apply IH; [done|]. apply step_tracked; [|done]. by destruct (is_clear e).
Qed.

Lemma is_pending_for_spec i v :
  is_pending_for i v = true ↔ ∃ l, v = mkInvocation i l Pending.
Proof.
  unfold is_pending_for. destruct v as [j l [|st]]; cbn; split.
  - intros Hb. apply andb_true_iff in Hb as [Hj _].
    apply bool_decide_eq_true in Hj as ->. by exists l.
  - intros [l' [= -> ->]]. by rewrite bool_decide_eq_true_2.
  - intros Hb. apply andb_true_iff in Hb as [_ Hb]. discriminate.
  - intros [l' [=]].
Qed.

Lemma tracked_in_flight r i : tracked r → in_flight r i ≤ 1.
Proof.
  intros H. apply filter_at_most_one. intros p q x y Hp Hq Hx Hy.
  apply is_pending_for_spec in Hx as [lx ->]. apply is_pending_for_spec in Hy as [ly ->].
  pose proof (H _ _ _ Hp). pose proof (H _ _ _ Hq). congruence.
Qed.

Lemma settle_loader_calls p v r i :
  loader_calls (match v with Some a => loader_fulfils p a r | None => loader_rejects p r end) i
  = loader_calls r i.
Proof.
  unfold loader_calls.
  destruct v as [a|]; unfold loader_fulfils, loader_rejects;
    destruct (invocations r !! p) as [[j l [|st]]|] eqn:Hp; try done; cbn;
    by apply (filter_insert_same (λ v, inv_id v = i)) with (x := mkInvocation j l Pending).
Qed.

(** While a load [p] of id [i] is in flight and neither settles nor is
    dropped by [clearCache], every [getById i] is handed [p] and no loader
    is invoked for [i]. *)
Lemma step_in_flight r e i p :
  coherent r → tracked r → loadingPromises r !! i = Some p →
  is_clear e = false → settles p e = false →
  loadingPromises (step r e).1 !! i = Some p
  ∧ loader_calls (step r e).1 i = loader_calls r i
  ∧ ∀ res, (i, res) ∈ (step r e).2 → res = Chained p.
Proof.
  intros Hcoh Htr Hm Hclear Hsettle.
  destruct e as [m l|j|q a|q|]; cbn in *; try done.
  - split_and!; [done..|]. intros res Hin. by apply elem_of_nil in Hin.
  - destruct (decide (j = i)) as [->|Hne].
    + unfold getById. destruct (coh_registered _ Hcoh _ _ Hm) as [e ->].
      rewrite (coh_uncached _ Hcoh _ _ Hm), Hm. cbn. split_and!; [done..|].
      intros res Hin. apply list_elem_of_singleton in Hin. congruence.
    + assert (loadingPromises (getById j r).2 !! i = Some p
              ∧ loader_calls (getById j r).2 i = loader_calls r i) as [H1 H2].
      { unfold getById. destruct (entries r !! j) as [e|]; [|done].
        destruct (loadedCache r !! j); [done|].
        destruct (loadingPromises r !! j); [done|]. cbn. split.
        - by rewrite lookup_insert_ne.
        - unfold loader_calls. cbn. rewrite filter_app, length_app.
          rewrite filter_cons_False; [cbn; lia|]. cbn. congruence. }
      split_and!; [done..|].
      intros res Hin. apply list_elem_of_singleton in Hin. congruence.
  - apply bool_decide_eq_false in Hsettle. split_and!.
    + unfold loader_fulfils. destruct (invocations r !! q) as [[j l [|st]]|] eqn:Hq; try done.
      cbn. rewrite lookup_delete_ne; [done|]. intros ->.
      pose proof (Htr _ _ _ Hq). congruence.
    + apply (settle_loader_calls q (Some a)).
    + intros res Hin. by apply elem_of_nil in Hin.
  - apply bool_decide_eq_false in Hsettle. split_and!.
    + unfold loader_rejects. destruct (invocations r !! q) as [[j l [|st]]|] eqn:Hq; try done.
      cbn. rewrite lookup_delete_ne; [done|]. intros ->.
      pose proof (Htr _ _ _ Hq). congruence.
    + apply (settle_loader_calls q None).
    + intros res Hin. by apply elem_of_nil in Hin.
Qed.

Lemma run_in_flight tr r i p :
  coherent r → tracked r → loadingPromises r !! i = Some p →
  no_clear tr = true → no_settle p tr = true →
  loadingPromises (run r tr).1 !! i = Some p
  ∧ loader_calls (run r tr).1 i = loader_calls r i
  ∧ ∀ res, (i, res) ∈ (run r tr).2 → res = Chained p.
Proof.
  revert r. induction tr as [|e tr IH]; intros r Hcoh Htr Hm Hc Hs.
  - cbn. split_and!; [done..|]. intros res Hin. by apply elem_of_nil in Hin.
  - cbn in Hc, Hs. apply andb_true_iff in Hc as [Hc1 Hc2].
    apply andb_true_iff in Hs as [Hs1 Hs2].
    apply negb_true_iff in Hc1, Hs1.
    destruct (step_in_flight r e i p) as (H1 & H2 & H3); try done.
    destruct (IH (step r e).1) as (H4 & H5 & H6); try done.
    { by apply step_coherent. } { by apply step_tracked. }
    rewrite run_cons. cbn. split_and!; [done|congruence|].
    intros res Hin. apply elem_of_app in Hin as [Hin|Hin]; eauto.
Qed.

Lemma step_entries r e :
  entries (step r e).1 =
  match e with Register m l => <[id m := mkEntry m l]> (entries r) | _ => entries r end.
Proof.
  destruct e as [m l|j|q a|q|]; cbn; try done.
  - unfold getById. by repeat case_match.
  - unfold loader_fulfils. by repeat case_match.
  - unfold loader_rejects. by repeat case_match.
Qed.

Lemma never_registers_entries tr r i :
  never_registers i tr = true → entries r !! i = None → entries (run r tr).1 !! i = None.
Proof.
  revert r. induction tr as [|e tr IH]; intros r Hn Hr; [done|].
  cbn in Hn. apply andb_true_iff in Hn as [Hn1 Hn2]. rewrite run_cons. cbn.
  apply IH; [done|]. rewrite step_entries. destruct e as [m l|j|q a|q|]; try done.
  apply negb_true_iff, bool_decide_eq_false in Hn1. by rewrite lookup_insert_ne.
Qed.

(** ** The claims about loading *)

(** C1, as stated, fails: [clearCache] drops the in-flight marker of a load
    that has not settled, so the next [getById] of that id starts a second
    loader invocation while the first is still in flight, and the two callers
    hold different promises (and receive different module references when the
    two invocations fulfil with different objects). *)
Lemma clearCache_allows_two_loads_in_flight :
  in_flight (run empty trace_clear_in_flight).1 "x" = 2
  ∧ loader_calls (run empty trace_clear_in_flight).1 "x" = 2
  ∧ (run empty trace_clear_in_flight).2 = [("x", Chained 0); ("x", Chained 1)]
  ∧ received (loader_fulfils 1 42 (loader_fulfils 0 41 (run empty trace_clear_in_flight).1))
             (Chained 0) = Some (Some 41)
  ∧ received (loader_fulfils 1 42 (loader_fulfils 0 41 (run empty trace_clear_in_flight).1))
             (Chained 1) = Some (Some 42).
Proof. vm_compute. repeat split. Qed.

(** C1, amended: in every execution in which [clearCache] is not called
    while a load is in flight, at most one loader invocation per id is in
    flight at any time; and when [getById i] starts a load [p], every
    [getById i] issued before [p] settles, however interleaved with other
    registry activity, is handed the same promise [p], the loader of [i] is
    invoked exactly once, and once [p] fulfils with a module every one of
    these callers receives that same module reference. *)
Theorem single_flight_unless_cleared_in_flight :
  (∀ tr i, clears_when_idle empty tr = true → in_flight (run empty tr).1 i ≤ 1)
  ∧
  (∀ tr1 tr2 i a,
     clears_when_idle empty tr1 = true → no_clear tr2 = true →
     is_Some (entries (run empty tr1).1 !! i) →
     loadedCache (run empty tr1).1 !! i = None →
     loadingPromises (run empty tr1).1 !! i = None →
     no_settle (length (invocations (run empty tr1).1)) tr2 = true →
     loader_calls (run (run empty tr1).1 (GetById i :: tr2)).1 i
       = S (loader_calls (run empty tr1).1 i)
     ∧ in_flight (run (run empty tr1).1 (GetById i :: tr2)).1 i = 1
     ∧ ∀ res, (i, res) ∈ (run (run empty tr1).1 (GetById i :: tr2)).2 →
         res = Chained (length (invocations (run empty tr1).1))
         ∧ received (loader_fulfils (length (invocations (run empty tr1).1)) a
                       (run (run empty tr1).1 (GetById i :: tr2)).1) res
           = Some (Some a)).
Proof.
  split.
  - intros tr i Hc. apply tracked_in_flight, run_tracked_idle_clears; [done|].
    apply tracked_empty.
  - intros tr1 tr2 i a Hc1 Hc2 [e He] Hcache Hload Hs.
    set (r1 := (run empty tr1).1) in *. set (p := length (invocations r1)) in *.
    assert (coherent r1) as Hcoh1 by apply run_coherent, coherent_empty.
    assert (tracked r1) as Htr1
      by (apply run_tracked_idle_clears; [done|apply tracked_empty]).
    assert (step r1 (GetById i) =
            (mkRegistry (entries r1) (loadedCache r1) (<[i := p]> (loadingPromises r1))
               (invocations r1 ++ [mkInvocation i (loader e) Pending]) (console r1),
             [(i, Chained p)])) as Hstep.
    { cbn. unfold getById. by rewrite He, Hcache, Hload. }
    pose proof (step_coherent r1 (GetById i) Hcoh1) as Hcoh2.
    pose proof (step_tracked r1 (GetById i) eq_refl Htr1) as Htr2.
    rewrite run_cons. rewrite Hstep in *. cbn [fst snd] in *.
    set (r2 := mkRegistry _ _ _ _ _) in *.
    destruct (run_in_flight tr2 r2 i p) as (Hm & Hcalls & Houts); try done.
    { subst r2. cbn. by rewrite lookup_insert_eq. }
    assert (coherent (run r2 tr2).1) as Hcoh3 by by apply run_coherent.
    assert (tracked (run r2 tr2).1) as Htr3 by by apply run_tracked.
    destruct (coh_marker _ Hcoh3 _ _ Hm) as [l Hl].
    split_and!.
    + rewrite Hcalls. subst r2. unfold loader_calls. cbn.
      rewrite filter_app, length_app, filter_cons_True by done. cbn. lia.
    + apply Nat.le_antisymm; [by apply tracked_in_flight|].
      apply (filter_some _ _ p (mkInvocation i l Pending)); [done|].
      apply is_pending_for_spec. by exists l.
    + intros res Hin.
      assert (res = Chained p) as ->.
      { apply elem_of_cons in Hin as [[= ->]|Hin]; [done|]. by apply Houts. }
      split; [done|]. unfold received, loader_fulfils. rewrite Hl. cbn.
      rewrite list_lookup_insert_eq; [done|]. by eapply lookup_lt_Some.
Qed.

Lemma single_flight_unless_cleared_in_flight_witness :
  in_flight (run empty [Register (sample_metadata "x") 7; ClearCache;
                        GetById "x"; GetById "x"]).1 "x" ≤ 1
  ∧ loader_calls (run (run empty [Register (sample_metadata "x") 7;
                                   Register (sample_metadata "y") 8]).1
                      [GetById "x"; GetById "x"; GetById "y"; GetById "x"]).1 "x" = 1
  ∧ ∀ res, ("x", res) ∈
       (run (run empty [Register (sample_metadata "x") 7;
                        Register (sample_metadata "y") 8]).1
            [GetById "x"; GetById "x"; GetById "y"; GetById "x"]).2 →
      res = Chained 0.
Proof.
  split; [|split].
  - apply (proj1 single_flight_unless_cleared_in_flight). reflexivity.
  - apply (proj2 single_flight_unless_cleared_in_flight
             [Register (sample_metadata "x") 7; Register (sample_metadata "y") 8]
             [GetById "x"; GetById "y"; GetById "x"] "x" 41);
      first [reflexivity | by eexists].
  - intros res Hin.
    apply (proj2 single_flight_unless_cleared_in_flight
             [Register (sample_metadata "x") 7; Register (sample_metadata "y") 8]
             [GetById "x"; GetById "y"; GetById "x"] "x" 41);
      first [reflexivity | by eexists | exact Hin].
Defined.

(** C3: in every execution, when a pending loader invocation [p] of id [i]
    rejects, the callers awaiting [p] receive [null] after the error is
    logged, the load cache is exactly what it was (the failure is not
    stored) and the in-flight marker of [i] is gone. The next [getById i]
    then invokes the registered loader again, on a fresh promise, whenever
    the cache holds no module for [i]: that is always so when [p] is the load
    the in-flight map named for [i]. Only if [clearCache] dropped [p] in
    flight and another invocation has loaded the module since is the next
    [getById i] answered from the cache, with that module: a retry is never
    answered with the failure. *)
Theorem failed_load_is_retried tr i l p r :
  (run empty tr).1 = r →
  invocations r !! p = Some (mkInvocation i l Pending) →
  received (loader_rejects p r) (Chained p) = Some None
  ∧ console (loader_rejects p r) = console r ++ [Error_failed_to_load i]
  ∧ loadedCache (loader_rejects p r) = loadedCache r
  ∧ loadingPromises (loader_rejects p r) !! i = None
  ∧ (loadingPromises r !! i = Some p → loadedCache r !! i = None)
  ∧ ∃ e, entries (loader_rejects p r) !! i = Some e
      ∧ match loadedCache r !! i with
        | None =>
          (getById i (loader_rejects p r)).1
            = Chained (length (invocations (loader_rejects p r)))
          ∧ invocations (getById i (loader_rejects p r)).2
            = invocations (loader_rejects p r) ++ [mkInvocation i (loader e) Pending]
          ∧ loader_calls (getById i (loader_rejects p r)).2 i = S (loader_calls r i)
          ∧ in_flight (getById i (loader_rejects p r)).2 i
            = S (in_flight (loader_rejects p r) i)
        | Some a =>
          getById i (loader_rejects p r) = (Immediate (Some a), loader_rejects p r)
        end.
Proof.
  intros <- Hl. set (r := (run empty tr).1) in *.
  assert (coherent r) as Hcoh by apply run_coherent, coherent_empty.
  assert (invoked_registered r) as Hreg by by apply run_invoked_registered.
  destruct (Hreg p _ Hl) as [e He]. cbn in He.
  pose proof (settle_loader_calls p None r i) as Hcalls.
  unfold loader_rejects in *. rewrite Hl in *. cbn. split_and!; try done.
  - rewrite list_lookup_insert_eq; [done|]. by eapply lookup_lt_Some.
  - by rewrite lookup_delete_eq.
  - apply (coh_uncached _ Hcoh).
  - exists e. split; [done|]. unfold getById. cbn. rewrite He.
    destruct (loadedCache r !! i) as [a|] eqn:Hc; [done|].
    rewrite lookup_delete_eq. cbn. split_and!; try done.
    + rewrite <- Hcalls. unfold loader_calls. cbn.
      rewrite filter_app, length_app, filter_cons_True by done. cbn. lia.
    + unfold in_flight. cbn. rewrite filter_app, length_app, filter_cons_True; [cbn; lia|].
      apply is_pending_for_spec. by eexists.
Qed.

Lemma failed_load_is_retried_witness :
  received (loader_rejects 0 (run empty [Register (sample_metadata "x") 7; GetById "x"]).1)
           (Chained 0) = Some None
  ∧ (getById "x"
       (loader_rejects 0 (run empty [Register (sample_metadata "x") 7; GetById "x"]).1)).1
    = Chained 1.
Proof.
  pose proof (failed_load_is_retried
                [Register (sample_metadata "x") 7; GetById "x"] "x" 7 0 _ eq_refl eq_refl)
    as (H1 & _ & _ & _ & _ & e & _ & H2 & _).
  split; [exact H1 | exact H2].
Defined.

(** C10: [getById] of an id that was never registered resolves to [null] at
    once and leaves the registry as it was: no loader is invoked, and the
    load cache and the in-flight map are unchanged. *)
Theorem getById_unregistered_is_null tr i r :
  (run empty tr).1 = r →
  never_registers i tr = true →
  getById i r = (Immediate None, r)
  ∧ received r (getById i r).1 = Some None
  ∧ invocations (getById i r).2 = invocations r
  ∧ loadedCache (getById i r).2 = loadedCache r
  ∧ loadingPromises (getById i r).2 = loadingPromises r.
Proof.
  intros <- Hn.
  assert (entries (run empty tr).1 !! i = None) as He
    by by apply never_registers_entries.
  unfold getById. by rewrite He.
Qed.

Lemma getById_unregistered_is_null_witness :
  getById "ghost" (run empty [Register (sample_metadata "x") 7; GetById "x"]).1
  = (Immediate None, (run empty [Register (sample_metadata "x") 7; GetById "x"]).1).
Proof.
  exact (proj1 (getById_unregistered_is_null
                  [Register (sample_metadata "x") 7; GetById "x"] "ghost" _ eq_refl eq_refl)).
Defined.

End RegistryFacts.

(** ** [sort] *)

Module RegistrySortFacts.
Import ListFacts RegistrySort.

#[local] Open Scope Z_scope.

(** ** Consequences of consistency *)

Section order.
Context {A : Type} (cmp : A → A → Z) (S : A → Prop) (Hc : consistent cmp S).

Lemma lt_gt a b : S a → S b → cmp a b < 0 → cmp b a > 0.
Proof.
  intros Ha Hb Hlt. destruct (Z.lt_trichotomy (cmp b a) 0) as [H|[H|H]]; [..|lia].
  - pose proof (cmp_trans_lt _ _ Hc a b a Ha Hb Ha Hlt H).
    pose proof (cmp_refl _ _ Hc a Ha). lia.
  - pose proof (cmp_sym _ _ Hc b a Hb Ha H). lia.
Qed.

Lemma gt_lt a b : S a → S b → cmp a b > 0 → cmp b a < 0.
Proof.
  intros Ha Hb Hgt. destruct (Z.lt_trichotomy (cmp b a) 0) as [H|[H|H]]; [done|..].
  - pose proof (cmp_sym _ _ Hc b a Hb Ha H). lia.
  - pose proof (cmp_trans_gt _ _ Hc a b a Ha Hb Ha Hgt ltac:(lia)).
    pose proof (cmp_refl _ _ Hc a Ha). lia.
Qed.

Lemma ge_le a b : S a → S b → 0 ≤ cmp a b → cmp b a ≤ 0.
Proof.
  intros Ha Hb Hge. destruct (decide (cmp a b = 0)) as [H|H].
  - pose proof (cmp_sym _ _ Hc a b Ha Hb H). lia.
  - pose proof (gt_lt a b Ha Hb ltac:(lia)). lia.
Qed.

Lemma lt_eq_lt a b c : S a → S b → S c → cmp a b < 0 → cmp b c = 0 → cmp a c < 0.
Proof.
  intros Ha Hb Hc' Hab Hbc.
  destruct (Z.lt_trichotomy (cmp a c) 0) as [H|[H|H]]; [done|..].
  - pose proof (cmp_sym _ _ Hc a c Ha Hc' H) as Hca.
    pose proof (cmp_trans_eq _ _ Hc b c a Hb Hc' Ha Hbc Hca) as Hba.
    pose proof (cmp_sym _ _ Hc b a Hb Ha Hba). lia.
  - pose proof (lt_gt a b Ha Hb Hab) as Hba.
    pose proof (cmp_trans_gt _ _ Hc b a c Hb Ha Hc' Hba ltac:(lia)). lia.
Qed.

Lemma eq_lt_lt a b c : S a → S b → S c → cmp a b = 0 → cmp b c < 0 → cmp a c < 0.
Proof.
  intros Ha Hb Hc' Hab Hbc.
  destruct (Z.lt_trichotomy (cmp a c) 0) as [H|[H|H]]; [done|..].
  - pose proof (cmp_sym _ _ Hc a b Ha Hb Hab) as Hba.
    pose proof (cmp_trans_eq _ _ Hc b a c Hb Ha Hc' Hba H). lia.
  - pose proof (gt_lt a c Ha Hc' ltac:(lia)) as Hca.
    pose proof (cmp_trans_lt _ _ Hc b c a Hb Hc' Ha Hbc Hca) as Hba.
    pose proof (cmp_sym _ _ Hc a b Ha Hb Hab). lia.
Qed.

Lemma lt_le_lt a b c : S a → S b → S c → cmp a b < 0 → cmp b c ≤ 0 → cmp a c < 0.
Proof.
  intros Ha Hb Hc' Hab Hbc. destruct (decide (cmp b c = 0)) as [H|H].
  - by apply (lt_eq_lt a b c).
  - apply (cmp_trans_lt _ _ Hc a b c); [done..|lia].
Qed.

Lemma le_le_le a b c : S a → S b → S c → cmp a b ≤ 0 → cmp b c ≤ 0 → cmp a c ≤ 0.
Proof.
  intros Ha Hb Hc' Hab Hbc. destruct (decide (cmp a b = 0)) as [H|H].
  - destruct (decide (cmp b c = 0)) as [H'|H'].
    + pose proof (cmp_trans_eq _ _ Hc a b c Ha Hb Hc' H H'). lia.
    + pose proof (eq_lt_lt a b c Ha Hb Hc' H ltac:(lia)). lia.
  - pose proof (lt_le_lt a b c Ha Hb Hc' ltac:(lia) Hbc). lia.
Qed.

(** ** Linear insertion, the yardstick for binary insertion *)

Fixpoint insert (x : A) (prefix : list A) : list A :=
  match prefix with
  | [] => [x]
  | y :: ys => if decide (cmp x y < 0) then x :: y :: ys else y :: insert x ys
  end.

Lemma insert_permutation x prefix : insert x prefix ≡ₚ x :: prefix.
Proof.
  induction prefix as [|y ys IH]; [done|]. cbn. case_decide; [done|].
  rewrite IH. apply Permutation_swap.
Qed.

Lemma insert_Forall (P : A → Prop) x prefix :
  P x → Forall P prefix → Forall P (insert x prefix).
Proof. intros Hx Hp. rewrite insert_permutation. by constructor. Qed.

Lemma insert_sorted x prefix :
  S x → Forall S prefix → sorted_by cmp prefix → sorted_by cmp (insert x prefix).
Proof.
  unfold sorted_by. intros Hx. induction prefix as [|y ys IH]; intros HS Hs.
  - cbn. repeat constructor.
  - apply Forall_cons in HS as [Hy HS]. apply StronglySorted_cons in Hs as [Hys Hs].
    cbn. case_decide as Hlt.
    + apply StronglySorted_cons. split; [|by apply StronglySorted_cons].
      constructor; [lia|].
      rewrite Forall_forall in Hys, HS |- *. intros z Hz.
      pose proof (lt_le_lt x y z Hx Hy (HS z Hz) Hlt (Hys z Hz)). lia.
    + apply StronglySorted_cons. split; [|by apply IH].
      apply insert_Forall; [|done]. apply ge_le; [done..|lia].
Qed.

(** Inserting [x] adds it behind the elements that compare equal to it. *)
Lemma insert_filter w x prefix :
  S w → S x → Forall S prefix → sorted_by cmp prefix →
  filter (λ y, cmp w y = 0) (insert x prefix)
  = filter (λ y, cmp w y = 0) prefix ++ filter (λ y, cmp w y = 0) [x].
Proof.
  unfold sorted_by. intros Hw Hx. induction prefix as [|y ys IH]; intros HS Hs; [done|].
  apply Forall_cons in HS as [Hy HS]. apply StronglySorted_cons in Hs as [Hys Hs].
  cbn [insert]. case_decide as Hlt.
  - rewrite (filter_cons _ x), (filter_cons _ x []). case_decide as Hwx; [|by rewrite app_nil_r].
    assert (filter (λ z, cmp w z = 0) (y :: ys) = []) as ->; [|done].
    apply filter_none. intros q z Hq Hwz.
    assert (z ∈ y :: ys) as Hz by by eapply list_elem_of_lookup_2.
    assert (S z ∧ cmp y z ≤ 0) as [HSz Hyz].
    { apply elem_of_cons in Hz as [->|Hz].
      - split; [done|]. pose proof (cmp_refl _ _ Hc y Hy). lia.
      - rewrite Forall_forall in Hys, HS. eauto. }
    pose proof (lt_le_lt x y z Hx Hy HSz Hlt Hyz) as Hxz.
    pose proof (cmp_sym _ _ Hc w x Hw Hx Hwx) as Hxw.
    pose proof (cmp_trans_eq _ _ Hc x w z Hx Hw HSz Hxw Hwz). lia.
  - rewrite !(filter_cons _ y). case_decide; [|by apply IH].
    rewrite IH by done. reflexivity.
Qed.

(** ** Binary insertion agrees with linear insertion on a sorted prefix *)

(** In a sorted prefix, the elements that [x] sorts before form a suffix. *)
Lemma later_elements_follow x prefix i j y z :
  S x → Forall S prefix → sorted_by cmp prefix →
  (i ≤ j)%nat → prefix !! i = Some y → prefix !! j = Some z →
  cmp x y < 0 → cmp x z < 0.
Proof.
  intros Hx HS Hs Hij Hi Hj Hxy.
  assert (S y ∧ S z) as [Hy Hz].
  { rewrite Forall_forall in HS. split; apply HS; by eapply list_elem_of_lookup_2. }
  destruct (decide (i = j)) as [->|Hne]; [congruence|].
  assert (cmp y z ≤ 0) as Hyz.
  { unfold sorted_by in Hs. clear -Hs Hij Hne Hi Hj.
    assert (i < j)%nat as Hlt by lia. clear Hij Hne.
    revert i j Hlt Hi Hj. induction Hs as [|a l Hs IH Ha]; intros i j Hlt Hi Hj; [done|].
    destruct j as [|j]; [lia|]. destruct i as [|i].
    - injection Hi as ->. rewrite Forall_forall in Ha.
      apply Ha. by eapply list_elem_of_lookup_2.
    - apply (IH i j); [lia|done..]. }
  by apply (lt_le_lt x y z).
Qed.

Lemma binary_search_boundary x prefix fuel left right :
  (∀ i j y z, (i ≤ j)%nat → prefix !! i = Some y → prefix !! j = Some z →
     cmp x y < 0 → cmp x z < 0) →
  (left ≤ right)%nat → (right ≤ length prefix)%nat → (right - left ≤ fuel)%nat →
  (∀ i y, (i < left)%nat → prefix !! i = Some y → ¬ cmp x y < 0) →
  (∀ i y, (right ≤ i)%nat → prefix !! i = Some y → cmp x y < 0) →
  (binary_search cmp x prefix left right fuel ≤ length prefix)%nat
  ∧ (∀ i y, (i < binary_search cmp x prefix left right fuel)%nat →
       prefix !! i = Some y → ¬ cmp x y < 0)
  ∧ (∀ i y, (binary_search cmp x prefix left right fuel ≤ i)%nat →
       prefix !! i = Some y → cmp x y < 0).
Proof.
  intros Hmono. revert left right.
  induction fuel as [|fuel IH]; intros left right Hlr Hlen Hfuel Hbelow Habove.
  - cbn [binary_search]. assert (left = right) as -> by lia. by split_and!; [lia|..].
  - cbn [binary_search]. case_decide as Hlt.
    2:{ assert (left = right) as -> by lia. by split_and!; [lia|..]. }
    pose proof (Nat.div_lt (right - left) 2 ltac:(lia) ltac:(lia)) as Hhalf.
    set (mid := (left + (right - left) / 2)%nat) in *.
    destruct (prefix !! mid) as [y|] eqn:Hmid.
    2:{ apply lookup_ge_None in Hmid. lia. }
    case_decide as Hxy.
    + apply IH; [lia..|done|].
      intros i z Hi Hz. by apply (Hmono mid i y z); [lia|..].
    + apply IH; [lia..| |done].
      intros i z Hi Hz Hxz. apply Hxy. by apply (Hmono i mid z y); [lia|..].
Qed.

Lemma insert_at_boundary x prefix b :
  (b ≤ length prefix)%nat →
  (∀ i y, (i < b)%nat → prefix !! i = Some y → ¬ cmp x y < 0) →
  (∀ i y, (b ≤ i)%nat → prefix !! i = Some y → cmp x y < 0) →
  insert x prefix = take b prefix ++ x :: drop b prefix.
Proof.
  revert b. induction prefix as [|y ys IH]; intros b Hb Hbelow Habove.
  - by destruct b.
  - cbn [insert]. destruct b as [|b].
    + rewrite decide_True; [done|]. by apply (Habove 0%nat).
    + rewrite decide_False by by apply (Hbelow 0%nat); [lia|].
      cbn. f_equal. apply IH; [cbn in Hb; lia|..].
      * intros i z Hi. apply (Hbelow (Datatypes.S i)). lia.
      * intros i z Hi. apply (Habove (Datatypes.S i)). lia.
Qed.

Lemma binary_insert_is_insert x prefix :
  S x → Forall S prefix → sorted_by cmp prefix →
  binary_insert cmp prefix x = insert x prefix.
Proof.
  intros Hx HS Hs. unfold binary_insert. cbn zeta. symmetry.
  assert (∀ i y, (length prefix ≤ i)%nat → prefix !! i = Some y → cmp x y < 0) as Habove.
  { intros i y Hi Hy. apply lookup_lt_Some in Hy. lia. }
  assert (∀ i y, (i < 0)%nat → prefix !! i = Some y → ¬ cmp x y < 0) as Hbelow
    by (intros; lia).
  destruct (binary_search_boundary x prefix (length prefix) 0 (length prefix)
              (λ i j y z, later_elements_follow x prefix i j y z Hx HS Hs)
              ltac:(lia) ltac:(lia) ltac:(lia) Hbelow Habove) as (H1 & H2 & H3).
  by apply insert_at_boundary.
Qed.

(** ** Binary insertion sort on a consistent comparator *)

Lemma binary_insertion_from prefix l :
  Forall S prefix → Forall S l → sorted_by cmp prefix →
  sorted_by cmp (foldl (binary_insert cmp) prefix l)
  ∧ ∀ w, S w →
      filter (λ y, cmp w y = 0) (foldl (binary_insert cmp) prefix l)
      = filter (λ y, cmp w y = 0) prefix ++ filter (λ y, cmp w y = 0) l.
Proof.
  revert prefix. induction l as [|x l IH]; intros prefix HSp HSl Hs.
  - cbn. split; [done|]. intros w _. by rewrite app_nil_r.
  - apply Forall_cons in HSl as [Hx HSl]. cbn [foldl].
    rewrite binary_insert_is_insert by done.
    destruct (IH (insert x prefix)) as [Hsorted Hstable]; [|done|..].
    + by apply insert_Forall.
    + by apply insert_sorted.
    + split; [done|]. intros w Hw. rewrite (Hstable w Hw), insert_filter by done.
      rewrite <- app_assoc. f_equal. by rewrite <- filter_app.
Qed.

End order.

Lemma binary_insert_permutation {A} (cmp : A → A → Z) prefix x :
  binary_insert cmp prefix x ≡ₚ x :: prefix.
Proof.
  unfold binary_insert. cbn zeta.
  by rewrite <- Permutation_middle, take_drop.
Qed.

Lemma binary_insertion_sort_permutation {A} (cmp : A → A → Z) l :
  binary_insertion_sort cmp l ≡ₚ l.
Proof.
  unfold binary_insertion_sort.
  enough (∀ prefix, foldl (binary_insert cmp) prefix l ≡ₚ prefix ++ l) as H by apply H.
  induction l as [|x l IH]; intros prefix; cbn.
  - by rewrite app_nil_r.
  - by rewrite IH, binary_insert_permutation, <- Permutation_middle.
Qed.

Lemma binary_insertion_sort_sorted {A} (cmp : A → A → Z) l :
  consistent cmp (λ a, a ∈ l) → sorted_by cmp (binary_insertion_sort cmp l).
Proof.
  intros Hc. unfold binary_insertion_sort.
  apply (binary_insertion_from cmp _ Hc [] l); [done| |constructor].
  by apply Forall_forall.
Qed.

Lemma binary_insertion_sort_stable {A} (cmp : A → A → Z) l :
  consistent cmp (λ a, a ∈ l) →
  keeps_order_of_equals cmp l (binary_insertion_sort cmp l).
Proof.
  intros Hc w Hw. unfold binary_insertion_sort.
  destruct (binary_insertion_from cmp _ Hc [] l) as [_ H]; [done| |constructor|].
  - by apply Forall_forall.
  - by rewrite (H w Hw).
Qed.

(** ** A host that keeps the promise *)

Lemma code_unit_compare_consistent : consistent code_unit_compare (λ _, True).
Proof.
  pose proof (StrictOrder_Irreflexive (R := OrdersEx.String_as_OT.lt)) as Hirr.
  pose proof (StrictOrder_Transitive (R := OrdersEx.String_as_OT.lt)) as Htr.
  unfold Irreflexive, Reflexive, complement, Transitive in Hirr, Htr.
  assert (∀ a b, code_unit_compare a b = 0 ↔ a = b) as Heq.
  { intros a b. unfold code_unit_compare.
    destruct (OrdersEx.String_as_OT.compare_spec a b) as [H|H|H]; split; try done.
    - intros ->. by apply Hirr in H.
    - intros ->. by apply Hirr in H. }
  assert (∀ a b, code_unit_compare a b < 0 ↔ OrdersEx.String_as_OT.lt a b) as Hlt.
  { intros a b. unfold code_unit_compare.
    destruct (OrdersEx.String_as_OT.compare_spec a b) as [H|H|H]; split; try done.
    - intros Hab. rewrite H in Hab. by apply Hirr in Hab.
    - intros Hab. exfalso. apply (Hirr a). by apply (Htr a b a). }
  assert (∀ a b, code_unit_compare a b > 0 ↔ OrdersEx.String_as_OT.lt b a) as Hgt.
  { intros a b. unfold code_unit_compare.
    destruct (OrdersEx.String_as_OT.compare_spec a b) as [H|H|H]; split; try done.
    - intros Hab. rewrite H in Hab. by apply Hirr in Hab.
    - intros Hab. exfalso. apply (Hirr a). by apply (Htr a b a). }
  split.
  - intros a _. by apply Heq.
  - intros a b _ _ H. apply Heq. symmetry. by apply Heq.
  - intros a b c _ _ _ Hab Hbc. apply Heq. apply Heq in Hab, Hbc. congruence.
  - intros a b c _ _ _ Hab Hbc. apply Hlt. apply Hlt in Hab, Hbc. by apply (Htr a b c).
  - intros a b c _ _ _ Hab Hbc. apply Hgt. apply Hgt in Hab, Hbc. by apply (Htr c b a).
Qed.

(** Collation by code units, YYYY-MM-DD dates, binary insertion sort. *)
Definition sample_host : Host :=
  mkHost code_unit_compare code_unit_compare_consistent sample_getTime
         (@binary_insertion_sort)
         (@binary_insertion_sort_permutation)
         (@binary_insertion_sort_sorted)
         (@binary_insertion_sort_stable).

(** ** Where the comparator of [sort] is consistent *)

Lemma consistent_weaken {A} (cmp : A → A → Z) (S S' : A → Prop) :
  (∀ a, S' a → S a) → consistent cmp S → consistent cmp S'.
Proof.
  intros Hsub [H1 H2 H3 H4 H5]. split; eauto 10.
Qed.

Lemma consistent_descending {A} (cmp : A → A → Z) (S : A → Prop) :
  consistent cmp S → consistent (λ a b, - cmp a b) S.
Proof.
  intros [H1 H2 H3 H4 H5]. split.
  - intros a Ha. rewrite H1 by done. lia.
  - intros a b Ha Hb H. rewrite H2; [lia|done..|lia].
  - intros a b c Ha Hb Hc Hab Hbc. rewrite (H3 a b c); [lia|done..|lia|lia].
  - intros a b c Ha Hb Hc Hab Hbc.
    pose proof (H5 a b c Ha Hb Hc ltac:(lia) ltac:(lia)). lia.
  - intros a b c Ha Hb Hc Hab Hbc.
    pose proof (H4 a b c Ha Hb Hc ltac:(lia) ltac:(lia)). lia.
Qed.

Lemma consistent_on_key {A B} (key : A → B) (cmp : B → B → Z) :
  consistent cmp (λ _, True) → consistent (λ a b, cmp (key a) (key b)) (λ _, True).
Proof. intros [H1 H2 H3 H4 H5]. split; eauto. Qed.

Lemma consistent_difference {A} (rank : A → Z) (S : A → Prop) :
  consistent (λ a b, rank a - rank b) S.
Proof. split; intros; lia. Qed.

Lemma consistent_ext {A} (cmp cmp' : A → A → Z) (S : A → Prop) :
  (∀ a b, S a → S b → cmp' a b = cmp a b) → consistent cmp S → consistent cmp' S.
Proof.
  intros Hext [H1 H2 H3 H4 H5]. split.
  - intros a Ha. rewrite Hext by done. eauto.
  - intros a b Ha Hb. rewrite !Hext by done. eauto.
  - intros a b c Ha Hb Hc. rewrite !Hext by done. eauto.
  - intros a b c Ha Hb Hc. rewrite !Hext by done. eauto.
  - intros a b c Ha Hb Hc. rewrite !Hext by done. eauto.
Qed.

Section comparator.
Context `{Host}.

Lemma date_comparison_values x y :
  date_comparison x y =
  match date_value x, date_value y with
  | Some tx, Some ty => tx - ty
  | _, _ => 0
  end.
Proof.
  unfold date_comparison, date_value.
  destruct (truthy_field x) as [sx|]; cbn; [|done].
  destruct (truthy_field y) as [sy|]; cbn; [done|]. by destruct (Date_getTime sx).
Qed.

Lemma ascending_consistent key (S : AnimationMetadata → Prop) :
  match date_field key with
  | None => True
  | Some field => (∀ a, S a → is_Some (date_value (field a)))
                  ∨ (∀ a, S a → date_value (field a) = None)
  end →
  consistent (compareFn (mkOptions key asc)) S.
Proof.
  intros Hdates. unfold compareFn. cbn.
  assert (∀ field : AnimationMetadata → option string,
            (∀ a, S a → is_Some (date_value (field a)))
            ∨ (∀ a, S a → date_value (field a) = None) →
            consistent (λ a b, date_comparison (field a) (field b)) S) as Hdate.
  { intros field [Hall|Hnone].
    - apply (consistent_ext (λ a b, default 0 (date_value (field a))
                                    - default 0 (date_value (field b)))).
      + intros a b [ta Ha]%Hall [tb Hb]%Hall.
        by rewrite date_comparison_values, Ha, Hb.
      + apply consistent_difference.
    - apply (consistent_ext (λ a b, 0 - 0)).
      + intros a b Ha%Hnone Hb. by rewrite date_comparison_values, Ha.
      + apply (consistent_difference (λ _, 0)). }
  destruct key; cbn in *.
  - eapply consistent_weaken;
      [|apply (consistent_on_key name), localeCompare_consistent]. done.
  - eapply consistent_weaken;
      [|apply (consistent_on_key (λ a, category_string (category a))),
               localeCompare_consistent]. done.
  - apply (consistent_difference (λ a, difficultyOrder (difficulty a))).
  - by apply Hdate.
  - by apply Hdate.
Qed.

Lemma compareFn_consistent options (S : AnimationMetadata → Prop) :
  match date_field (by_ options) with
  | None => True
  | Some field => (∀ a, S a → is_Some (date_value (field a)))
                  ∨ (∀ a, S a → date_value (field a) = None)
  end →
  consistent (compareFn options) S.
Proof.
  destruct options as [key [|]]; intros Hdates.
  - by apply ascending_consistent.
  - apply (consistent_descending (compareFn (mkOptions key asc))).
    by apply ascending_consistent.
Qed.

End comparator.

(** ** The claim about [sort] *)

(** C8, as stated, fails for the date keys when only some entries have the
    field. An entry without it compares equal to every other entry while
    dated entries are ordered among themselves, so the comparator is not
    consistent and the sort need not keep equal-comparing entries in their
    input order. On a host that keeps ECMAScript's promise by binary
    insertion, [undated] precedes [jan3] in the input, the two compare equal,
    and [jan3] precedes [undated] in the output. *)
Lemma date_sort_with_missing_field_is_not_stable :
  @sort sample_host [jan5; jan1; undated; jan3] (mkOptions by_createdAt asc)
    = [jan1; jan3; jan5; undated]
  ∧ @compareFn sample_host (mkOptions by_createdAt asc) undated jan3 = 0
  ∧ @compareFn sample_host (mkOptions by_createdAt asc) jan3 undated = 0
  ∧ ¬ keeps_order_of_equals (@compareFn sample_host (mkOptions by_createdAt asc))
        [jan5; jan1; undated; jan3]
        (@sort sample_host [jan5; jan1; undated; jan3] (mkOptions by_createdAt asc)).
Proof.
  split_and!; [by vm_compute..|].
  intros Hkeeps. specialize (Hkeeps undated).
  assert (undated ∈ [jan5; jan1; undated; jan3]) as Hin by (do 2 right; left).
  specialize (Hkeeps Hin). vm_compute in Hkeeps. discriminate Hkeeps.
Qed.

(** C8, amended: on every host that keeps ECMAScript's promise, sorting
    [hard, easy, medium] ascending by difficulty yields [easy, medium, hard];
    for the keys name, category and difficulty, in either order, the result
    is a sorted permutation of the input in which entries that compare equal
    keep their input order, and the same holds for createdAt and updatedAt
    when every entry sorted has a valid date in that field or none has; for
    those two keys a pair of entries of which either lacks the field compares
    as equal. *)
Theorem sort_is_ordinal_and_stable_where_consistent `{Host} :
  (∀ e m h,
     difficulty e = easy → difficulty m = medium → difficulty h = hard →
     sort [h; e; m] (mkOptions by_difficulty asc) = [e; m; h])
  ∧ (∀ options l,
       match date_field (by_ options) with
       | None => True
       | Some field =>
         Forall (λ a, is_Some (date_value (field a))) l
         ∨ Forall (λ a, date_value (field a) = None) l
       end →
       sort l options ≡ₚ l
       ∧ sorted_by (compareFn options) (sort l options)
       ∧ keeps_order_of_equals (compareFn options) l (sort l options))
  ∧ (∀ options field a b,
       date_field (by_ options) = Some field →
       field a = None ∨ field b = None →
       compareFn options a b = 0).
Proof.
  assert (∀ options l,
       match date_field (by_ options) with
       | None => True
       | Some field =>
         Forall (λ a, is_Some (date_value (field a))) l
         ∨ Forall (λ a, date_value (field a) = None) l
       end →
       sort l options ≡ₚ l
       ∧ sorted_by (compareFn options) (sort l options)
       ∧ keeps_order_of_equals (compareFn options) l (sort l options)) as Hstable.
  { intros options l Hdates.
    assert (consistent (compareFn options) (λ a, a ∈ l)) as Hc.
    { apply compareFn_consistent. destruct (date_field (by_ options)); [|done].
      destruct Hdates as [Hd|Hd]; [left|right]; by apply Forall_forall. }
    unfold sort. split_and!.
    - apply Array_sort_permutation.
    - by apply Array_sort_sorted.
    - by apply Array_sort_stable. }
  split_and!; [|exact Hstable|].
  - intros e m h He Hm Hh.
    destruct (Hstable (mkOptions by_difficulty asc) [h; e; m] I) as (Hperm & Hsorted & _).
    apply (StronglySorted_unique_strong
             (λ a b, compareFn (mkOptions by_difficulty asc) a b ≤ 0)); [|done|..].
    + intros x1 x2 Hx1 Hx2. rewrite Hperm in Hx1. unfold compareFn. cbn.
      rewrite !elem_of_cons, elem_of_nil in Hx1, Hx2.
      destruct Hx1 as [->|[->|[->|[]]]], Hx2 as [->|[->|[->|[]]]];
        rewrite ?He, ?Hm, ?Hh; cbn; first [done | lia].
    + unfold compareFn. cbn.
      repeat (apply StronglySorted_cons; split);
        repeat constructor; rewrite ?He, ?Hm, ?Hh; cbn; lia.
    + rewrite Hperm. rewrite (Permutation_swap e h [m]).
      apply Permutation_skip, Permutation_swap.
  - intros [key [|]] field a b Hkey Hlacks; unfold compareFn; cbn in *;
      destruct key; try discriminate Hkey; injection Hkey as <-;
      unfold date_comparison;
      destruct Hlacks as [-> | ->]; cbn; repeat case_match; done.
Qed.

Lemma sort_is_ordinal_and_stable_where_consistent_witness :
  @sort sample_host
    [sample_entry "c" hard None; sample_entry "a" easy None; sample_entry "b" medium None]
    (mkOptions by_difficulty asc)
  = [sample_entry "a" easy None; sample_entry "b" medium None; sample_entry "c" hard None]
  ∧ keeps_order_of_equals (@compareFn sample_host (mkOptions by_createdAt desc))
      [jan5; jan1; jan3]
      (@sort sample_host [jan5; jan1; jan3] (mkOptions by_createdAt desc)).
Proof.
  destruct (@sort_is_ordinal_and_stable_where_consistent sample_host)
    as (Hordinal & Hstable & _).
  split.
  - by apply Hordinal.
  - destruct (Hstable (mkOptions by_createdAt desc) [jan5; jan1; jan3]) as (_ & _ & Hk);
      [|exact Hk].
    left. repeat (apply List.Forall_cons; [vm_compute; by eexists|]).
    apply List.Forall_nil.
Defined.

End RegistrySortFacts.

(** ** The listing and its queries *)

Module CatalogueFacts.
Import Catalogue.

(** ** The listing invariant *)

Lemma Set_add_elem {A} `{EqDecision A} (x y : A) s : y ∈ Set_add x s ↔ y = x ∨ y ∈ s.
Proof.
  unfold Set_add. case_decide as Hx.
  - split; [by right|]. by intros [->|?].
  - rewrite elem_of_app, list_elem_of_singleton. tauto.
Qed.

Lemma Set_add_NoDup {A} `{EqDecision A} (x : A) s : NoDup s → NoDup (Set_add x s).
Proof.
  intros Hs. unfold Set_add. case_decide as Hx; [done|].
  apply NoDup_app. split_and!; [done| |apply NoDup_singleton].
  by intros y Hy ->%list_elem_of_singleton.
Qed.

Lemma empty_listed : listed empty.
Proof.
  split; cbn.
  - constructor.
  - intros i. rewrite lookup_empty. split; [by intros ?%elem_of_nil|by intros [? ?]].
  - intros i e. by rewrite lookup_empty.
Qed.

Lemma register_listed m l s : listed s → listed (register m l s).
Proof.
  intros [Hnd Hkeys Hids]. split; cbn.
  - by apply Set_add_NoDup.
  - intros i. rewrite Set_add_elem, Hkeys. destruct (decide (i = id m)) as [->|Hi].
    + rewrite lookup_insert_eq. split; [by eexists|by left].
    + rewrite lookup_insert_ne by done. split; [by intros [?|?]|by right].
  - intros i e. destruct (decide (i = id m)) as [->|Hi].
    + rewrite lookup_insert_eq. by intros [= <-].
    + rewrite lookup_insert_ne by done. apply Hids.
Qed.

Lemma registry_step_entries r e :
  match e with Registry.Register _ _ => True
  | _ => Registry.entries (Registry.step r e).1 = Registry.entries r end.
Proof.
  destruct e as [m l|i|p a|p|]; cbn; try done.
  - unfold Registry.getById. repeat case_match; done.
  - unfold Registry.loader_fulfils. repeat case_match; done.
  - unfold Registry.loader_rejects. repeat case_match; done.
Qed.

Lemma step_listed s e : listed s → listed (step s e).
Proof.
  intros Hs. destruct e as [m l|i|p a|p|] eqn:He; [by apply register_listed|..];
    (pose proof (registry_step_entries (registry_of s) e) as Hent; subst e;
     destruct Hs as [Hnd Hkeys Hids]; split; cbn [step registry_of order];
     [done|by setoid_rewrite Hent|by setoid_rewrite Hent]).
Qed.

Lemma run_listed tr : ∀ s, listed s → listed (run s tr).
Proof.
  induction tr as [|e tr IH]; intros s Hs; [done|]. cbn. apply IH. by apply step_listed.
Qed.

(** ** [getAll] *)

Lemma getAll_fmap s :
  listed s →
  Forall2 (λ i m, ∃ e, Registry.entries (registry_of s) !! i = Some e
                       ∧ Registry.metadata e = m) (order s) (getAll s).
Proof.
  intros [_ Hkeys _]. unfold getAll.
  assert (Forall (λ i, is_Some (Registry.entries (registry_of s) !! i)) (order s)) as Hall.
  { apply Forall_forall. intros i. apply Hkeys. }
  clear Hkeys. induction Hall as [|i rest [e He] _ IH]; [constructor|].
  change (omap ?f (i :: rest)) with
    (match f i with Some y => y :: omap f rest | None => omap f rest end).
  cbn beta. rewrite He. cbn [fmap option_fmap option_map].
  constructor; [by exists e|exact IH].
Qed.

Lemma getAll_ids s : listed s → id <$> getAll s = order s.
Proof.
  intros Hs. pose proof (getAll_fmap s Hs) as H2. destruct Hs as [_ _ Hids].
  induction H2 as [|i m rest ms (e & He & <-) _ IH]; [done|].
  rewrite fmap_cons, IH. f_equal. by eapply Hids.
Qed.

Lemma getAll_elem s m :
  listed s → m ∈ getAll s ↔ getMetadataById (id m) s = Some m.
Proof.
  intros Hs. pose proof Hs as [_ Hkeys Hids]. unfold getMetadataById, getAll.
  rewrite list_elem_of_omap. split.
  - intros (i & Hi & Hm). destruct (Registry.entries (registry_of s) !! i) as [e|] eqn:He;
      [|done]. cbn in Hm. injection Hm as <-. rewrite (Hids _ _ He), He. done.
  - intros Hm. exists (id m). split; [|done]. apply Hkeys.
    destruct (Registry.entries (registry_of s) !! id m); [by eexists|done].
Qed.

Lemma order_length s : listed s → length (order s) = count s.
Proof.
  intros [Hnd Hkeys _]. unfold count.
  rewrite <- (length_map_to_list (Registry.entries (registry_of s))).
  rewrite <- (length_fmap fst (map_to_list _)).
  apply Permutation_length, NoDup_Permutation; [done|apply NoDup_fst_map_to_list|].
  intros i. rewrite Hkeys, list_elem_of_fmap. split.
  - intros [e He]. exists (i, e). split; [done|]. by apply elem_of_map_to_list.
  - intros ([j e] & -> & He%elem_of_map_to_list). by eexists.
Qed.

(** X22: In every state of the registry, [getAll] lists each registered
    animation exactly once (no id twice, as many entries as [count()]), an
    animation is listed exactly when [getMetadataById] of its id returns it,
    and an id is listed exactly when [has] holds for it. *)
Theorem getAll_lists_every_entry_once tr :
  NoDup (id <$> getAll (run empty tr))
  ∧ length (getAll (run empty tr)) = count (run empty tr)
  ∧ (∀ m, m ∈ getAll (run empty tr) ↔ getMetadataById (id m) (run empty tr) = Some m)
  ∧ (∀ i, has i (run empty tr) = true ↔ i ∈ id <$> getAll (run empty tr)).
Proof.
  pose proof (run_listed tr empty empty_listed) as Hs.
  set (s := run empty tr) in *. split_and!.
  - rewrite getAll_ids by done. apply Hs.
  - rewrite <- (length_fmap id), getAll_ids by done. by apply order_length.
  - intros m. by apply getAll_elem.
  - intros i. rewrite getAll_ids by done. unfold has, Registry.has.
    rewrite bool_decide_eq_true. symmetry. apply Hs.
Qed.

Lemma omap_ext_in {A B} (f g : A → option B) (l : list A) :
  (∀ x, x ∈ l → f x = g x) → omap f l = omap g l.
Proof.
  induction l as [|x l IH]; intros Hfg; [done|]. cbn.
  rewrite (Hfg x) by by left. rewrite IH; [done|]. intros y Hy. apply Hfg. by right.
Qed.

Lemma omap_insert_replace (entries : gmap string Registry.entry) e_new k l :
  Forall (λ i, ∃ e, entries !! i = Some e ∧ id (Registry.metadata e) = i) l →
  omap (λ i, Registry.metadata <$> <[k := e_new]> entries !! i) l
  = (λ x, if decide (id x = k) then Registry.metadata e_new else x)
      <$> omap (λ i, Registry.metadata <$> entries !! i) l.
Proof.
  induction 1 as [|i rest (e & He & Hid) _ IH]; [done|].
  change (omap ?f (i :: rest)) with
    (match f i with Some y => y :: omap f rest | None => omap f rest end).
  cbn beta. rewrite He, IH. cbn [fmap option_fmap option_map]. rewrite fmap_cons, Hid.
  destruct (decide (i = k)) as [->|Hi].
  - by rewrite lookup_insert_eq.
  - by rewrite lookup_insert_ne, He.
Qed.

(** X23: [register] of an id that is not registered appends the animation to the
    listing; [register] of a registered id warns and replaces the entry where
    it stands, so the listing keeps its order. *)
Theorem register_appends_or_replaces_in_place tr m l :
  (has (id m) (run empty tr) = false →
   getAll (register m l (run empty tr)) = getAll (run empty tr) ++ [m]
   ∧ Registry.console (registry_of (register m l (run empty tr)))
     = Registry.console (registry_of (run empty tr)))
  ∧ (has (id m) (run empty tr) = true →
     getAll (register m l (run empty tr))
     = (λ x, if decide (id x = id m) then m else x) <$> getAll (run empty tr)
     ∧ Registry.console (registry_of (register m l (run empty tr)))
       = Registry.console (registry_of (run empty tr)) ++ [Registry.Warn_overwriting (id m)]).
Proof.
  pose proof (run_listed tr empty empty_listed) as Hs.
  set (s := run empty tr) in *. pose proof Hs as [Hnd Hkeys Hids].
  unfold has, Registry.has. split.
  - intros Hnew%bool_decide_eq_false. split.
    + unfold getAll, register, Set_add. cbn [registry_of order Registry.register
                                              Registry.entries].
      rewrite decide_False by by rewrite Hkeys.
      rewrite omap_app. cbn. rewrite lookup_insert_eq. cbn. f_equal.
      apply omap_ext_in. intros i Hi. rewrite lookup_insert_ne; [done|].
      intros <-. by apply Hnew, Hkeys.
    + cbn. by rewrite decide_False.
  - intros Hold%bool_decide_eq_true. split.
    + unfold getAll, register, Set_add. rewrite decide_True by by rewrite Hkeys.
      cbn [registry_of order Registry.register Registry.entries].
      apply (omap_insert_replace _ (Registry.mkEntry m l)).
      apply Forall_forall. intros i [e He]%Hkeys. exists e. split; [done|]. by eapply Hids.
    + cbn. by rewrite decide_True.
Qed.

Lemma register_appends_or_replaces_in_place_witness :
  getAll (register (Registry.sample_metadata "b") 2
            (run empty [Registry.Register (Registry.sample_metadata "a") 1]))
  = getAll (run empty [Registry.Register (Registry.sample_metadata "a") 1])
    ++ [Registry.sample_metadata "b"].
Proof.
  apply (proj1 (register_appends_or_replaces_in_place
                  [Registry.Register (Registry.sample_metadata "a") 1]
                  (Registry.sample_metadata "b") 2)).
  reflexivity.
Defined.

(** ** [filter] and the queries built on it *)

Lemma List_filter_sublist {A} (p : A → bool) l : sublist (List.filter p l) l.
Proof.
  induction l as [|x l IH]; [constructor|]. cbn.
  destruct (p x); by constructor.
Qed.

Lemma elem_of_List_filter {A} (p : A → bool) l x :
  x ∈ List.filter p l ↔ x ∈ l ∧ p x = true.
Proof. by rewrite !list_elem_of_In, filter_In. Qed.

Lemma shares_a_tag_spec wanted m :
  shares_a_tag wanted m = true ↔ ∃ tag, tag ∈ wanted ∧ tag ∈ tags m.
Proof.
  unfold shares_a_tag. rewrite existsb_exists. split.
  - intros (tag & Hin%list_elem_of_In & Ht%bool_decide_eq_true). by exists tag.
  - intros (tag & Hin%list_elem_of_In & Ht). exists tag. by rewrite bool_decide_eq_true.
Qed.

Section filters.
Context `{StringHost}.

(** X24: [filter] keeps, in the order of [getAll], the animations that pass
    every criterion given: the category and the difficulty if present, one
    of the tags if the tag list is present and not empty, the search text if
    it is present and not empty. In particular a filter with no field, with
    an empty tag list or with an empty search text filters nothing out. *)
Theorem filter_keeps_what_passes_every_criterion f s :
  sublist (filter f s) (getAll s)
  ∧ (∀ m, m ∈ filter f s ↔
       m ∈ getAll s
       ∧ (∀ c, f_category f = Some c → category m = c)
       ∧ (∀ d, f_difficulty f = Some d → difficulty m = d)
       ∧ (∀ wanted, f_tags f = Some wanted → wanted ≠ [] →
            ∃ tag, tag ∈ wanted ∧ tag ∈ tags m)
       ∧ (∀ query, f_search f = Some query → query ≠ ""%string →
            mentions (toLowerCase query) m = true))
  ∧ filter no_filter s = getAll s
  ∧ filter (mkFilter None (Some []) (Some ""%string) None) s = getAll s.
Proof.
  split_and!; [| |done|done].
  - unfold filter. cbn zeta.
    destruct (f_category f), (f_difficulty f), (f_tags f) as [[|tag more]|],
             (RegistrySort.truthy_field (f_search f));
      repeat (etrans; [apply List_filter_sublist|]); reflexivity.
  - intros m. unfold filter. cbn zeta. unfold RegistrySort.truthy_field.
    destruct f as [fc ft fs fd]. cbn [f_category f_tags f_search f_difficulty].
    destruct fc as [c|], fd as [d|], ft as [[|tag more]|], fs as [q|];
      try destruct (decide (q = ""%string)) as [->|Hq];
      rewrite ?elem_of_List_filter, ?bool_decide_eq_true, ?shares_a_tag_spec;
      (split; [intros ?; destruct_and?; split_and!; try done; intros; simplify_eq; done
              |intros (? & Hc & Hd & Ht & Hq'); split_and?; eauto]).
Qed.

(** X25: [getByCategory] returns what [filter] by the category alone returns,
    but [getByTags] and [filter] by tags differ on the empty tag list: [getByTags([])] returns nothing, where [filter]
    with an empty tag list returns every animation. On a tag list that is
    not empty they agree. *)
Theorem getByTags_of_no_tag_is_empty s :
  getByTags [] s = []
  ∧ filter (mkFilter None (Some []) None None) s = getAll s
  ∧ (∀ wanted, wanted ≠ [] →
       getByTags wanted s = filter (mkFilter None (Some wanted) None None) s)
  ∧ (∀ c, getByCategory c s = filter (mkFilter (Some c) None None None) s).
Proof.
  split_and!; [|done| |done].
  - unfold getByTags. induction (getAll s) as [|m l IH]; [done|]. cbn. exact IH.
  - intros [|tag more] Hne; done.
Qed.

Lemma includes_empty s : includes "" s = true.
Proof. by destruct s. Qed.

Lemma prefix_refl s : String.prefix s s = true.
Proof.
  induction s as [|c s IH]; [done|]. cbn. destruct (Ascii.ascii_dec c c); [done|congruence].
Qed.

Lemma includes_refl s : includes s s = true.
Proof. destruct s; cbn [includes]; by rewrite prefix_refl. Qed.

(** X26: [search] with the empty text returns every animation. With any other
    text it finds each animation whose name, description or one of whose
    tags equals the text up to letter case. *)
Theorem search_finds_by_name_whatever_the_case s :
  search "" s = getAll s
  ∧ ∀ m query,
      m ∈ getAll s → query ≠ ""%string →
      toLowerCase query = toLowerCase (name m)
      ∨ toLowerCase query = toLowerCase (description m)
      ∨ (∃ tag, tag ∈ tags m ∧ toLowerCase query = toLowerCase tag) →
      m ∈ search query s.
Proof.
  split; [done|]. intros m query Hm Hq Hcase.
  unfold search, filter. cbn zeta. cbn [f_category f_difficulty f_tags f_search].
  unfold RegistrySort.truthy_field. rewrite decide_False by done.
  apply elem_of_List_filter. split; [done|]. unfold mentions.
  destruct Hcase as [->|[->|(tag & Htag & ->)]].
  - by rewrite includes_refl.
  - by rewrite includes_refl, orb_true_r.
  - apply orb_true_iff. right. apply existsb_exists. exists tag.
    split; [by apply list_elem_of_In|apply includes_refl].
Qed.

End filters.

Lemma search_finds_by_name_whatever_the_case_witness :
  mkMetadata "a" "Particle Burst" "" particles easy [] None None
  ∈ @search latin1 "PARTICLE burst"
      (run empty [Registry.Register
                    (mkMetadata "a" "Particle Burst" "" particles easy [] None None) 1]).
Proof.
  apply (proj2 (@search_finds_by_name_whatever_the_case latin1 _)).
  - apply list_elem_of_singleton. reflexivity.
  - done.
  - left. reflexivity.
Defined.

(** ** [getCategories] and [getAllTags] *)

#[local] Open Scope Z_scope.

Lemma code_unit_compare_eq a b : RegistrySort.code_unit_compare a b = 0 ↔ a = b.
Proof.
  pose proof (StrictOrder_Irreflexive (R := OrdersEx.String_as_OT.lt)) as Hirr.
  unfold Irreflexive, Reflexive, complement in Hirr.
  unfold RegistrySort.code_unit_compare.
  destruct (OrdersEx.String_as_OT.compare_spec a b) as [Hab|Hab|Hab]; split; try done.
  - intros ->. by apply Hirr in Hab.
  - intros ->. by apply Hirr in Hab.
Qed.

Lemma default_compare_consistent {A} (toString : A → string) (S : A → Prop) :
  RegistrySort.consistent (default_compare toString) S.
Proof.
  apply (RegistrySortFacts.consistent_weaken _ (λ _, True)); [done|].
  apply (RegistrySortFacts.consistent_on_key toString RegistrySort.code_unit_compare).
  apply RegistrySortFacts.code_unit_compare_consistent.
Qed.

Lemma default_compare_antisym {A} (toString : A → string) :
  Inj (=) (=) toString → AntiSymm (=) (λ a b, default_compare toString a b ≤ 0).
Proof.
  intros Hinj a b Hab Hba. apply Hinj, code_unit_compare_eq.
  pose proof (default_compare_consistent toString (λ _, True)) as Hc.
  destruct (decide (default_compare toString a b = 0)) as [H0|H0]; [done|].
  pose proof (RegistrySortFacts.lt_gt _ _ Hc a b I I ltac:(lia)). lia.
Qed.

Lemma foldl_Set_add {A B} `{EqDecision A} (key : B → A) (l : list B) acc :
  NoDup acc →
  NoDup (foldl (λ set m, Set_add (key m) set) acc l)
  ∧ ∀ x, x ∈ foldl (λ set m, Set_add (key m) set) acc l
         ↔ x ∈ acc ∨ ∃ m, m ∈ l ∧ key m = x.
Proof.
  revert acc. induction l as [|m l IH]; intros acc Hacc; cbn.
  - split; [done|]. intros x. split; [by left|]. by intros [?|(m & ?%elem_of_nil & _)].
  - destruct (IH (Set_add (key m) acc)) as [Hnd Hel]; [by apply Set_add_NoDup|].
    split; [done|]. intros x. rewrite Hel, Set_add_elem. split.
    + intros [[->|?]|(m' & Hm' & <-)]; [|by left|].
      * right. exists m. split; [by left|done].
      * right. exists m'. split; [by right|done].
    + intros [?|(m' & [->|Hm']%elem_of_cons & <-)]; [by left; right|by left; left|].
      right. by exists m'.
Qed.

Lemma sorted_list_is_its_filter {A} (R : relation A) (p : A → bool) l :
  StronglySorted R l → StronglySorted R (List.filter p l).
Proof.
  induction 1 as [|x l Hl IH Hx]; [constructor|]. cbn.
  destruct (p x); [|done]. constructor; [done|].
  apply Forall_forall. intros y [Hy _]%elem_of_List_filter.
  by eapply Forall_forall in Hx.
Qed.

Lemma List_filter_NoDup {A} (p : A → bool) l : NoDup l → NoDup (List.filter p l).
Proof.
  induction 1 as [|x l Hx Hl IH]; [constructor|]. cbn.
  destruct (p x); [|done]. constructor; [|done].
  intros [Hin _]%elem_of_List_filter. done.
Qed.

Lemma strictly_sorted (l : list string) :
  RegistrySort.sorted_by (default_compare (λ tag, tag)) l → NoDup l →
  StronglySorted (λ a b, RegistrySort.code_unit_compare a b < 0) l.
Proof.
  unfold RegistrySort.sorted_by.
  induction 1 as [|x l Hl IH Hx]; intros Hnd; [constructor|].
  apply NoDup_cons in Hnd as [Hxl Hnd]. constructor; [by apply IH|].
  apply Forall_forall. intros y Hy. eapply Forall_forall in Hx; [|done].
  unfold default_compare in Hx.
  destruct (decide (RegistrySort.code_unit_compare x y = 0)) as [H0|H0]; [|lia].
  apply code_unit_compare_eq in H0 as ->. done.
Qed.

Section sorted_queries.
Context `{RegistrySort.Host}.

(** X27: On every host whose sort keeps ECMAScript's promise, [getCategories]
    returns the categories that some registered animation has, each once,
    in alphabetical order: those of geometric, glitch, particles, text,
    waves that are in use. *)
Theorem getCategories_lists_the_categories_in_use s :
  getCategories s
  = List.filter (λ c, existsb (λ m, bool_decide (category m = c)) (getAll s))
                [geometric; glitch; particles; text; waves].
Proof.
  unfold getCategories. cbn zeta.
  destruct (foldl_Set_add category (getAll s) []) as [Hnd Hel]; [constructor|].
  set (categories := foldl _ _ _) in *.
  set (cmp := default_compare RegistrySort.category_string).
  assert (Inj (=) (=) RegistrySort.category_string) as Hinj.
  { intros [] []; cbn; congruence. }
  apply (@StronglySorted_unique _ _ (default_compare_antisym _ Hinj)).
  - apply RegistrySort.Array_sort_sorted, default_compare_consistent.
  - apply sorted_list_is_its_filter. repeat constructor; done.
  - etrans; [apply RegistrySort.Array_sort_permutation|].
    apply NoDup_Permutation; [done| |].
    + apply List_filter_NoDup. compute_done.
    + intros c. rewrite Hel, elem_of_List_filter, existsb_exists. split.
      * intros [?%elem_of_nil|(m & Hm & <-)]; [done|]. split.
        -- destruct (category m); compute_done.
        -- exists m. split; [by apply list_elem_of_In|by apply bool_decide_eq_true].
      * intros [_ (m & Hm%list_elem_of_In & Hc%bool_decide_eq_true)]. right. by exists m.
Qed.

Lemma foldl_tags (l : list AnimationMetadata) acc :
  NoDup acc →
  NoDup (foldl (λ set m, foldl (λ set tag, Set_add tag set) set (tags m)) acc l)
  ∧ ∀ x, x ∈ foldl (λ set m, foldl (λ set tag, Set_add tag set) set (tags m)) acc l
         ↔ x ∈ acc ∨ ∃ m, m ∈ l ∧ x ∈ tags m.
Proof.
  revert acc. induction l as [|m l IH]; intros acc Hacc; cbn.
  - split; [done|]. intros x. split; [by left|]. by intros [?|(m & ?%elem_of_nil & _)].
  - destruct (foldl_Set_add (λ tag : string, tag) (tags m) acc Hacc) as [Hnd1 Hel1].
    destruct (IH _ Hnd1) as [Hnd Hel]. split; [done|].
    intros x. rewrite Hel, Hel1. split.
    + intros [[?|(tag & Htag & <-)]|(m' & Hm' & Hx)]; [by left| |].
      * right. exists m. split; [by left|done].
      * right. exists m'. split; [by right|done].
    + intros [?|(m' & [->|Hm']%elem_of_cons & Hx)]; [by left; left| |].
      * left. right. by exists x.
      * right. by exists m'.
Qed.

(** X28: On every such host, [getAllTags] returns the tags of the registered
    animations, each once, in ascending order of their code units. *)
Theorem getAllTags_lists_each_tag_once_in_order s :
  StronglySorted (λ a b, RegistrySort.code_unit_compare a b < 0) (getAllTags s)
  ∧ ∀ tag, tag ∈ getAllTags s ↔ ∃ m, m ∈ getAll s ∧ tag ∈ tags m.
Proof.
  unfold getAllTags. cbn zeta.
  destruct (foldl_tags (getAll s) []) as [Hnd Hel]; [constructor|].
  set (all := foldl _ _ _) in *.
  pose proof (RegistrySort.Array_sort_permutation _ (default_compare (λ tag, tag)) all)
    as Hperm.
  pose proof (RegistrySort.Array_sort_sorted _ (default_compare (λ tag, tag)) all
                (default_compare_consistent _ _)) as Hsorted.
  set (sorted := RegistrySort.Array_sort _ all) in *.
  split.
  - apply strictly_sorted; [done|]. by rewrite Hperm.
  - intros tag. rewrite Hperm, Hel. split; [|by right].
    by intros [?%elem_of_nil|?].
Qed.

End sorted_queries.

(** ** [getAnimationsByIds] *)

(** X29: [getAnimationsByIds] returns the metadata of the ids that are
    registered, in the order of the ids given (an id given twice is answered
    twice) and leaves the unregistered ids out. *)
Theorem getAnimationsByIds_skips_unknown_ids tr ids :
  id <$> getAnimationsByIds ids (run empty tr)
  = List.filter (λ i, has i (run empty tr)) ids
  ∧ ∀ m, m ∈ getAnimationsByIds ids (run empty tr) → m ∈ getAll (run empty tr).
Proof.
  pose proof (run_listed tr empty empty_listed) as Hs.
  set (s := run empty tr) in *. pose proof Hs as [_ _ Hids]. split.
  - induction ids as [|i ids IH]; [done|].
    unfold getAnimationsByIds in *.
    change (omap ?f (i :: ids)) with
      (match f i with Some y => y :: omap f ids | None => omap f ids end).
    cbn [List.filter]. unfold has, Registry.has, getMetadataById at 1.
    destruct (Registry.entries (registry_of s) !! i) as [e|] eqn:He.
    + rewrite bool_decide_eq_true_2 by by eexists. cbn [fmap option_fmap option_map].
      rewrite fmap_cons, IH. f_equal. by eapply Hids.
    + rewrite bool_decide_eq_false_2 by by intros [? ?]. exact IH.
  - intros m (i & _ & Hm)%list_elem_of_omap. apply getAll_elem; [done|].
    unfold getMetadataById in *.
    destruct (Registry.entries (registry_of s) !! i) as [e|] eqn:He; [|done].
    cbn in Hm. injection Hm as <-. by rewrite (Hids _ _ He), He.
Qed.

(** ** [preloadCategory] *)

Lemma preloadCategory_requested c s :
  (preloadCategory c s).2 = requested (id <$> getByCategory c s) s.
Proof.
  unfold preloadCategory, requested.
  enough (∀ l out s0,
            (foldl (λ acc m, (acc.1 ++ [(getById (id m) acc.2).1], (getById (id m) acc.2).2))
                   (out, s0) l).2
            = foldl (λ s i, (getById i s).2) s0 (id <$> l)) as Hgen by apply Hgen.
  induction l as [|m l IH]; intros out s0; [done|]. cbn. apply IH.
Qed.

Lemma getById_frame i s :
  Registry.entries (registry_of (getById i s).2) = Registry.entries (registry_of s)
  ∧ Registry.loadedCache (registry_of (getById i s).2) = Registry.loadedCache (registry_of s)
  ∧ order (getById i s).2 = order s
  ∧ (∀ j, loaded_or_loading j s → loaded_or_loading j (getById i s).2)
  ∧ (is_Some (Registry.entries (registry_of s) !! i) →
     loaded_or_loading i (getById i s).2)
  ∧ (loaded_or_loading i s → (getById i s).2 = s).
Proof.
  unfold getById, loaded_or_loading, Registry.getById. cbn [snd registry_of order].
  destruct s as [r o]. cbn [registry_of order].
  destruct (Registry.entries r !! i) as [e|] eqn:He; cbn [snd].
  2:{ split_and!; try done; by intros [? ?]. }
  destruct (Registry.loadedCache r !! i) as [a|] eqn:Ha; cbn [snd].
  { split_and!; try done; intros _; left; by eexists. }
  destruct (Registry.loadingPromises r !! i) as [p|] eqn:Hp; cbn [snd].
  { split_and!; try done; intros _; right; by eexists. }
  cbn. split_and!; try done.
  - intros j [?|[q Hq]]; [by left|]. right.
    destruct (decide (j = i)) as [->|Hj]; [congruence|].
    rewrite lookup_insert_ne by done. by eexists.
  - intros _. right. rewrite lookup_insert_eq. by eexists.
  - by intros [[? ?]|[? ?]].
Qed.

Lemma requested_frame ids : ∀ s,
  Registry.entries (registry_of (requested ids s)) = Registry.entries (registry_of s)
  ∧ Registry.loadedCache (registry_of (requested ids s))
    = Registry.loadedCache (registry_of s)
  ∧ order (requested ids s) = order s
  ∧ (∀ j, loaded_or_loading j s → loaded_or_loading j (requested ids s))
  ∧ (Forall (λ i, is_Some (Registry.entries (registry_of s) !! i)) ids →
     Forall (λ i, loaded_or_loading i (requested ids s)) ids)
  ∧ (Forall (λ i, loaded_or_loading i s) ids → requested ids s = s).
Proof.
  induction ids as [|i ids IH]; intros s.
  { split_and!; try done. }
  cbn [requested foldl]. fold (requested ids (getById i s).2).
  destruct (getById_frame i s) as (He & Hc & Ho & Hkeep & Hmark & Hnoop).
  destruct (IH (getById i s).2) as (He' & Hc' & Ho' & Hkeep' & Hmark' & Hnoop').
  split_and!.
  - by rewrite He'.
  - by rewrite Hc'.
  - by rewrite Ho'.
  - intros j Hj. by apply Hkeep', Hkeep.
  - intros [Hi Hids]%Forall_cons. constructor.
    + by apply Hkeep', Hmark.
    + apply Hmark'. by rewrite He.
  - intros [Hi Hids]%Forall_cons. rewrite (Hnoop Hi). rewrite (Hnoop Hi) in Hnoop'.
    by apply Hnoop'.
Qed.

(** X30: [preloadCategory] leaves the entries, their order and the cache as they
    are; after it every animation of the category is loaded or has its load
    under way; and calling it again before anything settles starts no load
    and changes nothing. *)
Theorem preloadCategory_starts_each_load_once tr c :
  getAll (preloadCategory c (run empty tr)).2 = getAll (run empty tr)
  ∧ Registry.loadedCache (registry_of (preloadCategory c (run empty tr)).2)
    = Registry.loadedCache (registry_of (run empty tr))
  ∧ (∀ m, m ∈ getByCategory c (run empty tr) →
       is_Some (Registry.loadedCache (registry_of (preloadCategory c (run empty tr)).2)
                  !! id m)
       ∨ is_Some (Registry.loadingPromises
                    (registry_of (preloadCategory c (run empty tr)).2) !! id m))
  ∧ (preloadCategory c (preloadCategory c (run empty tr)).2).2
    = (preloadCategory c (run empty tr)).2.
Proof.
  pose proof (run_listed tr empty empty_listed) as Hs.
  set (s := run empty tr) in *.
  rewrite !preloadCategory_requested.
  set (ids := id <$> getByCategory c s).
  destruct (requested_frame ids s) as (He & Hc & Ho & _ & Hmark & _).
  assert (getAll (requested ids s) = getAll s) as Hall.
  { unfold getAll. by rewrite He, Ho. }
  assert (Forall (λ i, loaded_or_loading i (requested ids s)) ids) as Hdone.
  { apply Hmark. apply Forall_forall. intros i (m & -> & Hm)%list_elem_of_fmap.
    apply elem_of_List_filter in Hm as [Hm _].
    apply (getAll_elem s m Hs) in Hm. unfold getMetadataById in Hm.
    destruct (Registry.entries (registry_of s) !! id m); [by eexists|done]. }
  split_and!; [done|done| |].
  - intros m Hm. eapply Forall_forall in Hdone; [exact Hdone|].
    apply list_elem_of_fmap. by exists m.
  - unfold getByCategory at 1. rewrite Hall. fold (getByCategory c s). fold ids.
    by apply requested_frame.
Qed.

End CatalogueFacts.

(** ** The hover-play manager *)

Module HoverPlayFacts.
Import HoverPlay.


Lemma set_delete_head x s : length (set_delete x (x :: s)) ≤ length s.
Proof.
  unfold set_delete. rewrite filter_cons_False by (intros H; by apply H).
  apply length_filter.
Qed.

Lemma set_delete_Forall (P : string → Prop) x s : Forall P s → Forall P (set_delete x s).
Proof.
  intros H. apply Forall_forall. intros y Hy.
  apply list_elem_of_filter in Hy as [_ Hy]. by eapply Forall_forall in H.
Qed.

Lemma set_add_length x s : length (set_add x s) ≤ S (length s).
Proof. unfold set_add. case_match; [lia|]. rewrite length_app. cbn. lia. Qed.

Lemma set_add_Forall (P : string → Prop) x s : P x → Forall P s → Forall P (set_add x s).
Proof.
  intros Hx Hs. unfold set_add. case_match; [done|]. apply Forall_app. by repeat constructor.
Qed.

Lemma unregister_active x m :
  activeAnimations (unregister x m) = set_delete x (activeAnimations m)
  ∧ maxConcurrent (unregister x m) = maxConcurrent m.
Proof. unfold unregister. by case_match. Qed.

Lemma truthy_spec s : truthy s = true ↔ s ≠ ""%string.
Proof.
  unfold truthy. rewrite negb_true_iff. apply bool_decide_eq_false.
Qed.

(** One [register] keeps the bound when the ids in play are non-empty strings. *)
Lemma register_bound i c m :
  i ≠ ""%string → Forall (λ j, j ≠ ""%string) (activeAnimations m) →
  getActiveCount m ≤ maxConcurrent m → 0 < maxConcurrent m →
  Forall (λ j, j ≠ ""%string) (activeAnimations (register i c m).2)
  ∧ getActiveCount (register i c m).2 ≤ maxConcurrent (register i c m).2
  ∧ maxConcurrent (register i c m).2 = maxConcurrent m.
Proof.
  intros Hi Hne Hle Hpos. unfold register, getActiveCount in *.
  destruct (set_has i (activeAnimations m)); [done|]. cbn.
  case_decide as Hfull.
  - destruct (activeAnimations m) as [|o s] eqn:Hact; [cbn in *; lia|].
    pose proof Hne as [Ho Hs]%Forall_cons.
    rewrite (proj2 (truthy_spec o)) by done.
    destruct (unregister_active o m) as [-> ->]. rewrite Hact. split_and!; [|..|done].
    + apply set_add_Forall; [done|]. by apply set_delete_Forall.
    + pose proof (set_add_length i (set_delete o (o :: s))).
      pose proof (set_delete_head o s). cbn in *. lia.
  - split_and!; [by apply set_add_Forall|..|done].
    pose proof (set_add_length i (activeAnimations m)). lia.
Qed.

(** With non-empty ids, no sequence of [register] calls on a fresh manager
    ever has more than three active animations. *)
Lemma register_all_bound calls :
  Forall (λ ic, ic.1 ≠ ""%string) calls →
  ∀ m, Forall (λ j, j ≠ ""%string) (activeAnimations m) →
    getActiveCount m ≤ maxConcurrent m → 0 < maxConcurrent m →
    getActiveCount (register_all calls m).2 ≤ maxConcurrent m.
Proof.
  induction 1 as [|[i c] calls Hi _ IH]; intros m Hne Hle Hpos; [done|].
  cbn in *. destruct (register_bound i c m) as (H1 & H2 & H3); try done.
  rewrite <- H3. apply IH; [done..|lia].
Qed.

Lemma set_has_false x s : x ∉ s → set_has x s = false.
Proof. intros H. by apply bool_decide_eq_false_2. Qed.

(** [register] of an id that is not active, below the cap. *)
Lemma register_below_cap i c m :
  i ∉ activeAnimations m → length (activeAnimations m) < maxConcurrent m →
  register i c m =
  (true, mkManager (activeAnimations m ++ [i]) (map_set i c (cleanupFunctions m))
                   (maxConcurrent m) (called m)).
Proof.
  intros Hi Hlt. unfold register. rewrite set_has_false by done.
  rewrite decide_False by lia. unfold set_add. by rewrite set_has_false.
Qed.

(** [register] of an id that is not active, at the cap, when the oldest id
    is a non-empty string with a stored cleanup. *)
Lemma register_at_cap i c o co rest cleanups m :
  activeAnimations m = o :: rest → cleanupFunctions m = (o, co) :: cleanups →
  NoDup (o :: rest ++ [i]) → o ≠ ""%string → map_get o cleanups = None →
  maxConcurrent m ≤ length (o :: rest) →
  register i c m =
  (true, mkManager (rest ++ [i]) (map_set i c (map_delete o cleanups))
                   (maxConcurrent m) (called m ++ [co])).
Proof.
  intros Hact Hcl Hnd Ho Hget Hcap.
  apply NoDup_cons in Hnd as [Ho' Hnd].
  assert (i ∉ o :: rest) as Hi.
  { apply NoDup_app in Hnd as (_ & Hd & _). intros [->|Hin]%elem_of_cons.
    - apply Ho', elem_of_app. right. by apply list_elem_of_singleton.
    - apply (Hd i Hin). by apply list_elem_of_singleton. }
  assert (o ∉ rest) as Hor.
  { intros Hin. apply Ho', elem_of_app. by left. }
  assert (set_delete o (o :: rest) = rest) as Hdel.
  { unfold set_delete. rewrite filter_cons_False by (intros H; by apply H).
    clear -Hor. induction rest as [|y rest IH]; [done|].
    apply not_elem_of_cons in Hor as [Hy Hor].
    rewrite filter_cons_True by done. by rewrite IH. }
  unfold register. rewrite Hact, set_has_false by done.
  rewrite decide_True by done. rewrite (proj2 (truthy_spec o)) by done.
  unfold unregister. rewrite Hcl, Hact. cbn [map_get].
  rewrite decide_True by done. cbn [activeAnimations cleanupFunctions maxConcurrent called].
  rewrite Hdel. unfold set_add. rewrite set_has_false.
  2:{ intros Hin. apply Hi. by right. }
  unfold map_delete at 1. rewrite filter_cons_False by (cbn; intros H; by apply H).
  reflexivity.
Qed.

Lemma map_delete_absent {V} k (m : list (string * V)) :
  Forall (λ kv, kv.1 ≠ k) m → map_delete k m = m.
Proof.
  induction 1 as [|kv m Hkv _ IH]; [done|].
  unfold map_delete. rewrite filter_cons_True by done. f_equal. apply IH.
Qed.

(** An id is not in a list of ids it differs from. *)
Ltac fresh_id :=
  repeat (apply not_elem_of_cons; split; [congruence|]); apply not_elem_of_nil.

(** With a non-empty first id, registering A, B, C and then D evicts exactly
    A: its cleanup runs once, B, C and D are active. *)
Lemma fifo_eviction A B C D cA cB cC cD :
  NoDup [A; B; C; D] → A ≠ ""%string →
  register_all [(A, cA); (B, cB); (C, cC); (D, cD)] new
  = ([true; true; true; true], mkManager [B; C; D] [(B, cB); (C, cC); (D, cD)] 3 [cA]).
Proof.
  intros Hnd HA.
  assert (A ≠ B ∧ A ≠ C ∧ A ≠ D ∧ B ≠ C ∧ B ≠ D ∧ C ≠ D) as (?&?&?&?&?&?).
  { apply NoDup_cons in Hnd as [HA' Hnd]. apply NoDup_cons in Hnd as [HB' Hnd].
    apply NoDup_cons in Hnd as [HC' _].
    split_and!; intros ->;
      solve [ apply HA'; rewrite !elem_of_cons; auto
            | apply HB'; rewrite !elem_of_cons; auto
            | apply HC'; rewrite !elem_of_cons; auto ]. }
  cbn [register_all].
  rewrite (register_below_cap A cA new) by (cbn; first [lia | fresh_id]).
  cbn [fst snd activeAnimations cleanupFunctions maxConcurrent called new app map_set].
  rewrite (register_below_cap B cB) by (cbn; first [lia | fresh_id]).
  cbn [fst snd activeAnimations cleanupFunctions maxConcurrent called app map_set].
  rewrite decide_False by done.
  rewrite (register_below_cap C cC) by (cbn; first [lia | fresh_id]).
  cbn [fst snd activeAnimations cleanupFunctions maxConcurrent called app map_set].
  rewrite !decide_False by done.
  rewrite (register_at_cap D cD A cA [B; C] [(B, cB); (C, cC)]);
    [ | reflexivity | reflexivity | exact Hnd | exact HA
      | cbn [map_get]; by rewrite !decide_False by done | cbn; lia ].
  cbn [fst snd]. rewrite map_delete_absent by (repeat constructor; cbn; congruence).
  cbn [map_set app]. rewrite !decide_False by done. reflexivity.
Qed.

(** C2 fails on the code at the empty id: the guard [if (oldestId)] tests
    the truthiness of the oldest id, and the empty string is falsy, so the
    oldest registration is not evicted and a fourth animation becomes
    active, with no cleanup callback invoked. *)
Theorem empty_id_defeats_the_bound :
  (register_all [(""%string, 10); ("a"%string, 11); ("b"%string, 12); ("c"%string, 13)] new).1
    = [true; true; true; true]
  ∧ getActiveCount
      (register_all [(""%string, 10); ("a"%string, 11); ("b"%string, 12); ("c"%string, 13)]
                    new).2 = 4
  ∧ called
      (register_all [(""%string, 10); ("a"%string, 11); ("b"%string, 12); ("c"%string, 13)]
                    new).2 = []
  ∧ isActive ""%string
      (register_all [(""%string, 10); ("a"%string, 11); ("b"%string, 12); ("c"%string, 13)]
                    new).2 = true.
Proof. vm_compute. repeat split. Qed.


Lemma map_get_None {V} k (m : list (string * V)) : map_get k m = None ↔ k ∉ m.*1.
Proof.
  induction m as [|[k' v] m IH]; cbn.
  - split; [intros _; apply not_elem_of_nil|done].
  - case_decide as Hk; subst.
    + split; [done|]. intros H. exfalso. apply H. by left.
    + rewrite IH, not_elem_of_cons. intuition congruence.
Qed.


Lemma map_set_fresh {V} k (v : V) m : k ∉ m.*1 → map_set k v m = m ++ [(k, v)].
Proof.
  induction m as [|[k' v'] m IH]; cbn; [done|].
  intros [Hk Hm]%not_elem_of_cons. rewrite decide_False by done. by rewrite IH.
Qed.

Lemma map_delete_keys {V} k (m : list (string * V)) :
  (map_delete k m).*1 = set_delete k (m.*1).
Proof.
  unfold map_delete, set_delete. induction m as [|[k' v] m IH]; [done|].
  rewrite fmap_cons. cbn [fst].
  destruct (decide (k' = k)) as [->|Hk].
  - rewrite !filter_cons_False by (cbn; intros H; by apply H). apply IH.
  - rewrite !filter_cons_True by done. rewrite fmap_cons. cbn [fst]. by rewrite IH.
Qed.

Lemma set_delete_absent k s : k ∉ s → set_delete k s = s.
Proof.
  unfold set_delete. induction s as [|x s IH]; [done|].
  intros [Hx Hs]%not_elem_of_cons. rewrite filter_cons_True by done. by rewrite IH.
Qed.

Lemma set_delete_NoDup k s : NoDup s → NoDup (set_delete k s).
Proof. apply NoDup_filter. Qed.


Lemma set_delete_elem k j s : j ∈ set_delete k s ↔ j ∈ s ∧ j ≠ k.
Proof. unfold set_delete. rewrite list_elem_of_filter. tauto. Qed.



Lemma unregister_paired i m : paired m → paired (unregister i m).
Proof.
  intros [Heq Hnd]. unfold unregister, paired.
  destruct (map_get i (cleanupFunctions m)) as [c|] eqn:Hget; cbn.
  - rewrite map_delete_keys, <- Heq. split; [done|]. by apply set_delete_NoDup.
  - apply map_get_None in Hget. rewrite <- Heq in Hget.
    rewrite set_delete_absent by done. done.
Qed.

Lemma unregister_max i m : maxConcurrent (unregister i m) = maxConcurrent m.
Proof. unfold unregister. by case_match. Qed.

Lemma stopAll_paired m : paired (stopAll m).
Proof. split; [done|]. cbn. constructor. Qed.

Lemma evicted_paired m : paired m → paired (evicted m).
Proof.
  intros H. unfold evicted. case_decide; [|done].
  destruct (activeAnimations m); [done|]. case_match; [|done]. by apply unregister_paired.
Qed.

Lemma evicted_active_subset m j : j ∈ activeAnimations (evicted m) → j ∈ activeAnimations m.
Proof.
  unfold evicted. case_decide; [|done].
  destruct (activeAnimations m) as [|o s] eqn:Hact; [by rewrite Hact|].
  case_match; [|by rewrite Hact].
  destruct (unregister_active o m) as [-> _]. rewrite Hact.
  intros [? _]%set_delete_elem. done.
Qed.

Lemma evicted_max m : maxConcurrent (evicted m) = maxConcurrent m.
Proof.
  unfold evicted. case_decide; [|done].
  destruct (activeAnimations m); [done|]. case_match; [|done]. apply unregister_max.
Qed.

Lemma register_accepted i c m :
  i ∉ activeAnimations m → paired m →
  register i c m =
  (true, mkManager (activeAnimations (evicted m) ++ [i])
                   (cleanupFunctions (evicted m) ++ [(i, c)])
                   (maxConcurrent m) (called (evicted m))).
Proof.
  intros Hi Hp. pose proof (evicted_paired m Hp) as [Heq Hnd].
  assert (i ∉ activeAnimations (evicted m)) as Hi'.
  { intros Hin. by apply Hi, evicted_active_subset. }
  unfold register. rewrite set_has_false by done. fold (evicted m).
  unfold set_add. rewrite set_has_false by done.
  rewrite map_set_fresh by by rewrite <- Heq.
  by rewrite evicted_max.
Qed.

Lemma register_rejected i c m : i ∈ activeAnimations m → register i c m = (false, m).
Proof. intros Hi. unfold register, set_has. by rewrite bool_decide_eq_true_2. Qed.

Lemma register_paired i c m : paired m → paired (register i c m).2.
Proof.
  intros Hp. destruct (decide (i ∈ activeAnimations m)) as [Hi|Hi].
  - by rewrite register_rejected.
  - rewrite register_accepted by done. unfold paired.
    cbn [snd activeAnimations cleanupFunctions].
    pose proof (evicted_paired m Hp) as [Heq Hnd]. split.
    + by rewrite fmap_app, <- Heq.
    + apply NoDup_app. split_and!; [done| |apply NoDup_singleton].
      intros j Hj ->%list_elem_of_singleton. by apply Hi, evicted_active_subset.
Qed.

Lemma evict_excess_paired fuel : ∀ m m', paired m → evict_excess fuel m = Some m' → paired m'.
Proof.
  induction fuel as [|fuel IH]; intros m m' Hp; cbn; case_decide; try done.
  - by intros [= <-].
  - destruct (activeAnimations m); [by apply IH|].
    case_match; apply IH; [by apply unregister_paired|done].
  - by intros [= <-].
Qed.

Lemma step_paired fuel m o m' : paired m → step fuel m o = Some m' → paired m'.
Proof.
  intros Hp. destruct o as [i c|i| |max]; cbn.
  - intros [= <-]. by apply register_paired.
  - intros [= <-]. by apply unregister_paired.
  - intros [= <-]. apply stopAll_paired.
  - apply evict_excess_paired. done.
Qed.

Lemma run_paired fuel ops : ∀ m m', paired m → run fuel m ops = Some m' → paired m'.
Proof.
  induction ops as [|o ops IH]; intros m m' Hp; cbn.
  - by intros [= <-].
  - destruct (step fuel m o) as [m1|] eqn:Hstep; [|done]. cbn.
    apply IH. by eapply step_paired.
Qed.

Lemma new_paired : paired new.
Proof. split; [done|constructor]. Qed.

(** X1: In every state the manager reaches, the active ids are the keys of the
    stored cleanups, in the same order, and no id is active twice. *)
Theorem active_ids_and_cleanups_stay_paired fuel ops m :
  run fuel new ops = Some m →
  activeAnimations m = (cleanupFunctions m).*1 ∧ NoDup (activeAnimations m).
Proof. apply run_paired, new_paired. Qed.

Lemma active_ids_and_cleanups_stay_paired_witness :
  activeAnimations (mkManager ["b"; "c"; "d"] [("b", 2); ("c", 3); ("d", 4)] 3 [1])%string
  = [("b", 2); ("c", 3); ("d", 4)]%string.*1 ∧ NoDup ["b"; "c"; "d"]%string.
Proof.
  apply (active_ids_and_cleanups_stay_paired 0
           [Register "a" 1; Register "b" 2; Register "b" 9; Register "c" 3;
            Register "d" 4]%string).
  reflexivity.
Defined.

(** ** The bound, for ids that are non-empty strings *)











(** ** [unregister] *)



(** ** Eviction is FIFO *)



(** ** Cleanups are called at most once *)









(** ** [setMaxConcurrent] *)




(** X7: When the oldest active id is the empty string and the active set is
    larger than the new limit, the loop of [setMaxConcurrent] never ends: the
    oldest id is falsy, nothing is unregistered, and the loop condition stays
    true, whatever the number of iterations. *)
Theorem setMaxConcurrent_spins_on_the_empty_id m rest max fuel :
  activeAnimations m = ""%string :: rest →
  Z.to_nat (Z.max 1 max) ≤ length rest →
  setMaxConcurrent max fuel m = None.
Proof.
  intros Hact Hlt. unfold setMaxConcurrent. rewrite Hact.
  induction fuel as [|fuel IH]; cbn [evict_excess activeAnimations maxConcurrent].
  - rewrite decide_True by (cbn; lia). done.
  - rewrite decide_True by (cbn; lia). exact IH.
Qed.

Lemma setMaxConcurrent_spins_on_the_empty_id_witness :
  setMaxConcurrent 1 1000
    (register_all [(""%string, 10); ("a"%string, 11)] new).2 = None.
Proof.
  apply (setMaxConcurrent_spins_on_the_empty_id _ ["a"%string]); [reflexivity|cbn; lia].
Defined.

End HoverPlayFacts.

(** ** JavaScript numbers *)

Module NumberFacts.
Import Number.
#[local] Open Scope Q_scope.

(** A result of this size is far from the range where doubles overflow. *)
Lemma fit_small q : - inject_Z (2 ^ 60) <= q → q <= inject_Z (2 ^ 60) → fit q = Finite q.
Proof.
  intros Hlo Hhi. unfold fit.
  assert (inject_Z (2 ^ 60) < overflow) as Hbig by (vm_compute; reflexivity).
  destruct (Qle_bool overflow q) eqn:H1.
  { apply Qle_bool_iff in H1. lra. }
  destruct (Qle_bool q (- overflow)) eqn:H2; [|done].
  apply Qle_bool_iff in H2. lra.
Qed.

(** ** Multiplication by zero and by NaN *)

Lemma mul_NaN_r x : mul x NaN = NaN.
Proof. by destruct x. Qed.

Lemma mul_zero_finite d q : d == 0 → ∃ r, mul (Finite d) (Finite q) = Finite r ∧ r == 0.
Proof.
  intros Hd. exists (d * q). split; [|rewrite Hd; ring].
  cbn [mul]. apply fit_small; rewrite Hd.
  - assert (0 * q == 0) as -> by ring. rewrite <- inject_Z_opp.
    change 0 with (inject_Z 0). rewrite <- Zle_Qle. lia.
  - assert (0 * q == 0) as -> by ring. change 0 with (inject_Z 0).
    rewrite <- Zle_Qle. lia.
Qed.

(** ** [Math.max(0.25, Math.min(2, s))] *)

Lemma clamp_cases s :
  match s with
  | NaN => Math_max (Finite (1 # 4)) (Math_min (Finite 2) s) = NaN
  | _ => clamped (Math_max (Finite (1 # 4)) (Math_min (Finite 2) s))
  end.
Proof.
  destruct s as [q| | |]; cbn [Math_min Math_max clamped];
    [|split; apply Qle_bool_iff; reflexivity..|done].
  split; [apply Q.le_max_l|]. apply Q.max_lub; [lra|apply Q.le_min_l].
Qed.

Lemma clamp_finite q :
  ∃ r, Math_max (Finite (1 # 4)) (Math_min (Finite 2) (Finite q)) = Finite r
       ∧ (1 # 4 <= q → q <= 2 → r == q)
       ∧ (q < 1 # 4 → r == 1 # 4)
       ∧ (2 < q → r == 2).
Proof.
  exists (Qmax (1 # 4) (Qmin 2 q)). split; [done|]. split_and!.
  - intros H1 H2. rewrite (Q.min_r 2 q) by done. by apply Q.max_r.
  - intros H1. rewrite (Q.min_r 2 q) by lra. apply Q.max_l. lra.
  - intros H2. rewrite (Q.min_l 2 q) by lra. by apply Q.max_r.
Qed.

(** ** The size attributes *)

#[local] Open Scope Z_scope.

Lemma unsigned_long_range x : 0 ≤ unsigned_long x < 2 ^ 32.
Proof. destruct x; cbn [unsigned_long]; [apply Z.mod_pos_bound|..]; lia. Qed.

Lemma dimension_range default x :
  0 ≤ default ≤ 2147483647 → 0 ≤ dimension default x ≤ 2147483647.
Proof.
  intros Hd. unfold dimension. pose proof (unsigned_long_range x).
  case_decide; lia.
Qed.

(** An integer from 0 to [2^31 - 1] is stored as given. *)
Lemma dimension_of_Z default n : 0 ≤ n ≤ 2147483647 → dimension default (of_Z n) = n.
Proof.
  intros Hn. unfold dimension, of_Z, unsigned_long. cbn [inject_Z Qnum Qden].
  rewrite Z.quot_1_r, Z.mod_small by lia. by rewrite decide_True by lia.
Qed.

(** A number from 0 to below [2^31] is truncated. *)
Lemma dimension_truncates default q :
  (0 <= q)%Q → (q < inject_Z (2 ^ 31))%Q → dimension default (Finite q) = Qfloor q.
Proof.
  intros H0 H1. destruct q as [n d]. unfold dimension, unsigned_long.
  cbn [Qnum Qden Qfloor].
  assert (0 ≤ n) as Hn by (unfold Qle in H0; cbn in H0; lia).
  assert (n < 2 ^ 31 * Z.pos d) as Hlt by (unfold Qlt in H1; cbn in H1; lia).
  rewrite Z.quot_div_nonneg by lia.
  assert (0 ≤ n / Z.pos d < 2 ^ 31) as Hq.
  { split; [apply Z.div_pos; lia|]. apply Z.div_lt_upper_bound; lia. }
  rewrite Z.mod_small by lia. by rewrite decide_True by lia.
Qed.


(** A negative integer down to [-2^31] gives the default. *)
Lemma dimension_negative default n :
  - 2 ^ 31 ≤ n < 0 → dimension default (of_Z n) = default.
Proof.
  intros Hn. unfold dimension, of_Z, unsigned_long. cbn [inject_Z Qnum Qden].
  rewrite Z.quot_1_r.
  assert (n mod 2 ^ 32 = n + 2 ^ 32) as ->.
  { symmetry. apply (Z.mod_unique_pos _ _ (-1)); lia. }
  by rewrite decide_False by lia.
Qed.

End NumberFacts.

(** ** The performance monitor *)

Module MonitorFacts.
Import Number NumberFacts Monitor.

Lemma record_all_snoc readings fps m :
  record_all (readings ++ [fps]) m = recordFPS fps (record_all readings m).
Proof. unfold record_all. by rewrite foldl_app. Qed.

Lemma record_all_max readings m :
  maxHistoryLength (record_all readings m) = maxHistoryLength m.
Proof.
  induction readings as [|fps readings IH] using rev_ind; [done|].
  by rewrite record_all_snoc.
Qed.

Lemma tail_drop_snoc {A} k (l : list A) x :
  k < length l → tail (drop k l ++ [x]) = drop (S k) (l ++ [x]).
Proof.
  intros Hk. rewrite drop_app_le by lia.
  destruct (drop k l) as [|y l'] eqn:Hd.
  { apply (f_equal length) in Hd. rewrite length_drop in Hd. cbn in Hd. lia. }
  cbn. f_equal. replace (S k) with (k + 1) by lia. by rewrite <- drop_drop, Hd.
Qed.

Lemma history_of_new readings :
  fpsHistory (record_all readings new) = drop (length readings - 60) readings.
Proof.
  induction readings as [|fps readings IH] using rev_ind; [done|].
  rewrite record_all_snoc. unfold recordFPS. cbn [fpsHistory].
  rewrite record_all_max, IH. cbn [maxHistoryLength new].
  rewrite !length_app, length_drop. cbn [length].
  case_decide as Hfull.
  - rewrite tail_drop_snoc by lia. f_equal. lia.
  - replace (length readings - 60) with 0 by lia.
    replace (length readings + 1 - 60) with 0 by lia. done.
Qed.

(** X8: The history holds the newest 60 readings, oldest first: recording into a
    full history drops its oldest reading. [reset] forgets what was recorded
    before it and keeps the length of 60. *)
Theorem history_is_the_last_60_readings readings :
  fpsHistory (record_all readings new) = drop (length readings - 60) readings
  ∧ ∀ before,
      fpsHistory (record_all readings (reset (record_all before new)))
      = drop (length readings - 60) readings.
Proof.
  split; [apply history_of_new|]. intros before.
  unfold reset. rewrite record_all_max. apply history_of_new.
Qed.

#[local] Open Scope Q_scope.

(** The sum of integers of moderate size is the exact sum. *)
Lemma sum_of_integers (ns : list Z) (acc : Q) (B : Z) :
  Forall (λ n, (Z.abs n ≤ B)%Z) ns → (0 ≤ B)%Z →
  - inject_Z (2 ^ 60) <= acc - inject_Z (Z.of_nat (length ns) * B) →
  acc + inject_Z (Z.of_nat (length ns) * B) <= inject_Z (2 ^ 60) →
  ∃ q, foldl add (Finite acc) (of_Z <$> ns) = Finite q
       ∧ q == acc + inject_Z (foldr Z.add 0%Z ns).
Proof.
  intros Hns HB. revert acc Hns. induction ns as [|n ns IH]; intros acc Hns Hlo Hhi.
  - exists acc. split; [done|]. cbn. change (inject_Z 0) with 0. lra.
  - apply Forall_cons in Hns as [Hn Hns]. cbn [fmap list_fmap foldl foldr].
    cbn [length] in Hlo, Hhi. rewrite Nat2Z.inj_succ in Hlo, Hhi.
    assert (- inject_Z B <= inject_Z n ∧ inject_Z n <= inject_Z B) as [Hn1 Hn2].
    { rewrite <- inject_Z_opp, <- !Zle_Qle. lia. }
    replace (Z.succ (Z.of_nat (length ns)) * B)%Z
      with (Z.of_nat (length ns) * B + B)%Z in Hlo, Hhi by lia.
    rewrite inject_Z_plus in Hlo, Hhi.
    assert (0 <= inject_Z (Z.of_nat (length ns) * B)) as Hpos.
    { change 0 with (inject_Z 0). rewrite <- Zle_Qle. lia. }
    unfold of_Z at 1. cbn [add]. rewrite fit_small by lra.
    destruct (IH (acc + inject_Z n) Hns) as (q & Hq & Hsum); [lra|lra|].
    exists q. split; [exact Hq|]. rewrite Hsum, inject_Z_plus. ring.
Qed.

Lemma foldr_add_bounds (ns : list Z) (lo hi : Z) :
  Forall (λ n, (lo ≤ n ≤ hi)%Z) ns →
  (Z.of_nat (length ns) * lo ≤ foldr Z.add 0 ns ≤ Z.of_nat (length ns) * hi)%Z.
Proof.
  induction ns as [|n ns IH]; intros Hns; [cbn; lia|].
  apply Forall_cons in Hns as [Hn Hns]. specialize (IH Hns).
  cbn [foldr length]. lia.
Qed.

Lemma round_lower (lo : Z) x : inject_Z lo <= x → (lo ≤ Qfloor (x + (1 # 2)))%Z.
Proof.
  intros Hx. pose proof (Qlt_floor (x + (1 # 2))) as Hlt.
  assert (inject_Z lo < inject_Z (Qfloor (x + (1 # 2)) + 1)) as H by lra.
  rewrite <- Zlt_Qlt in H. lia.
Qed.

Lemma round_upper (hi : Z) x : x <= inject_Z hi → (Qfloor (x + (1 # 2)) ≤ hi)%Z.
Proof.
  intros Hx. pose proof (Qfloor_le (x + (1 # 2))) as Hle.
  assert (inject_Z (Qfloor (x + (1 # 2))) < inject_Z (hi + 1)) as H.
  { rewrite inject_Z_plus. change (inject_Z 1) with 1. lra. }
  rewrite <- Zlt_Qlt in H. lia.
Qed.

Lemma integers_of (l : list number) (lo hi : Z) :
  Forall (λ x, ∃ n : Z, x = of_Z n ∧ (lo ≤ n ≤ hi)%Z) l →
  ∃ ns, l = of_Z <$> ns ∧ Forall (λ n, (lo ≤ n ≤ hi)%Z) ns.
Proof.
  induction l as [|x l IH]; intros Hl; [by exists []|].
  apply Forall_cons in Hl as [(n & -> & Hn) Hl]. destruct (IH Hl) as (ns & -> & Hns).
  exists (n :: ns). split; [done|]. by constructor.
Qed.

Lemma add_NaN_absorbs l : foldl add NaN l = NaN.
Proof. induction l as [|x l IH]; [done|]. cbn. by destruct x. Qed.

Lemma sum_with_NaN acc l : NaN ∈ l → foldl add acc l = NaN.
Proof.
  revert acc. induction l as [|x l IH]; intros acc Hin; [by apply elem_of_nil in Hin|].
  apply elem_of_cons in Hin as [<-|Hin].
  - cbn. replace (add acc NaN) with NaN by (by destruct acc). apply add_NaN_absorbs.
  - cbn. by apply IH.
Qed.

Lemma getAverageFPS_nonempty m :
  fpsHistory m ≠ [] →
  getAverageFPS m
  = Math_round (div (sum (fpsHistory m)) (of_Z (Z.of_nat (length (fpsHistory m))))).
Proof. intros Hne. unfold getAverageFPS. by destruct (fpsHistory m). Qed.

(** The average of a history of integers. *)
Lemma average_of_integers (h : list number) (lo hi : Z) :
  h ≠ [] → (length h ≤ 60)%nat →
  Forall (λ x, ∃ n : Z, x = of_Z n ∧ (lo ≤ n ≤ hi)%Z) h →
  (60 * Z.max (Z.abs lo) (Z.abs hi) ≤ 2 ^ 53)%Z →
  ∃ a : Z, getAverageFPS (mkMonitor h 60) = of_Z a ∧ (lo ≤ a ≤ hi)%Z.
Proof.
  intros Hne Hlen Hh Hsize.
  destruct (integers_of h lo hi Hh) as (ns & -> & Hns).
  rewrite length_fmap in Hlen.
  assert (ns ≠ []) as Hns' by (by intros ->).
  set (B := Z.max (Z.abs lo) (Z.abs hi)) in *.
  assert (0 < Z.of_nat (length ns) ≤ 60)%Z as Hk.
  { destruct ns; [done|]. cbn [length] in *. lia. }
  assert (Z.of_nat (length ns) * B ≤ 2 ^ 53)%Z as Hfits by nia.
  assert (inject_Z (Z.of_nat (length ns) * B) <= inject_Z (2 ^ 60)) as Hfits'.
  { rewrite <- Zle_Qle. lia. }
  destruct (sum_of_integers ns 0 B) as (q & Hq & Hsum).
  { eapply Forall_impl; [exact Hns|]. intros n Hn. cbn beta in Hn. lia. }
  { lia. }
  { lra. }
  { lra. }
  pose proof (foldr_add_bounds ns lo hi Hns) as [Hs1 Hs2].
  set (S := foldr Z.add 0%Z ns) in *. set (k := Z.of_nat (length ns)) in *.
  assert (q == inject_Z S) as HqS by (rewrite Hsum; ring).
  assert (0 < inject_Z k) as Hkpos.
  { change 0 with (inject_Z 0). rewrite <- Zlt_Qlt. lia. }
  assert (inject_Z lo <= q / inject_Z k) as Hlo.
  { apply Qle_shift_div_l; [done|]. rewrite HqS, <- inject_Z_mult, <- Zle_Qle. lia. }
  assert (q / inject_Z k <= inject_Z hi) as Hhi.
  { apply Qle_shift_div_r; [done|]. rewrite HqS, <- inject_Z_mult, <- Zle_Qle. lia. }
  assert (- inject_Z (2 ^ 60) <= inject_Z lo ∧ inject_Z hi <= inject_Z (2 ^ 60)) as [Hb1 Hb2].
  { rewrite <- inject_Z_opp, <- !Zle_Qle. lia. }
  rewrite getAverageFPS_nonempty by done. cbn [fpsHistory].
  rewrite length_fmap. fold k. unfold sum. rewrite Hq.
  unfold of_Z at 1. cbn [div].
  destruct (Qeq_bool (inject_Z k) 0) eqn:Hz.
  { apply Qeq_bool_iff in Hz. lra. }
  rewrite fit_small by lra. cbn [Math_round].
  exists (Qfloor (q / inject_Z k + (1 # 2))). split; [done|].
  split; [by apply round_lower|by apply round_upper].
Qed.

(** X9: [getAverageFPS] is 0 while no reading is stored, and NaN as soon as the
    history holds a NaN. When every reading recorded is an integer between
    [lo] and [hi], small enough for the sum of 60 readings to be exact
    (60 times the larger of [|lo|] and [|hi|] is at most [2^53]), the average
    is an integer between [lo] and [hi]. *)
Theorem average_lies_between_the_readings :
  (∀ m, fpsHistory m = [] → getAverageFPS m = Finite 0)
  ∧ (∀ m, NaN ∈ fpsHistory m → getAverageFPS m = NaN)
  ∧ ∀ readings (lo hi : Z),
      readings ≠ [] →
      Forall (λ x, ∃ n : Z, x = of_Z n ∧ (lo ≤ n ≤ hi)%Z) readings →
      (60 * Z.max (Z.abs lo) (Z.abs hi) ≤ 2 ^ 53)%Z →
      ∃ a : Z, getAverageFPS (record_all readings new) = of_Z a ∧ (lo ≤ a ≤ hi)%Z.
Proof.
  split_and!.
  - intros m Hh. unfold getAverageFPS. by rewrite Hh.
  - intros m Hin. rewrite getAverageFPS_nonempty.
    + unfold sum. by rewrite (sum_with_NaN _ _ Hin).
    + intros Hh. rewrite Hh in Hin. by apply elem_of_nil in Hin.
  - intros readings lo hi Hne Hin Hsize.
    pose proof (history_of_new readings) as Hh.
    pose proof (record_all_max readings new) as Hmax. cbn [maxHistoryLength new] in Hmax.
    destruct (record_all readings new) as [h k]. cbn [fpsHistory maxHistoryLength] in *.
    subst h k. apply average_of_integers; [| |by apply Forall_drop|done].
    + intros Hd. apply (f_equal length) in Hd. rewrite length_drop in Hd.
      destruct readings; [done|]. cbn [length] in Hd. lia.
    + rewrite length_drop. lia.
Qed.

Lemma average_lies_between_the_readings_witness :
  ∃ a : Z, getAverageFPS (record_all [of_Z 58; of_Z 60; of_Z 59; of_Z 60] new) = of_Z a
           ∧ (58 ≤ a ≤ 60)%Z.
Proof.
  apply (proj2 (proj2 average_lies_between_the_readings)
           [of_Z 58; of_Z 60; of_Z 59; of_Z 60] 58%Z 60%Z).
  - done.
  - repeat (apply Forall_cons; split; [eexists; split; [reflexivity|lia]|]). constructor.
  - vm_compute. congruence.
Defined.

End MonitorFacts.

(** ** The canvas pool *)

Module PoolFacts.
Import Number NumberFacts Pool.

Lemma pop_length {A} (l : list A) : length (pop l).2 ≤ length l.
Proof.
  unfold pop. destruct (reverse l) as [|x rest] eqn:Hr; cbn; [done|].
  rewrite length_reverse. apply (f_equal length) in Hr.
  rewrite length_reverse in Hr. cbn in Hr. lia.
Qed.

Lemma acquire_pool w h s :
  pool (acquire w h s).2 = (pop (pool s)).2 ∧ maxSize (acquire w h s).2 = maxSize s.
Proof. unfold acquire. by destruct (pop (pool s)) as [[c|] rest]. Qed.

Lemma step_bound s o :
  length (pool s) ≤ maxSize s →
  length (pool (step s o)) ≤ maxSize (step s o) ∧ maxSize (step s o) = maxSize s.
Proof.
  intros Hle. destruct o as [w h|c|]; cbn.
  - destruct (acquire_pool w h s) as [-> ->]. pose proof (pop_length (pool s)). lia.
  - unfold release. case_decide as Hlt; [|done].
    destruct (getContext2d c) as [ctx c']. cbn. rewrite length_app. cbn. lia.
  - lia.
Qed.

Lemma run_bound ops s :
  length (pool s) ≤ maxSize s →
  length (pool (run s ops)) ≤ maxSize s.
Proof.
  revert s. induction ops as [|o ops IH]; intros s Hle; [done|]. cbn.
  destruct (step_bound s o Hle) as [H1 H2]. rewrite <- H2. apply IH. lia.
Qed.

(** C9, as stated, fails: a canvas bound to a WebGL context has no 2D
    context, [getContext('2d')] is [null] for it, and [release] retains it in
    the idle pool without any [clearRect]. *)
Lemma release_retains_webgl_canvas_uncleared :
  pool (release (mkCanvas 5 800 600 OtherContext) new) = [mkCanvas 5 800 600 OtherContext]
  ∧ clears (release (mkCanvas 5 800 600 OtherContext) new) = [].
Proof. vm_compute. by split. Qed.

(** C9, amended: [release] retains the buffer exactly when the idle pool
    holds fewer than [maxSize] (10) buffers, and then clears it first
    ([clearRect] over its whole area) whenever a 2D context can be obtained
    for it; otherwise the call changes nothing (the buffer is dropped, not
    cleared). [acquire] makes no [clearRect] call. Over every sequence of
    acquire, release and clear calls the idle pool holds at most 10 buffers. *)
Theorem pool_release_acquire_discipline :
  (∀ s canvas, length (pool s) < maxSize s →
     pool (release canvas s) = pool s ++ [(getContext2d canvas).2]
     ∧ dom (release canvas s) =
         dom s ++ (if (getContext2d canvas).1
                   then [ClearRect (cref canvas) 0 0 (width canvas) (height canvas)]
                   else []))
  ∧ (∀ canvas, mode canvas ≠ OtherContext → (getContext2d canvas).1 = true)
  ∧ (∀ s canvas, maxSize s ≤ length (pool s) → release canvas s = s)
  ∧ (∀ s w h, clears (acquire w h s).2 = clears s)
  ∧ (∀ ops, length (pool (run new ops)) ≤ 10).
Proof.
  split_and!.
  - intros s canvas Hlt. unfold release. rewrite decide_True by done.
    destruct (getContext2d canvas) as [[|] c']; cbn; by rewrite ?app_nil_r.
  - intros canvas Hm. unfold getContext2d. by destruct (mode canvas).
  - intros s canvas Hge. unfold release. rewrite decide_False; [done|lia].
  - intros s w h. unfold clears, acquire.
    destruct (pop (pool s)) as [[c|] rest]; cbn; [done|].
    by rewrite filter_app, filter_cons_False, app_nil_r.
  - intros ops. apply (run_bound ops new). cbn. lia.
Qed.

Lemma pool_release_acquire_discipline_witness :
  pool (release (mkCanvas 5 800 600 Context2d) new) = [mkCanvas 5 800 600 Context2d]
  ∧ dom (release (mkCanvas 5 800 600 Context2d) new) = [ClearRect 5 0 0 800 600].
Proof.
  apply (proj1 pool_release_acquire_discipline new (mkCanvas 5 800 600 Context2d)).
  cbn. lia.
Defined.


Lemma pop_snoc {A} (l : list A) x : pop (l ++ [x]) = (Some x, l).
Proof. unfold pop. by rewrite reverse_snoc, reverse_involutive. Qed.

Lemma release_below s canvas :
  length (pool s) < maxSize s →
  release canvas s
  = mkPool (pool s ++ [(getContext2d canvas).2]) (maxSize s) (created s)
           (if (getContext2d canvas).1
            then dom s ++ [ClearRect (cref canvas) 0 0 (width canvas) (height canvas)]
            else dom s).
Proof.
  intros Hlt. unfold release. rewrite decide_True by done.
  by destruct (getContext2d canvas).
Qed.

Lemma acquire_snoc w h l canvas n c d :
  acquire w h (mkPool (l ++ [canvas]) n c d) = (resized w h canvas, mkPool l n c d).
Proof. unfold acquire. cbn [pool]. by rewrite pop_snoc. Qed.

Lemma getContext2d_cref canvas : cref (getContext2d canvas).2 = cref canvas.
Proof. unfold getContext2d. by destruct (mode canvas). Qed.

(** X10: The pool is a stack: when [release] retains a canvas, the next
    [acquire] hands back that very element, without creating one, and the
    idle pool is as it was before the release. The element has the size the
    DOM stores for the numbers asked for: an integer from 0 to [2^31 - 1] as
    given, a fraction below [2^31] truncated, a negative integer down to
    [-2^31] replaced by the default 300 (150 for the height), NaN by 0. *)
Theorem acquire_reuses_the_last_released_canvas s canvas w h :
  length (pool s) < maxSize s →
  (acquire w h (release canvas s)).1
    = mkCanvas (cref canvas) (dimension 300 w) (dimension 150 h)
               (mode (getContext2d canvas).2)
  ∧ pool (acquire w h (release canvas s)).2 = pool s
  ∧ created (acquire w h (release canvas s)).2 = created s
  ∧ dom (acquire w h (release canvas s)).2 = dom (release canvas s)
  ∧ (0 ≤ width (acquire w h (release canvas s)).1 ≤ 2147483647)%Z
  ∧ (∀ n, (0 ≤ n ≤ 2147483647)%Z → w = of_Z n →
       width (acquire w h (release canvas s)).1 = n)
  ∧ (∀ q, (0 <= q)%Q → (q < inject_Z (2 ^ 31))%Q → w = Finite q →
       width (acquire w h (release canvas s)).1 = Qfloor q)
  ∧ (∀ n, (- 2 ^ 31 ≤ n < 0)%Z → w = of_Z n →
       width (acquire w h (release canvas s)).1 = 300%Z)
  ∧ (w = NaN → width (acquire w h (release canvas s)).1 = 0%Z).
Proof.
  intros Hlt. rewrite release_below by done. rewrite acquire_snoc.
  cbn [fst snd pool created dom]. unfold resized. cbn [width].
  rewrite getContext2d_cref. split_and!; try done.
  - apply dimension_range. lia.
  - apply dimension_range. lia.
  - intros n Hn ->. by apply dimension_of_Z.
  - intros q H0 H1 ->. by apply dimension_truncates.
  - intros n Hn ->. by apply dimension_negative.
  - by intros ->.
Qed.

Lemma acquire_reuses_the_last_released_canvas_witness :
  (acquire (of_Z 640) (of_Z 480) (release (mkCanvas 5 800 600 NoContext) new)).1
    = mkCanvas 5 640 480 Context2d
  ∧ pool (acquire (of_Z 640) (of_Z 480) (release (mkCanvas 5 800 600 NoContext) new)).2
    = [].
Proof.
  destruct (acquire_reuses_the_last_released_canvas new (mkCanvas 5 800 600 NoContext)
              (of_Z 640) (of_Z 480)) as (H1 & H2 & _).
  - cbn. lia.
  - split; [exact H1|exact H2].
Defined.

(** X11: [release] does not check whether the canvas is already in the pool: a
    canvas released twice (the second time as the first release left it) is
    pooled twice, and the next two [acquire] calls hand out the same element
    to two owners, creating none. *)
Theorem double_release_hands_one_canvas_to_two_owners s canvas w1 h1 w2 h2 :
  length (pool s) + 2 ≤ maxSize s →
  cref (acquire w1 h1 (release (getContext2d canvas).2 (release canvas s))).1
    = cref canvas
  ∧ cref (acquire w2 h2
            (acquire w1 h1 (release (getContext2d canvas).2 (release canvas s))).2).1
    = cref canvas
  ∧ created (acquire w2 h2
               (acquire w1 h1 (release (getContext2d canvas).2 (release canvas s))).2).2
    = created s.
Proof.
  intros Hlt. rewrite (release_below s) by lia.
  rewrite release_below by (cbn [pool maxSize]; rewrite length_app; cbn; lia).
  cbn [pool maxSize created dom]. rewrite !acquire_snoc. cbn [fst snd].
  rewrite acquire_snoc. unfold resized. cbn [fst snd cref created].
  by rewrite !getContext2d_cref.
Qed.

Lemma double_release_hands_one_canvas_to_two_owners_witness :
  cref (acquire (of_Z 10) (of_Z 10) (release (getContext2d (mkCanvas 5 800 600 NoContext)).2
                         (release (mkCanvas 5 800 600 NoContext) new))).1 = 5
  ∧ cref (acquire (of_Z 20) (of_Z 20)
            (acquire (of_Z 10) (of_Z 10) (release (getContext2d (mkCanvas 5 800 600 NoContext)).2
                              (release (mkCanvas 5 800 600 NoContext) new))).2).1 = 5
  ∧ created (acquire (of_Z 20) (of_Z 20)
               (acquire (of_Z 10) (of_Z 10) (release (getContext2d (mkCanvas 5 800 600 NoContext)).2
                                 (release (mkCanvas 5 800 600 NoContext) new))).2).2 = 0.
Proof.
  apply (double_release_hands_one_canvas_to_two_owners new (mkCanvas 5 800 600 NoContext)).
  cbn. lia.
Defined.

End PoolFacts.

(** ** The canvas engine *)

Module EngineFacts.
Import ListFacts Number NumberFacts Engine.
#[local] Open Scope Q_scope.

(** Arithmetic on timestamps stays symbolic in the proofs below. *)
#[local] Arguments Qplus : simpl never.
#[local] Arguments Qminus : simpl never.
#[local] Arguments Qmult : simpl never.
#[local] Arguments Qdiv : simpl never.
#[local] Arguments Qopp : simpl never.
#[local] Arguments Qle_bool : simpl never.
#[local] Arguments Qeq_bool : simpl never.
#[local] Arguments Qfloor : simpl never.
#[local] Arguments Qmax : simpl never.
#[local] Arguments Qmin : simpl never.
#[local] Arguments inject_Z : simpl never.
#[local] Arguments mul : simpl never.
#[local] Arguments fit : simpl never.
#[local] Arguments dimension : simpl never.
#[local] Arguments Math_max : simpl never.
#[local] Arguments Math_min : simpl never.

Lemma Qlt_bool_true a b : Qlt_bool a b = true ↔ a < b.
Proof.
  unfold Qlt_bool. rewrite negb_true_iff. split.
  - intros H. apply Qnot_le_lt. intros Hle. apply Qle_bool_iff in Hle. congruence.
  - intros H. apply not_true_is_false. intros Hle. apply Qle_bool_iff in Hle. lra.
Qed.

Lemma Qlt_bool_false a b : Qlt_bool a b = false ↔ b <= a.
Proof.
  unfold Qlt_bool. rewrite negb_false_iff. apply Qle_bool_iff.
Qed.

(** Unfolding the monad. *)
Ltac step_monad :=
  cbv [mbind M_bind mret M_ret this assign emit when throw rearm requestAnimationFrame
       call getContext];
  cbn [fst snd].

(** ** One frame callback, case by case *)

Lemma animationLoop_cases w timestamp now :
  animationLoop timestamp now w =
  match isPlaying w.1, animation w.1 with
  | true, Some a =>
    if tooSoon w.1 timestamp then (Returned tt, rearmed w)
    else
      let w1 := (timed timestamp w.1, w.2) in
      match ctx w.1 with
      | None => (Threw Canvas_context_not_initialized, w1)
      | Some c =>
        let context := context_of now w1.1 c in
        let w2 := logged (Call (name a) Update context) w1 in
        if raises a Update then (Threw (Module_error Update), w2)
        else
          let w3 := logged (Call (name a) Render context) w2 in
          if raises a Render then (Threw (Module_error Render), w3)
          else (Returned tt, rearmed w3)
      end
  | _, _ => (Returned tt, w)
  end.
Proof.
  destruct w as [e h]. unfold animationLoop, tooSoon, timed, context_of, rearmed, logged.
  step_monad. cbn [fst snd].
  destruct (isPlaying e); [|done]. destruct (animation e) as [a|]; [|done].
  destruct (Qlt_bool 0 (fpsThrottle e)); cbn [andb].
  - destruct (Qlt_bool (timestamp - lastFrameTime e) (fpsThrottle e)); [done|].
    cbn. destruct (Qeq_bool (lastTime e) 0); cbn;
      destruct (Qle_bool 1000 (timestamp - fpsUpdateTime e)); cbn;
      destruct (ctx e); cbn; try done;
      destruct (raises a Update); cbn; try done;
      destruct (raises a Render); cbn; done.
  - cbn. destruct (Qeq_bool (lastTime e) 0); cbn;
      destruct (Qle_bool 1000 (timestamp - fpsUpdateTime e)); cbn;
      destruct (ctx e); cbn; try done;
      destruct (raises a Update); cbn; try done;
      destruct (raises a Render); cbn; done.
Qed.

(** What an accepted frame does to the timing fields. *)
Lemma timed_fields t e :
  lastTime (timed t e) = t
  ∧ deltaTime (timed t e) = t - (if Qeq_bool (lastTime e) 0 then t else lastTime e)
  ∧ fps (timed t e) =
      (if Qle_bool 1000 (t - fpsUpdateTime e)
       then Math_round (inject_Z (frameCount e + 1) * 1000 / (t - fpsUpdateTime e))
       else fps e)
  ∧ frameCount (timed t e) =
      (if Qle_bool 1000 (t - fpsUpdateTime e) then 0 else frameCount e + 1)%Z
  ∧ fpsUpdateTime (timed t e) =
      (if Qle_bool 1000 (t - fpsUpdateTime e) then t else fpsUpdateTime e)
  ∧ lastFrameTime (timed t e) =
      (if Qlt_bool 0 (fpsThrottle e) then t else lastFrameTime e).
Proof.
  unfold timed.
  destruct (Qlt_bool 0 (fpsThrottle e)); cbn;
    destruct (Qeq_bool (lastTime e) 0); cbn;
    destruct (Qle_bool 1000 (t - fpsUpdateTime e)); cbn; done.
Qed.

(** ... and what it leaves alone. *)
Lemma timed_frame t e :
  isPlaying (timed t e) = isPlaying e ∧ animation (timed t e) = animation e
  ∧ ctx (timed t e) = ctx e ∧ speed (timed t e) = speed e
  ∧ fpsThrottle (timed t e) = fpsThrottle e ∧ startTime (timed t e) = startTime e
  ∧ params (timed t e) = params e ∧ canvas (timed t e) = canvas e
  ∧ targetFPS (timed t e) = targetFPS e.
Proof.
  unfold timed.
  destruct (Qlt_bool 0 (fpsThrottle e)); cbn;
    destruct (Qeq_bool (lastTime e) 0); cbn;
    destruct (Qle_bool 1000 (t - fpsUpdateTime e)); cbn; done.
Qed.

Lemma animationLoop_effects w t now :
  effects (animationLoop t now w).2.2 = effects w.2 ++ frame_effects w t now.
Proof.
  rewrite animationLoop_cases. unfold frame_effects.
  destruct (isPlaying w.1); [|by rewrite app_nil_r].
  destruct (animation w.1) as [a|]; [|by rewrite app_nil_r].
  destruct (tooSoon w.1 t); [done|]. cbn zeta.
  destruct (ctx w.1) as [c|]; [|by rewrite app_nil_r].
  destruct (raises a Update); [done|].
  destruct (raises a Render); cbn; by rewrite <- ?app_assoc.
Qed.

Lemma update_contexts_app (w w' : CanvasEngine * host) more :
  effects w'.2 = effects w.2 ++ more →
  update_contexts w' =
  update_contexts w
    ++ omap (λ x, match x with Call _ Update c => Some c | _ => None end) more.
Proof. intros H. unfold update_contexts. by rewrite H, omap_app. Qed.

(** ** Methods, the constructor and sessions *)

(** Running a method body on a world given by its parts, one case per
    value of the fields and module flags it branches on. *)
Ltac split_on_state :=
  repeat (cbn;
    match goal with
    | |- context [match animation ?e with _ => _ end] => destruct (animation e) eqn:?
    | |- context [match animationFrameId ?e with _ => _ end] =>
        destruct (animationFrameId e) eqn:?
    | |- context [match ctx ?e with _ => _ end] => destruct (ctx e) eqn:?
    | |- context [match resizeObserver ?e with _ => _ end] =>
        destruct (resizeObserver e) eqn:?
    | |- context [if isPlaying ?e then _ else _] => destruct (isPlaying e) eqn:?
    | |- context [if has_cleanup ?a then _ else _] => destruct (has_cleanup a) eqn:?
    | |- context [if raises ?a ?h then _ else _] => destruct (raises a h) eqn:?
    | |- context [if bool_decide ?P then _ else _] => destruct (bool_decide P) eqn:?
    | |- context [if Qeq_bool ?x ?y then _ else _] => destruct (Qeq_bool x y) eqn:?
    end);
  cbn.

Ltac run_method :=
  unfold loadAnimation, restart, destroy, cleanupPrevious, stop, pause, play,
         setSpeed, setParameters, getFPS, onResize, setupCanvas;
  step_monad; split_on_state.

(** The engine after a frame callback, up to [animationFrameId]. *)
Lemma animationLoop_engine w t now :
  (animationLoop t now w).2.1 = (if executes w.1 t then timed t w.1 else w.1)
  ∨ ∃ frame, (animationLoop t now w).2.1
             = set_animationFrameId frame (if executes w.1 t then timed t w.1 else w.1).
Proof.
  rewrite animationLoop_cases. unfold executes.
  destruct (isPlaying w.1); [|by left]. destruct (animation w.1) as [a|]; [|by left].
  destruct (tooSoon w.1 t); cbn [andb negb]; [right; by eexists|]. cbn zeta.
  destruct (ctx w.1); [|by left].
  destruct (raises a Update); [by left|]. destruct (raises a Render); [by left|].
  right. by eexists.
Qed.

(** The constructor, case by case. *)
Lemma new_cases nav dpr el t :
  new nav dpr el t =
  let d := if Qeq_bool dpr 0 then 1 else dpr in
  let low := detectLowEndDevice nav in
  if match t with ctx2d => provides_2d el | webgl => provides_webgl el end
  then
    (Returned tt,
     (mkEngine (mkCanvas (dimension 300 (mul (Finite (rect_width el)) (Finite d)))
                         (dimension 150 (mul (Finite (rect_height el)) (Finite d)))
                         (rect_width el) (rect_height el)
                         (provides_2d el) (provides_webgl el))
               (Some t) None None false 0 0 0 0%Z 0%Z 0 (Finite 1) ∅ (Some true) low
               (if low then 30%Z else 60%Z) (if low then 1000 / 30 else 0) 0,
      mkHost (match t with ctx2d => [Scale d d] | webgl => [] end ++ [Observe]) 0))
  else
    (Threw (Failed_to_get_context t), (set_ctx None (initial nav el), mkHost [] 0)).
Proof.
  unfold new, constructor, setupCanvas, setupResizeObserver, initial. step_monad.
  generalize (detectLowEndDevice nav) as low. intros low.
  destruct el as [wd ht rw rh p2d pgl]. cbn.
  destruct t; [destruct p2d|destruct pgl]; destruct low; cbn; done.
Qed.

Lemma session_snoc cs c w : session (cs ++ [c]) w = (invoke c (session cs w)).2.
Proof. unfold session. by rewrite foldl_app. Qed.

(** No method but [setSpeed] assigns the speed. *)
Lemma invoke_speed c w :
  speed (invoke c w).2.1 = speed w.1
  ∨ ∃ s, c = SetSpeed s
         ∧ speed (invoke c w).2.1 = Math_max (Finite (1 # 4)) (Math_min (Finite 2) s).
Proof.
  destruct c; cbn [invoke];
    try (left; destruct w as [e h]; run_method; done).
  - right. eexists. split; [done|]. by destruct w.
  - left. destruct (animationLoop_engine w timestamp now) as [->|[frame ->]]; cbn;
      destruct (executes w.1 timestamp); try done;
      by destruct (timed_frame timestamp w.1) as (_&_&_&->&_).
Qed.

(** The speed of an engine, whatever was called on it since its
    construction: a number from 0.25 to 2, or NaN, and NaN only if
    [setSpeed] was handed NaN. *)
Lemma session_speed nav dpr el t w cs :
  new nav dpr el t = (Returned tt, w) →
  (clamped (speed (session cs w).1) ∨ speed (session cs w).1 = NaN)
  ∧ (Forall (λ c, c ≠ SetSpeed NaN) cs → clamped (speed (session cs w).1)).
Proof.
  intros Hnew. induction cs as [|c cs [IH1 IH2]] using rev_ind.
  - rewrite new_cases in Hnew. cbn zeta in Hnew.
    destruct (match t with ctx2d => provides_2d el | webgl => provides_webgl el end);
      [|done].
    injection Hnew as <-. cbn [session foldl fst speed clamped].
    assert ((1 # 4 <= 1 ∧ 1 <= 2)%Q) by (split; apply Qle_bool_iff; reflexivity).
    split; [by left|done].
  - rewrite session_snoc.
    destruct (invoke_speed c (session cs w)) as [->|(s & -> & ->)].
    + split; [done|]. intros [Hcs _]%Forall_app. by apply IH2.
    + pose proof (clamp_cases s) as Hs. split.
      * destruct s; [left|left|left|right]; done.
      * intros [_ [Hc _]%Forall_cons]%Forall_app. destruct s; try done.
Qed.

(** ** C5: delta-time on the first frame after [play] *)

Lemma frames_cons t stamps w :
  frames (t :: stamps) w = (animationLoop t t;; frames stamps) w.
Proof. done. Qed.

Lemma play_cases now w :
  play now w =
  if isPlaying w.1 then (Returned tt, w)
  else (Returned tt,
        rearmed (set_fpsUpdateTime now
                   (set_frameCount 0%Z
                      (set_lastTime 0
                         (set_startTime now (set_isPlaying true w.1)))), w.2)).
Proof.
  destruct w as [e h]. unfold play, rearmed. step_monad. by destruct (isPlaying e).
Qed.

Lemma callbacks_effects cbs w :
  ∃ more, effects (callbacks cbs w).2.2 = effects w.2 ++ more.
Proof.
  revert w. induction cbs as [|[t now] cbs IH]; intros w.
  - exists []. cbn. by rewrite app_nil_r.
  - cbn [callbacks]. unfold mbind, M_bind.
    pose proof (animationLoop_effects w t now) as Hone.
    destruct (animationLoop t now w) as [[[]|err] w1]; cbn [fst snd] in *.
    + destruct (IH w1) as [more Hmore]. exists (frame_effects w t now ++ more).
      by rewrite Hmore, Hone, app_assoc.
    + by eexists.
Qed.

(** After a reset of [lastTime], the first context handed to [update] has
    as delta-time zero times the speed, whatever frames are dropped or idle
    before it. *)
Lemma first_context_after_reset cbs w c rest :
  lastTime w.1 == 0 →
  update_contexts (callbacks cbs w).2 = update_contexts w ++ c :: rest →
  ∃ d, d == 0 ∧ ac_deltaTime c = mul (Finite d) (speed w.1).
Proof.
  revert w. induction cbs as [|[t now] cbs IH]; intros w Hlast Hctx.
  - by apply not_longer_than_itself in Hctx.
  - cbn [callbacks] in Hctx. unfold mbind, M_bind in Hctx.
    rewrite animationLoop_cases in Hctx.
    destruct (isPlaying w.1) eqn:Hp; [|by apply (IH w)].
    destruct (animation w.1) as [a|] eqn:Ha; [|by apply (IH w)].
    destruct (tooSoon w.1 t) eqn:Hsoon.
    { apply (IH (rearmed w)); [done|].
      rewrite Hctx. f_equal. unfold update_contexts, rearmed. cbn.
      by rewrite omap_app, app_nil_r. }
    cbn zeta in Hctx. cbn [fst snd] in Hctx. destruct (ctx w.1) as [c0|] eqn:Hc0.
    2:{ by apply not_longer_than_itself in Hctx. }
    set (context := context_of now (timed t w.1) c0) in *.
    assert (∃ d, d == 0 ∧ ac_deltaTime context = mul (Finite d) (speed w.1)) as Hzero.
    { exists (deltaTime (timed t w.1)). split.
      - destruct (timed_fields t w.1) as (_ & -> & _).
        rewrite (proj2 (Qeq_bool_iff _ _) Hlast). ring.
      - subst context. cbn [context_of ac_deltaTime].
        by destruct (timed_frame t w.1) as (_ & _ & _ & -> & _). }
    assert (∀ (w' : CanvasEngine * host) more,
              effects w'.2 = effects w.2 ++ Call (name a) Update context :: more →
              update_contexts w' = update_contexts w ++ c :: rest →
              c = context) as Hfirst.
    { intros w' more Hmore Heq.
      rewrite (update_contexts_app w w' _ Hmore) in Heq.
      apply app_inv_head in Heq. cbn in Heq. by injection Heq as ->. }
    enough (c = context) as -> by done.
    destruct (raises a Update).
    { eapply Hfirst; [|exact Hctx]. reflexivity. }
    destruct (raises a Render).
    { eapply Hfirst; [|exact Hctx]. cbn. rewrite <- app_assoc. cbn. reflexivity. }
    match type of Hctx with update_contexts (callbacks cbs ?w3).2 = _ =>
      destruct (callbacks_effects cbs w3) as [more Hmore] end.
    eapply Hfirst; [|exact Hctx].
    rewrite Hmore. cbn. rewrite <- !app_assoc. cbn. reflexivity.
Qed.

(** C5, as stated, fails for a history in which the engine is already
    playing: [play()] then returns at once and resets nothing, and the next
    executed frame measures its delta-time from the previous frame. Here the
    engine plays since time 0 and ran a frame at 100 ms; after [play()] at
    110 ms the frame at 116 ms is handed a delta-time of 16 ms. *)
Lemma play_when_already_playing_keeps_delta :
  isPlaying (frames [100] (play 0 (loaded desktop)).2).2.1 = true
  ∧ map ac_deltaTime
      (update_contexts
         (frames [116] (play 110 (frames [100] (play 0 (loaded desktop)).2).2).2).2)
    = [Finite 0; Finite 16].
Proof. vm_compute. by split. Qed.

(** C5, amended: when [play()] is called on an engine that is not already
    playing, whatever its history, the first frame executed afterwards
    (frames dropped by the throttle do not count, and the clock may read
    anything inside the callbacks) hands [update] and [render] a context
    whose [deltaTime] is 0 times the speed multiplier: 0 when the speed is a
    finite number, NaN when it is NaN. And whatever was called on an engine
    since its construction, its speed is a number from 0.25 to 2 or NaN, and
    it is NaN only if [setSpeed] was handed NaN. *)
Theorem first_frame_after_play_has_zero_delta :
  (∀ w now cbs c rest,
     isPlaying w.1 = false →
     update_contexts (callbacks cbs (play now w).2).2 = update_contexts w ++ c :: rest →
     (∀ q, speed w.1 = Finite q → ∃ d, ac_deltaTime c = Finite d ∧ d == 0)
     ∧ (speed w.1 = NaN → ac_deltaTime c = NaN))
  ∧ (∀ nav dpr el t w cs,
       new nav dpr el t = (Returned tt, w) →
       (clamped (speed (session cs w).1) ∨ speed (session cs w).1 = NaN)
       ∧ (Forall (λ c, c ≠ SetSpeed NaN) cs → clamped (speed (session cs w).1))).
Proof.
  split; [|apply session_speed].
  intros w now cbs c rest Hidle Hctx. rewrite play_cases, Hidle in Hctx. cbn [snd] in Hctx.
  match type of Hctx with update_contexts (callbacks cbs ?w1).2 = _ =>
    destruct (first_context_after_reset cbs w1 c rest) as (d & Hd & Hc) end.
  - cbn. reflexivity.
  - rewrite Hctx. f_equal. unfold update_contexts, rearmed. cbn.
    by rewrite omap_app, app_nil_r.
  - cbn [rearmed fst speed set_animationFrameId set_fpsUpdateTime set_frameCount
         set_lastTime set_startTime set_isPlaying] in Hc.
    split.
    + intros q Hq. rewrite Hc, Hq. by apply mul_zero_finite.
    + intros Hq. rewrite Hc, Hq. apply mul_NaN_r.
Qed.

Lemma first_frame_after_play_has_zero_delta_witness :
  match update_contexts
          (callbacks [(100, 101); (116, 118)] (play 0 (loaded desktop)).2).2 with
  | c :: _ => ∃ d, ac_deltaTime c = Finite d ∧ d == 0
  | [] => False
  end.
Proof.
  pose proof (proj1 first_frame_after_play_has_zero_delta (loaded desktop) 0
                [(100, 101); (116, 118)]) as H.
  destruct (update_contexts
              (callbacks [(100, 101); (116, 118)] (play 0 (loaded desktop)).2).2)
    as [|c rest] eqn:E.
  - vm_compute in E. discriminate E.
  - destruct (H c rest) as [Hfinite _]; [reflexivity|reflexivity|].
    apply (Hfinite 1). reflexivity.
Defined.

(** ** C6: the FPS measurement *)








(** ** C7: the throttle of low-end devices *)

Lemma calls_logged h x w :
  calls h (logged x w) = (calls h w + if is_call h x then 1 else 0)%nat.
Proof.
  unfold calls, logged. cbn. rewrite filter_app, length_app. f_equal.
  rewrite filter_cons. destruct (is_call h x); by case_decide.
Qed.

Lemma calls_rearmed h w : calls h (rearmed w) = calls h w.
Proof.
  unfold calls, rearmed. cbn. rewrite filter_app, length_app.
  rewrite filter_cons_False by (cbn; congruence). cbn. lia.
Qed.

Lemma requests_logged_call m h c w : requests (logged (Call m h c) w) = requests w.
Proof.
  unfold requests, logged. cbn. rewrite filter_app, length_app.
  rewrite filter_cons_False by (cbn; congruence). cbn. lia.
Qed.

Lemma requests_rearmed w : requests (rearmed w) = S (requests w).
Proof.
  unfold requests, rearmed. cbn. rewrite filter_app, length_app.
  rewrite filter_cons_True by done. cbn. lia.
Qed.

(** One frame callback on a running engine: it returns and re-arms, and it
    either is dropped or runs one update/render pair. *)
Lemma frame_on_running a w t now :
  running a w →
  (animationLoop t now w).1 = Returned tt
  ∧ running a (animationLoop t now w).2
  ∧ fpsThrottle (animationLoop t now w).2.1 = fpsThrottle w.1
  ∧ requests (animationLoop t now w).2 = S (requests w)
  ∧ ((tooSoon w.1 t = true
      ∧ calls Update (animationLoop t now w).2 = calls Update w
      ∧ calls Render (animationLoop t now w).2 = calls Render w
      ∧ lastFrameTime (animationLoop t now w).2.1 = lastFrameTime w.1)
     ∨ (tooSoon w.1 t = false
        ∧ calls Update (animationLoop t now w).2 = S (calls Update w)
        ∧ calls Render (animationLoop t now w).2 = S (calls Render w)
        ∧ (Qlt_bool 0 (fpsThrottle w.1) = true →
           lastFrameTime (animationLoop t now w).2.1 = t))).
Proof.
  intros (Hp & Ha & [c Hc] & Hquiet). rewrite animationLoop_cases, Hp, Ha.
  destruct (tooSoon w.1 t) eqn:Hsoon.
  - cbn [fst snd]. split_and!; try done.
    + by apply requests_rearmed.
    + left. split_and!; try done; by apply calls_rearmed.
  - cbn zeta. rewrite Hc, !Hquiet. cbn [fst snd].
    destruct (timed_frame t w.1) as (Hp' & Ha' & Hc' & _ & Hthr & _).
    destruct (timed_fields t w.1) as (_ & _ & _ & _ & _ & Hlf).
    split_and!; try done.
    + unfold running.
      cbn [rearmed logged fst snd isPlaying animation ctx set_animationFrameId].
      rewrite Hp', Ha', Hc', Hp, Ha, Hc. by split_and!.
    + by rewrite requests_rearmed, !requests_logged_call.
    + right. split_and!; try done.
      * rewrite calls_rearmed, !calls_logged. cbn.
        rewrite (bool_decide_eq_true_2 (Update = Update)),
                (bool_decide_eq_false_2 (Render = Update)) by done.
        unfold calls. cbn. lia.
      * rewrite calls_rearmed, !calls_logged. cbn.
        rewrite (bool_decide_eq_true_2 (Render = Render)),
                (bool_decide_eq_false_2 (Update = Render)) by done.
        unfold calls. cbn. lia.
      * intros Hon.
        cbn [rearmed logged fst snd lastFrameTime set_animationFrameId].
        by rewrite Hlf, Hon.
Qed.

(** Any number of frame callbacks on a running engine: every one re-arms,
    every update is followed by its render, and there are at most as many
    pairs as callbacks. *)
Lemma callbacks_on_running a cbs w :
  running a w →
  (callbacks cbs w).1 = Returned tt
  ∧ running a (callbacks cbs w).2
  ∧ requests (callbacks cbs w).2 = (requests w + length cbs)%nat
  ∧ (calls Update (callbacks cbs w).2 ≤ calls Update w + length cbs)%nat
  ∧ (calls Update w ≤ calls Update (callbacks cbs w).2)%nat
  ∧ (calls Render (callbacks cbs w).2 + calls Update w
     = calls Update (callbacks cbs w).2 + calls Render w)%nat.
Proof.
  revert w. induction cbs as [|[t now] cbs IH]; intros w Hrun.
  - cbn. split_and!; try done; lia.
  - destruct (frame_on_running a w t now Hrun) as (Hret & Hrun1 & _ & Hreq & Hcase).
    cbn [callbacks]. unfold mbind, M_bind.
    destruct (animationLoop t now w) as [[[]|err] w1]; cbn [fst snd] in *; [|done].
    destruct (IH w1 Hrun1) as (H1 & H2 & H3 & H4 & H5 & H6).
    split_and!; try done; cbn [length]; destruct Hcase as [(_&?&?&_)|(_&?&?&_)]; lia.
Qed.

Lemma callbacks_cons_returned t now cbs w :
  (animationLoop t now w).1 = Returned tt →
  callbacks ((t, now) :: cbs) w = callbacks cbs (animationLoop t now w).2.
Proof.
  intros H. cbn [callbacks]. unfold mbind, M_bind.
  by destruct (animationLoop t now w) as [[[]|err] w1]; cbn in *.
Qed.

Lemma callbacks_app cbs1 cbs2 w :
  (callbacks cbs1 w).1 = Returned tt →
  callbacks (cbs1 ++ cbs2) w = callbacks cbs2 (callbacks cbs1 w).2.
Proof.
  revert w. induction cbs1 as [|[t now] cbs1 IH]; intros w H; [done|].
  cbn [app callbacks] in *. unfold mbind, M_bind in *.
  destruct (animationLoop t now w) as [[[]|err] w1]; [by apply IH|done].
Qed.

(** A frame that comes at least the interval after the last accepted one is
    accepted: it runs one update/render pair and becomes the last accepted
    frame. *)
Lemma frame_accepted a w t now :
  running a w → 0 < fpsThrottle w.1 → fpsThrottle w.1 <= t - lastFrameTime w.1 →
  (animationLoop t now w).1 = Returned tt
  ∧ running a (animationLoop t now w).2
  ∧ fpsThrottle (animationLoop t now w).2.1 = fpsThrottle w.1
  ∧ calls Update (animationLoop t now w).2 = S (calls Update w)
  ∧ calls Render (animationLoop t now w).2 = S (calls Render w)
  ∧ requests (animationLoop t now w).2 = S (requests w)
  ∧ lastFrameTime (animationLoop t now w).2.1 = t
  ∧ ∃ context,
      effects (animationLoop t now w).2.2
      = effects w.2 ++ [Call (name a) Update context; Call (name a) Render context;
                        RequestAnimationFrame (nextFrame w.2)].
Proof.
  intros Hrun Hon Hlate.
  destruct (frame_on_running a w t now Hrun) as (Hret & Hrun1 & Hthr & Hreq & Hcase).
  destruct Hcase as [(Hsoon & _)|(Hts & Hu & Hr & Hlast)].
  - exfalso. unfold tooSoon in Hsoon. apply andb_true_iff in Hsoon as [_ Hsoon].
    apply Qlt_bool_true in Hsoon. lra.
  - split_and!; try done; [apply Hlast; by apply Qlt_bool_true|].
    destruct Hrun as (Hp & Ha & [c Hc] & Hquiet).
    exists (context_of now (timed t w.1) c).
    rewrite animationLoop_effects. unfold frame_effects.
    by rewrite Hp, Ha, Hts, Hc, !Hquiet.
Qed.

(** Frames that all come less than the interval after the last accepted one
    are all dropped. *)
Lemma callbacks_dropped a cbs w :
  running a w → 0 < fpsThrottle w.1 →
  Forall (λ cb, cb.1 - lastFrameTime w.1 < fpsThrottle w.1) cbs →
  (callbacks cbs w).1 = Returned tt
  ∧ running a (callbacks cbs w).2
  ∧ fpsThrottle (callbacks cbs w).2.1 = fpsThrottle w.1
  ∧ lastFrameTime (callbacks cbs w).2.1 = lastFrameTime w.1
  ∧ calls Update (callbacks cbs w).2 = calls Update w
  ∧ calls Render (callbacks cbs w).2 = calls Render w.
Proof.
  revert w. induction cbs as [|[t now] cbs IH]; intros w Hrun Hon Hall; [done|].
  apply Forall_cons in Hall as [Hsoon Hall]. cbn [fst] in Hsoon.
  destruct (frame_on_running a w t now Hrun) as (Hret & Hrun1 & Hthr & _ & Hcase).
  rewrite (callbacks_cons_returned _ _ _ _ Hret).
  destruct Hcase as [(_ & Hu & Hr & Hlast)|(Hts & _)].
  - destruct (IH (animationLoop t now w).2 Hrun1) as (H1 & H2 & H3 & H4 & H5 & H6).
    + by rewrite Hthr.
    + by rewrite Hthr, Hlast.
    + split_and!; try done; congruence.
  - exfalso. unfold tooSoon in Hts.
    by rewrite (proj2 (Qlt_bool_true _ _) Hon), (proj2 (Qlt_bool_true _ _) Hsoon) in Hts.
Qed.

(** The throttle interval is set by the constructor only. *)
Lemma methods_keep_throttle w now a s ps rw rh dpr t :
  fpsThrottle (play now w).2.1 = fpsThrottle w.1
  ∧ fpsThrottle (pause w).2.1 = fpsThrottle w.1
  ∧ fpsThrottle (stop w).2.1 = fpsThrottle w.1
  ∧ fpsThrottle (restart now w).2.1 = fpsThrottle w.1
  ∧ fpsThrottle (setSpeed s w).2.1 = fpsThrottle w.1
  ∧ fpsThrottle (setParameters ps w).2.1 = fpsThrottle w.1
  ∧ fpsThrottle (loadAnimation a now w).2.1 = fpsThrottle w.1
  ∧ fpsThrottle (destroy now w).2.1 = fpsThrottle w.1
  ∧ fpsThrottle (onResize rw rh dpr now w).2.1 = fpsThrottle w.1
  ∧ fpsThrottle (animationLoop t now w).2.1 = fpsThrottle w.1.
Proof.
  split_and!; [destruct w as [e h]; run_method; done..|].
  destruct (animationLoop_engine w t now) as [->|[frame ->]]; cbn;
    destruct (executes w.1 t); try done; by destruct (timed_frame t w.1) as (_&_&_&_&->&_).
Qed.

(** Ten callbacks 8 ms apart, with any clock readings. *)
Lemma ten_callbacks t0 (clocks : list Q) :
  length clocks = 10%nat →
  ∃ k0 k1 k2 k3 k4 k5 k6 k7 k8 k9,
    zip (spaced t0 8 10) clocks
    = [(t0, k0)] ++ [(t0 + 8, k1); (t0 + 8 + 8, k2); (t0 + 8 + 8 + 8, k3);
                     (t0 + 8 + 8 + 8 + 8, k4)]
      ++ [(t0 + 8 + 8 + 8 + 8 + 8, k5)]
      ++ [(t0 + 8 + 8 + 8 + 8 + 8 + 8, k6); (t0 + 8 + 8 + 8 + 8 + 8 + 8 + 8, k7);
          (t0 + 8 + 8 + 8 + 8 + 8 + 8 + 8 + 8, k8);
          (t0 + 8 + 8 + 8 + 8 + 8 + 8 + 8 + 8 + 8, k9)].
Proof.
  intros Hlen.
  do 10 (destruct clocks as [|? clocks]; [discriminate Hlen|]).
  destruct clocks; [|discriminate Hlen]. by do 10 eexists.
Qed.

(** C7: an engine built on a device classified low-end targets 30 FPS with a
    minimum interval of 1000/30 ms between accepted frames, an interval no
    method changes afterwards. While it plays a loaded module whose hooks
    return, a frame callback is accepted or dropped by its timestamp alone:
    one that comes less than the interval after the last accepted frame
    skips [update] and [render], leaves the last accepted timestamp alone
    and re-arms the next callback; one that comes at the interval or later
    calls [update] and then [render] with the same context, once each,
    becomes the last accepted frame and re-arms as well. Of 10 callbacks
    8 ms apart, each re-arms the next one and fewer than 10 run an
    update/render pair: exactly 2 (the first and the sixth) when the first
    is accepted. *)
Theorem low_end_throttle_drops_frames :
  (∀ nav dpr el t,
     detectLowEndDevice nav = true → (new nav dpr el t).1 = Returned tt →
     isLowEndDevice (new nav dpr el t).2.1 = true
     ∧ targetFPS (new nav dpr el t).2.1 = 30%Z
     ∧ fpsThrottle (new nav dpr el t).2.1 = 1000 / 30)
  ∧ (∀ w now a s ps rw rh dpr t,
       fpsThrottle (play now w).2.1 = fpsThrottle w.1
       ∧ fpsThrottle (pause w).2.1 = fpsThrottle w.1
       ∧ fpsThrottle (stop w).2.1 = fpsThrottle w.1
       ∧ fpsThrottle (restart now w).2.1 = fpsThrottle w.1
       ∧ fpsThrottle (setSpeed s w).2.1 = fpsThrottle w.1
       ∧ fpsThrottle (setParameters ps w).2.1 = fpsThrottle w.1
       ∧ fpsThrottle (loadAnimation a now w).2.1 = fpsThrottle w.1
       ∧ fpsThrottle (destroy now w).2.1 = fpsThrottle w.1
       ∧ fpsThrottle (onResize rw rh dpr now w).2.1 = fpsThrottle w.1
       ∧ fpsThrottle (animationLoop t now w).2.1 = fpsThrottle w.1)
  ∧ (∀ w t now a,
       isPlaying w.1 = true → animation w.1 = Some a →
       0 < fpsThrottle w.1 → t - lastFrameTime w.1 < fpsThrottle w.1 →
       animationLoop t now w = (Returned tt, rearmed w)
       ∧ calls Update (animationLoop t now w).2 = calls Update w
       ∧ calls Render (animationLoop t now w).2 = calls Render w
       ∧ requests (animationLoop t now w).2 = S (requests w)
       ∧ lastFrameTime (animationLoop t now w).2.1 = lastFrameTime w.1)
  ∧ (∀ w t now a,
       running a w →
       0 < fpsThrottle w.1 → fpsThrottle w.1 <= t - lastFrameTime w.1 →
       (animationLoop t now w).1 = Returned tt
       ∧ running a (animationLoop t now w).2
       ∧ calls Update (animationLoop t now w).2 = S (calls Update w)
       ∧ calls Render (animationLoop t now w).2 = S (calls Render w)
       ∧ requests (animationLoop t now w).2 = S (requests w)
       ∧ lastFrameTime (animationLoop t now w).2.1 = t
       ∧ ∃ context,
           effects (animationLoop t now w).2.2
           = effects w.2 ++ [Call (name a) Update context; Call (name a) Render context;
                             RequestAnimationFrame (nextFrame w.2)])
  ∧ (∀ w a t0 (clocks : list Q),
       running a w → fpsThrottle w.1 == 1000 / 30 → length clocks = 10%nat →
       let run := callbacks (zip (spaced t0 8 10) clocks) w in
       run.1 = Returned tt
       ∧ (calls Update run.2 < calls Update w + 10)%nat
       ∧ (calls Render run.2 + calls Update w = calls Update run.2 + calls Render w)%nat
       ∧ requests run.2 = (requests w + 10)%nat
       ∧ (fpsThrottle w.1 <= t0 - lastFrameTime w.1 →
          calls Update run.2 = (calls Update w + 2)%nat
          ∧ calls Render run.2 = (calls Render w + 2)%nat)).
Proof.
  split_and!.
  - intros nav dpr el t Hlow Hret. rewrite new_cases in *. cbn zeta in *.
    rewrite Hlow in *. by case_match.
  - apply methods_keep_throttle.
  - intros w t now a Hp Ha Hon Hsoon.
    assert (tooSoon w.1 t = true) as Hts.
    { unfold tooSoon. by rewrite (proj2 (Qlt_bool_true _ _) Hon),
                                  (proj2 (Qlt_bool_true _ _) Hsoon). }
    rewrite animationLoop_cases, Hp, Ha, Hts. cbn [fst snd].
    by rewrite !calls_rearmed, requests_rearmed.
  - intros w t now a Hrun Hon Hlate.
    destruct (frame_accepted a w t now Hrun Hon Hlate) as (?&?&?&?&?&?&?&?). done.
  - intros w a t0 clocks Hrun Hthr Hlen. cbn zeta.
    assert (fpsThrottle w.1 == 100 # 3) as Hthr' by (rewrite Hthr; reflexivity).
    assert (0 < fpsThrottle w.1) as Hon by lra.
    destruct (ten_callbacks t0 clocks Hlen)
      as (k0 & k1 & k2 & k3 & k4 & k5 & k6 & k7 & k8 & k9 & ->).
    set (first := [(t0, k0)]). set (early := [(t0 + 8, k1); _; _; _]).
    set (sixth := [(_, k5)]). set (late := [(_, k6); _; _; _]).
    destruct (callbacks_on_running a (first ++ early ++ sixth ++ late) w Hrun)
      as (Hret & _ & Hreq & _ & _ & Hpairs).
    split_and!; [done| |done|exact Hreq|].
    + (* the first two callbacks cannot both be accepted *)
      subst first early. cbn [app].
      destruct (frame_on_running a w t0 k0 Hrun) as (Hret1 & Hrun1 & Hthr1 & _ & Hcase1).
      rewrite (callbacks_cons_returned _ _ _ _ Hret1).
      set (w1 := (animationLoop t0 k0 w).2) in *.
      destruct (frame_on_running a w1 (t0 + 8) k1 Hrun1)
        as (Hret2 & Hrun2 & _ & _ & Hcase2).
      rewrite (callbacks_cons_returned _ _ _ _ Hret2).
      set (w2 := (animationLoop (t0 + 8) k1 w1).2) in *.
      match goal with |- context [callbacks ?l w2] =>
        destruct (callbacks_on_running a l w2 Hrun2) as (_ & _ & _ & Hup & _);
        change (length l) with 8%nat in Hup end.
      enough (calls Update w2 ≤ calls Update w + 1)%nat by lia.
      destruct Hcase1 as [(_ & Hu1 & _)|(_ & Hu1 & _ & Hlast)].
      * destruct Hcase2 as [(_ & Hu2 & _)|(_ & Hu2 & _)]; lia.
      * destruct Hcase2 as [(_ & Hu2 & _)|(Hsoon & _)]; [lia|].
        exfalso. unfold tooSoon in Hsoon. rewrite Hthr1 in Hsoon.
        rewrite (proj2 (Qlt_bool_true _ _) Hon) in Hsoon.
        rewrite (Hlast (proj2 (Qlt_bool_true _ _) Hon)) in Hsoon.
        cbn [andb] in Hsoon. apply Qlt_bool_false in Hsoon. lra.
    + (* the first callback is accepted: so is the sixth, and no other *)
      intros Hlate.
      destruct (frame_accepted a w t0 k0 Hrun Hon Hlate)
        as (Hret1 & Hrun1 & Hthr1 & Hu1 & Hr1 & _ & Hlast1 & _).
      rewrite (callbacks_app first) by (subst first; by rewrite callbacks_cons_returned).
      replace (callbacks first w).2 with (animationLoop t0 k0 w).2
        by (subst first; by rewrite callbacks_cons_returned).
      set (w1 := (animationLoop t0 k0 w).2) in *.
      destruct (callbacks_dropped a early w1 Hrun1)
        as (Hret2 & Hrun2 & Hthr2 & Hlast2 & Hu2 & Hr2).
      { rewrite Hthr1. lra. }
      { subst early. rewrite Hlast1, Hthr1.
        repeat (apply Forall_cons; split; [cbn [fst]; lra|]). constructor. }
      rewrite (callbacks_app early) by done.
      set (w2 := (callbacks early w1).2) in *.
      subst sixth. cbn [app].
      match goal with |- context [callbacks ((?t, k5) :: late) w2] =>
        destruct (frame_accepted a w2 t k5 Hrun2)
          as (Hret3 & Hrun3 & Hthr3 & Hu3 & Hr3 & _ & Hlast3 & _);
          [rewrite Hthr2, Hthr1; lra|rewrite Hlast2, Hlast1, Hthr2, Hthr1; lra|];
        rewrite (callbacks_cons_returned _ _ _ _ Hret3);
        set (w3 := (animationLoop t k5 w2).2) in * end.
      destruct (callbacks_dropped a late w3 Hrun3) as (_ & _ & _ & _ & Hu4 & Hr4).
      { rewrite Hthr3, Hthr2, Hthr1. lra. }
      { subst late. rewrite Hlast3, Hthr3, Hthr2, Hthr1.
        repeat (apply Forall_cons; split; [cbn [fst]; lra|]). constructor. }
      lia.
Qed.

Lemma low_end_throttle_drops_frames_witness :
  fpsThrottle (new phone 1 element ctx2d).2.1 = 1000 / 30
  ∧ calls Update
      (callbacks (zip (spaced 100 8 10) (spaced 101 8 10)) (play 0 (loaded phone)).2).2
    = (calls Update (play 0 (loaded phone)).2 + 2)%nat
  ∧ requests
      (callbacks (zip (spaced 100 8 10) (spaced 101 8 10)) (play 0 (loaded phone)).2).2
    = (requests (play 0 (loaded phone)).2 + 10)%nat.
Proof.
  destruct low_end_throttle_drops_frames as (Hnew & _ & _ & _ & Hten).
  split; [by apply Hnew|].
  pose proof (Hten (play 0 (loaded phone)).2 demo 100 (spaced 101 8 10)) as H.
  cbn zeta in H. destruct H as (_ & _ & _ & Hr & Htwo).
  - unfold running. split_and!; [reflexivity..|by eexists|done].
  - reflexivity.
  - reflexivity.
  - destruct Htwo as [Hu _]; [vm_compute; discriminate|]. split; [exact Hu|exact Hr].
Defined.

(** ** C4: which operations can throw *)

(** C4, as stated, fails after [destroy()]: it sets [ctx] to [null], and
    [loadAnimation] builds a context through [getContext], which throws
    'Canvas context not initialized' when [ctx] is [null]. The module has
    been stored by then, so [restart()] and a second [destroy()] throw as
    well afterwards. *)
Lemma loadAnimation_after_destroy_throws :
  ((destroy 0;; loadAnimation demo 0) (loaded desktop)).1
    = Threw Canvas_context_not_initialized
  ∧ (restart 0 ((destroy 0;; loadAnimation demo 0) (loaded desktop)).2).1
    = Threw Canvas_context_not_initialized
  ∧ (destroy 0 ((destroy 0;; loadAnimation demo 0) (loaded desktop)).2).1
    = Threw Canvas_context_not_initialized.
Proof. vm_compute. repeat split. Qed.

(** C4, amended: [play], [pause], [stop], [setSpeed], [setParameters] and
    [getFPS] return normally in every state of the engine, destroyed or not.
    [loadAnimation], [restart] and [destroy] return normally while the engine
    holds its drawing context and the module hooks they call return.
    [destroy] leaves the engine without context and without module; in that
    state [restart] and [destroy] still return, while [loadAnimation] throws
    'Canvas context not initialized', as it does whenever the context is
    gone. *)
Theorem operations_total_while_context_held :
  (∀ w now s ps,
     (play now w).1 = Returned tt ∧ (pause w).1 = Returned tt
     ∧ (stop w).1 = Returned tt ∧ (setSpeed s w).1 = Returned tt
     ∧ (setParameters ps w).1 = Returned tt ∧ (getFPS w).1 = Returned (fps w.1))
  ∧ (∀ w a now,
       is_Some (ctx w.1) → (∀ h, raises a h = false) →
       (∀ b h, animation w.1 = Some b → raises b h = false) →
       (loadAnimation a now w).1 = Returned tt
       ∧ (restart now w).1 = Returned tt
       ∧ (destroy now w).1 = Returned tt)
  ∧ (∀ w now,
       (destroy now w).1 = Returned tt →
       ctx (destroy now w).2.1 = None ∧ animation (destroy now w).2.1 = None)
  ∧ (∀ w now,
       ctx w.1 = None → animation w.1 = None →
       (restart now w).1 = Returned tt ∧ (destroy now w).1 = Returned tt)
  ∧ (∀ w a now,
       ctx w.1 = None →
       (loadAnimation a now w).1 = Threw Canvas_context_not_initialized).
Proof.
  split_and!.
  - intros [e h] now s ps. split_and!; run_method; done.
  - intros [e h] a now [c Hc] Ha Hb. cbn in Hc, Hb.
    split_and!; run_method; try done; try congruence;
      match goal with H : raises ?b ?k = true |- _ =>
        by rewrite (Hb b k eq_refl) in H
      end.
  - intros [e h] now. revert now. run_method; done.
  - intros [e h] now Hc Ha. cbn in Hc, Ha. split; run_method; done || congruence.
  - intros [e h] a now Hc. cbn in Hc. run_method; done || congruence.
Qed.

Lemma operations_total_while_context_held_witness :
  (loadAnimation demo 5 (loaded desktop)).1 = Returned tt
  ∧ (restart 5 (loaded desktop)).1 = Returned tt
  ∧ (destroy 5 (loaded desktop)).1 = Returned tt.
Proof.
  destruct operations_total_while_context_held as (_ & Hheld & _).
  apply Hheld; [by eexists|done|].
  intros b h [= <-]. done.
Defined.


(** ** The speed multiplier *)

(** X12: [setSpeed] stores [Math.max(0.25, Math.min(2, speed))] and nothing else
    assigns the speed: whatever calls are made on an engine after its
    construction, [getSpeed()] returns a number from 0.25 to 2 or NaN, and
    NaN only if [setSpeed] was handed NaN. A finite speed in the range is
    stored as given, one below it (or [-Infinity]) as 0.25, one above it (or
    [Infinity]) as 2, and NaN as NaN. *)
Theorem speed_is_clamped_or_NaN :
  (∀ nav dpr el t w cs,
     new nav dpr el t = (Returned tt, w) →
     ∃ x, (getSpeed (session cs w)).1 = Returned x
          ∧ (clamped x ∨ x = NaN)
          ∧ (Forall (λ c, c ≠ SetSpeed NaN) cs → clamped x))
  ∧ (∀ w q, ∃ r, (getSpeed (setSpeed (Finite q) w).2).1 = Returned (Finite r)
       ∧ (1 # 4 <= q → q <= 2 → r == q)
       ∧ (q < 1 # 4 → r == 1 # 4)
       ∧ (2 < q → r == 2))
  ∧ (∀ w, (getSpeed (setSpeed Infinity w).2).1 = Returned (Finite 2)
          ∧ (getSpeed (setSpeed NegInfinity w).2).1 = Returned (Finite (1 # 4))
          ∧ (getSpeed (setSpeed NaN w).2).1 = Returned NaN).
Proof.
  split_and!.
  - intros nav dpr el t w cs Hnew. exists (speed (session cs w).1).
    split; [by destruct (session cs w)|]. by eapply session_speed.
  - intros [e h] q. destruct (clamp_finite q) as (r & Hr & Hcases).
    exists r. split; [|done]. unfold setSpeed, getSpeed. step_monad. cbn. by rewrite Hr.
  - intros [e h]. done.
Qed.

Lemma speed_is_clamped_or_NaN_witness :
  ∃ x, (getSpeed (session [SetSpeed (Finite 5); Play 0; SetSpeed (Finite (1 # 10))]
                    (new desktop 1 element ctx2d).2)).1 = Returned x
       ∧ (clamped x ∨ x = NaN)
       ∧ (Forall (λ c, c ≠ SetSpeed NaN)
            [SetSpeed (Finite 5); Play 0; SetSpeed (Finite (1 # 10))] → clamped x).
Proof.
  apply (proj1 speed_is_clamped_or_NaN desktop 1 element ctx2d).
  reflexivity.
Defined.

(** ** Playing and the pending frame request *)

Lemma timed_armed t e : armed e → armed (timed t e).
Proof.
  unfold armed. destruct (timed_frame t e) as (-> & _).
  assert (animationFrameId (timed t e) = animationFrameId e) as ->; [|done].
  unfold timed.
  destruct (Qlt_bool 0 (fpsThrottle e)); cbn;
    destruct (Qeq_bool (lastTime e) 0); cbn;
    destruct (Qle_bool 1000 (t - fpsUpdateTime e)); cbn; done.
Qed.

Ltac armed_now :=
  unfold armed in *; cbn in *;
  repeat match goal with
         | H : isPlaying _ = _ |- _ => rewrite H in *; clear H
         | H : animationFrameId _ = _ |- _ => rewrite H in *; clear H
         end;
  rewrite ?is_Some_alt in *; intuition congruence.

Lemma invoke_armed c w : armed w.1 → armed (invoke c w).2.1.
Proof.
  intros Hw. destruct c; cbn [invoke].
  1-8,10: destruct w as [e h]; run_method; armed_now.
  rewrite animationLoop_cases.
  destruct (isPlaying w.1) eqn:Hp; [|done]. destruct (animation w.1) as [a|]; [|done].
  destruct (tooSoon w.1 timestamp).
  { unfold armed, rearmed. cbn. by rewrite Hp. }
  cbn zeta. pose proof (timed_armed timestamp w.1 Hw) as Ht.
  destruct (ctx w.1); [|done].
  destruct (raises a Update); [done|]. destruct (raises a Render); [done|].
  unfold armed, rearmed, logged. cbn. destruct (timed_frame timestamp w.1) as (-> & _).
  by rewrite Hp.
Qed.

Lemma session_armed cs w : armed w.1 → armed (session cs w).1.
Proof.
  intros Hw. induction cs as [|c cs IH] using rev_ind; [done|].
  rewrite session_snoc. by apply invoke_armed.
Qed.

Lemma new_armed nav dpr el t w : new nav dpr el t = (Returned tt, w) → armed w.1.
Proof.
  rewrite new_cases. cbn zeta.
  destruct (match t with ctx2d => provides_2d el | webgl => provides_webgl el end); [|done].
  intros [= <-]. armed_now.
Qed.

Lemma frames_when_paused stamps w :
  isPlaying w.1 = false → frames stamps w = (Returned tt, w).
Proof.
  intros Hp. induction stamps as [|t stamps IH]; [done|].
  rewrite frames_cons. unfold mbind, M_bind. rewrite animationLoop_cases, Hp. exact IH.
Qed.

(** X13: Whatever calls were made on an engine since its construction, it holds a
    frame request exactly when it is playing. [pause()] then returns, cancels
    that request (once) if the engine was playing and does nothing to the
    host otherwise, and the frame callbacks that still arrive afterwards
    change nothing: no hook is called and no frame requested. *)
Theorem pause_cancels_the_pending_frame nav dpr el t w cs :
  new nav dpr el t = (Returned tt, w) →
  (isPlaying (session cs w).1 = true ↔ is_Some (animationFrameId (session cs w).1))
  ∧ (pause (session cs w)).1 = Returned tt
  ∧ isPlaying (pause (session cs w)).2.1 = false
  ∧ effects (pause (session cs w)).2.2
    = effects (session cs w).2
      ++ match animationFrameId (session cs w).1 with
         | Some frame => [CancelAnimationFrame frame]
         | None => []
         end
  ∧ ∀ stamps, frames stamps (pause (session cs w)).2
              = (Returned tt, (pause (session cs w)).2).
Proof.
  intros Hnew. pose proof (session_armed cs w (new_armed _ _ _ _ _ Hnew)) as Harmed.
  split; [exact Harmed|].
  assert (isPlaying (pause (session cs w)).2.1 = false) as Hp.
  { destruct (session cs w) as [e h]. run_method; done. }
  split_and!; [| exact Hp | |intros stamps; by apply frames_when_paused].
  - destruct (session cs w) as [e h]. run_method; done.
  - destruct (session cs w) as [e h]. run_method; [done|by rewrite app_nil_r].
Qed.

Lemma pause_cancels_the_pending_frame_witness :
  (isPlaying (session [LoadAnimation demo 0; Play 0; Frame 16 16]
                (new desktop 1 element ctx2d).2).1 = true
   ↔ is_Some (animationFrameId (session [LoadAnimation demo 0; Play 0; Frame 16 16]
                                  (new desktop 1 element ctx2d).2).1)).
Proof.
  apply (pause_cancels_the_pending_frame desktop 1 element ctx2d). reflexivity.
Defined.

(** ** A hook that throws in a frame *)

(** X14: When [update] or [render] throws in an accepted frame, the frame callback
    throws: the next frame is not requested, so the loop stops; but the engine
    still counts as playing, and [play()] is then a no-op. *)
Theorem throwing_hook_stops_the_loop_but_not_isPlaying w a c timestamp now :
  isPlaying w.1 = true → animation w.1 = Some a → ctx w.1 = Some c →
  tooSoon w.1 timestamp = false →
  raises a Update || raises a Render = true →
  (animationLoop timestamp now w).1
    = Threw (Module_error (if raises a Update then Update else Render))
  ∧ requests (animationLoop timestamp now w).2 = requests w
  ∧ animationFrameId (animationLoop timestamp now w).2.1 = animationFrameId w.1
  ∧ (isAnimationPlaying (animationLoop timestamp now w).2).1 = Returned true
  ∧ ∀ now', play now' (animationLoop timestamp now w).2
            = (Returned tt, (animationLoop timestamp now w).2).
Proof.
  intros Hp Ha Hc Hsoon Hraises. rewrite animationLoop_cases, Hp, Ha, Hsoon. cbn zeta.
  rewrite Hc. cbn [fst]. destruct (timed_frame timestamp w.1) as (Hp' & _).
  assert (animationFrameId (timed timestamp w.1) = animationFrameId w.1) as Hid.
  { unfold timed.
    destruct (Qlt_bool 0 (fpsThrottle w.1)); cbn;
      destruct (Qeq_bool (lastTime w.1) 0); cbn;
      destruct (Qle_bool 1000 (timestamp - fpsUpdateTime w.1)); cbn; done. }
  destruct (raises a Update) eqn:Hu; [|destruct (raises a Render) eqn:Hr; [|done]];
    cbn [fst snd]; (split_and!;
      [ done
      | by rewrite ?requests_logged_call
      | done
      | unfold isAnimationPlaying; step_monad; cbn; by rewrite Hp', Hp
      | intros now'; rewrite play_cases; cbn; by rewrite Hp', Hp ]).
Qed.

Lemma throwing_hook_stops_the_loop_but_not_isPlaying_witness :
  (isAnimationPlaying
     (animationLoop 16 16
        (play 0 (loadAnimation (mkAnimation "broken" false
                                  (λ h, bool_decide (h = Update))) 0
                   (new desktop 1 element ctx2d).2).2).2).2).1 = Returned true.
Proof.
  eapply (throwing_hook_stops_the_loop_but_not_isPlaying _ _ ctx2d); reflexivity.
Defined.

(** ** A destroyed engine *)

Lemma hook_calls_logged x w :
  hook_calls (logged x w) = hook_calls w ++ (if is_hook_call x then [x] else []).
Proof.
  unfold hook_calls, logged. cbn. rewrite filter_app. f_equal.
  rewrite filter_cons. destruct (is_hook_call x); by case_decide.
Qed.

Ltac quiet :=
  unfold hook_calls; cbn;
  rewrite ?filter_app, ?filter_cons_False, ?app_nil_r by (cbn; congruence);
  try done.

(** Without a drawing context no call reaches a module hook, and no call
    brings the context back. *)
Lemma invoke_without_context c w :
  ctx w.1 = None →
  ctx (invoke c w).2.1 = None ∧ hook_calls (invoke c w).2 = hook_calls w.
Proof.
  intros Hc. destruct c; cbn [invoke].
  1-8,10: destruct w as [e h]; cbn in Hc; run_method;
          (split; [try done; congruence|quiet; try congruence]).
  rewrite animationLoop_cases.
  destruct (isPlaying w.1); [|done]. destruct (animation w.1) as [a|]; [|done].
  destruct (tooSoon w.1 timestamp).
  { unfold rearmed. split; [done|]. quiet. }
  cbn zeta. rewrite Hc. cbn. destruct (timed_frame timestamp w.1) as (_&_&->&_).
  done.
Qed.

Lemma session_without_context cs w :
  ctx w.1 = None →
  ctx (session cs w).1 = None ∧ hook_calls (session cs w) = hook_calls w.
Proof.
  intros Hc. induction cs as [|c cs [IH1 IH2]] using rev_ind; [done|].
  rewrite session_snoc.
  destruct (invoke_without_context c (session cs w) IH1) as [-> ->]. done.
Qed.

(** X15: Once [destroy()] has returned, the engine never calls into a module
    again: whatever is called on it afterwards (loading a module, [play],
    [restart], frame or resize callbacks that still arrive), no [init],
    [update], [render] or [cleanup] is invoked. *)
Theorem destroyed_engine_calls_no_hook w now w' cs :
  destroy now w = (Returned tt, w') →
  hook_calls (session cs w') = hook_calls w'.
Proof.
  intros Hd. apply session_without_context.
  destruct w as [e h]. revert Hd. run_method; intros [= <-]; done.
Qed.

Lemma destroyed_engine_calls_no_hook_witness :
  hook_calls (session [LoadAnimation demo 50; Play 60; Frame 76 76; Restart 80]
                (destroy 40 (play 0 (loaded desktop)).2).2)
  = hook_calls (destroy 40 (play 0 (loaded desktop)).2).2.
Proof.
  apply (destroyed_engine_calls_no_hook (play 0 (loaded desktop)).2 40
           (destroy 40 (play 0 (loaded desktop)).2).2
           [LoadAnimation demo 50; Play 60; Frame 76 76; Restart 80]).
  vm_compute. reflexivity.
Defined.

(** X16: When the [cleanup] hook of the loaded module throws, [destroy()] throws
    before it releases anything: the resize observer stays connected and the
    engine keeps its module and its drawing context. *)
Theorem destroy_interrupted_by_cleanup_releases_nothing w now a c :
  animation w.1 = Some a → has_cleanup a = true → raises a Cleanup = true →
  ctx w.1 = Some c →
  (destroy now w).1 = Threw (Module_error Cleanup)
  ∧ animation (destroy now w).2.1 = Some a
  ∧ ctx (destroy now w).2.1 = Some c
  ∧ resizeObserver (destroy now w).2.1 = resizeObserver w.1
  ∧ Disconnect ∉ drop (length (effects w.2)) (effects (destroy now w).2.2).
Proof.
  intros Ha Hcl Hr Hc. destruct w as [e h]. cbn in Ha, Hc.
  run_method; simplify_eq; try congruence;
    (split_and!; [done..|]);
    rewrite <- ?app_assoc, drop_app_length; cbn;
    rewrite ?elem_of_cons, elem_of_nil; intuition congruence.
Qed.

Lemma destroy_interrupted_by_cleanup_releases_nothing_witness :
  (destroy 10 (loadAnimation (mkAnimation "stuck" true (λ h, bool_decide (h = Cleanup))) 0
                 (new desktop 1 element ctx2d).2).2).1
  = Threw (Module_error Cleanup).
Proof.
  eapply (destroy_interrupted_by_cleanup_releases_nothing _ _ _ ctx2d);
    vm_compute; reflexivity.
Defined.

(** ** [loadAnimation] *)

(** X17: On an engine that holds its drawing context, [loadAnimation] always
    leaves the engine stopped, with no frame request pending, also when it
    throws. If the [cleanup] hook of the module loaded before throws, the
    call throws and that module stays loaded; otherwise the new module is
    loaded before its [init] runs, so it stays loaded even when [init]
    throws. Every hook called is handed a context that is not playing and
    whose delta-time is 0 times the speed: 0 when the speed is a finite
    number, NaN when it is NaN. *)
Theorem loadAnimation_leaves_the_engine_stopped w a now c :
  ctx w.1 = Some c →
  isPlaying (loadAnimation a now w).2.1 = false
  ∧ animationFrameId (loadAnimation a now w).2.1 = None
  ∧ (cleanup_raises w.1 = true →
     (loadAnimation a now w).1 = Threw (Module_error Cleanup)
     ∧ animation (loadAnimation a now w).2.1 = animation w.1
     ∧ calls Init (loadAnimation a now w).2 = calls Init w)
  ∧ (cleanup_raises w.1 = false →
     (loadAnimation a now w).1
       = (if raises a Init then Threw (Module_error Init) else Returned tt)
     ∧ animation (loadAnimation a now w).2.1 = Some a
     ∧ calls Init (loadAnimation a now w).2 = S (calls Init w))
  ∧ ∀ m h x, Call m h x ∈ drop (length (effects w.2)) (effects (loadAnimation a now w).2.2) →
      ac_isPlaying x = false
      ∧ (∀ q, speed w.1 = Finite q → ∃ d, ac_deltaTime x = Finite d ∧ d == 0)
      ∧ (speed w.1 = NaN → ac_deltaTime x = NaN).
Proof.
  intros Hc. destruct w as [e h]. cbn in Hc. unfold cleanup_raises, calls.
  run_method; simplify_eq; try congruence;
    (split_and!; [done|done|intros Hcr..|intros m0 h0 x]).
  all: try (repeat (match goal with
                    | H : ?x = _ |- _ =>
                      assert_fails (constr_eq H Hcr);
                      lazymatch type of Hcr with context [x] => rewrite H in Hcr end
                    end; cbn in Hcr);
            first [ congruence
                  | split_and!; [congruence|congruence|];
                    rewrite ?filter_app, ?length_app;
                    repeat first [ rewrite filter_cons_True by (compute; congruence)
                                 | rewrite filter_cons_False by (compute; congruence) ];
                    cbn [length filter list_filter]; lia ]).
  all: rewrite <- ?app_assoc; first [rewrite drop_app_length | rewrite drop_all];
    cbn [app]; rewrite ?elem_of_cons, ?elem_of_nil;
    intros Hin; destruct_or?; simplify_eq;
    first [ done
          | cbn; split_and!;
            [ done
            | intros q Hq; rewrite Hq; by apply mul_zero_finite
            | intros Hq; rewrite Hq; apply mul_NaN_r ] ].
Qed.

Lemma loadAnimation_leaves_the_engine_stopped_witness :
  isPlaying (loadAnimation demo 20 (play 0 (loaded desktop)).2).2.1 = false.
Proof.
  eapply (loadAnimation_leaves_the_engine_stopped _ _ _ ctx2d). reflexivity.
Defined.

(** ** Resizing *)



(** ** Animation time *)






(** ** [generateThumbnail] *)








Ltac count_effects :=
  unfold kept, calls, disconnects; cbn;
  rewrite ?filter_app, ?length_app;
  repeat first [ rewrite filter_cons_True by (compute; congruence)
               | rewrite filter_cons_False by (compute; congruence) ];
  cbn [length filter list_filter].






(** X21: When the module's [init] throws, [generateThumbnail] rejects with that
    error before it enters the [try] block, so [destroy()] is not called:
    the engine keeps its context and the module, and its resize observer
    stays connected. *)
Theorem generateThumbnail_skips_destroy_when_init_throws
    nav dpr el a options now started stamps later capture :
  provides_2d el = true → raises a Init = true →
  let out := generateThumbnail nav dpr el a options now started stamps later capture in
  out.1 = Rejected (Engine_error (Module_error Init))
  ∧ ctx out.2.1 = Some ctx2d ∧ animation out.2.1 = Some a
  ∧ resizeObserver out.2.1 = Some true ∧ disconnects out.2 = 0%nat
  ∧ calls Cleanup out.2 = 0%nat.
Proof.
  intros H2d Hinit. cbn zeta. unfold generateThumbnail. cbn zeta.
  rewrite new_cases. cbn zeta.
  cbn [provides_2d provides_webgl rect_width rect_height]. rewrite H2d.
  unfold loadAnimation, stop, pause, cleanupPrevious. step_monad. cbn.
  rewrite Hinit. cbn. split_and!; try done; count_effects; done.
Qed.

Lemma generateThumbnail_skips_destroy_when_init_throws_witness :
  (generateThumbnail desktop 1 element
     (mkAnimation "broken" true (λ h, bool_decide (h = Init)))
     (mkOptions None None None None) 0 1 [(16, 17)] 1000 (Resolved "data:")).1
  = Rejected (Engine_error (Module_error Init)).
Proof.
  apply (generateThumbnail_skips_destroy_when_init_throws desktop 1 element
           (mkAnimation "broken" true (λ h, bool_decide (h = Init)))
           (mkOptions None None None None) 0 1 [(16, 17)] 1000);
    reflexivity.
Defined.

End EngineFacts.
